(** * Caresma voice pipeline: a shallow embedding of the turn detector,
      the streamed-response client and the API routes.

    The development follows the three source files it verifies:

    - [VoiceRecorder]  src/lib/components/VoiceRecorder.svelte
    - [Js], [Api]      src/lib/server/api/index.ts and its prompt/schema file
    - [Conversation]   src/lib/stores/conversation.svelte.ts

    Browser objects (MediaRecorder, requestAnimationFrame, fetch, streams,
    audio elements) are the environment: their events and answers are inputs
    of the model, the handlers of the source are the functions below. *)

From Stdlib Require Import ZArith QArith Qminmax List String Ascii Bool Lia.
From stdpp Require Import gmap list.
Import ListNotations.

#[local] Open Scope Z_scope.

(* ===================================================================== *)
(** * VoiceRecorder.svelte: level monitor and turn detector               *)
(* ===================================================================== *)

Module VoiceRecorder.

(** A recorded chunk ([Blob]) is its bytes; [size] is the length. *)
Abbreviation Blob := (list Z) (only parsing).

Inductive RecState : Type := Inactive | Recording.

(** The [onstop] handler of a MediaRecorder. [stopTurn] installs one of two
    closures; the sending one captures the array that [audioChunks] names at
    that moment (a reference, not a copy) and the value of
    [hasSpeechStarted]. *)
Inductive StopHandler : Type :=
| OnStopUnset
| OnStopDiscard
| OnStopSend (capturedChunks : nat) (capturedSpeech : bool).

(** A MediaRecorder object. [rec_stopQueued] is the browser's pending
    [stop] event: [stop()] makes the recorder inactive at once and queues
    the event, which is delivered later, once. *)
Record Recorder : Type := {
  rec_state : RecState;
  rec_onstop : StopHandler;
  rec_stopQueued : bool
}.

(** Calls through the component's props and releases of the microphone. *)
Inductive Output : Type :=
| RecordingComplete (audioBlob : Blob)
| SessionReady
| Error (message : string)
| ContextClosed (ctx : nat)
| TracksStopped (str : nat).

(** Component variables (in the order of the source), followed by the
    browser objects they refer to: the MediaRecorder objects and the chunk
    arrays live in a store and are named by reference, because
    [capturedChunks] in [stopTurn] aliases the array of [audioChunks]. *)
Record VR : Type := {
  sessionActive : bool;
  paused : bool;
  isListening : bool;
  audioLevel : Q;
  hasPermission : option bool;
  isSendingSilence : bool;
  stream : option nat;
  audioContext : option nat;
  analyser : option nat;
  animationFrame : option nat;
  mediaRecorder : option nat;
  audioChunks : nat;
  awaitingResponse : bool;
  startingTurn : bool;
  silenceStart : option Z;
  turnStartTime : Z;
  hasSpeechStarted : bool;
  recorders : gmap nat Recorder;
  arrays : gmap nat (list Blob);
  frames : list nat;
  nextId : nat;
  micPending : nat;
  emitted : list Output
}.

Definition set_sessionActive (v : bool) (s : VR) : VR :=
  match s with
  | Build_VR
      _ xpa xli xal xhp xss xst xac xan xaf xmr xch xaw xtu xsl xtt xsp xrs
      xar xfr xni xmp xem =>
    Build_VR
      v xpa xli xal xhp xss xst xac xan xaf xmr xch xaw xtu xsl xtt xsp xrs
      xar xfr xni xmp xem
  end.
Definition set_paused (v : bool) (s : VR) : VR :=
  match s with
  | Build_VR
      xsa _ xli xal xhp xss xst xac xan xaf xmr xch xaw xtu xsl xtt xsp xrs
      xar xfr xni xmp xem =>
    Build_VR
      xsa v xli xal xhp xss xst xac xan xaf xmr xch xaw xtu xsl xtt xsp xrs
      xar xfr xni xmp xem
  end.
Definition set_isListening (v : bool) (s : VR) : VR :=
  match s with
  | Build_VR
      xsa xpa _ xal xhp xss xst xac xan xaf xmr xch xaw xtu xsl xtt xsp xrs
      xar xfr xni xmp xem =>
    Build_VR
      xsa xpa v xal xhp xss xst xac xan xaf xmr xch xaw xtu xsl xtt xsp xrs
      xar xfr xni xmp xem
  end.
Definition set_audioLevel (v : Q) (s : VR) : VR :=
  match s with
  | Build_VR
      xsa xpa xli _ xhp xss xst xac xan xaf xmr xch xaw xtu xsl xtt xsp xrs
      xar xfr xni xmp xem =>
    Build_VR
      xsa xpa xli v xhp xss xst xac xan xaf xmr xch xaw xtu xsl xtt xsp xrs
      xar xfr xni xmp xem
  end.
Definition set_hasPermission (v : option bool) (s : VR) : VR :=
  match s with
  | Build_VR
      xsa xpa xli xal _ xss xst xac xan xaf xmr xch xaw xtu xsl xtt xsp xrs
      xar xfr xni xmp xem =>
    Build_VR
      xsa xpa xli xal v xss xst xac xan xaf xmr xch xaw xtu xsl xtt xsp xrs
      xar xfr xni xmp xem
  end.
Definition set_isSendingSilence (v : bool) (s : VR) : VR :=
  match s with
  | Build_VR
      xsa xpa xli xal xhp _ xst xac xan xaf xmr xch xaw xtu xsl xtt xsp xrs
      xar xfr xni xmp xem =>
    Build_VR
      xsa xpa xli xal xhp v xst xac xan xaf xmr xch xaw xtu xsl xtt xsp xrs
      xar xfr xni xmp xem
  end.
Definition set_stream (v : option nat) (s : VR) : VR :=
  match s with
  | Build_VR
      xsa xpa xli xal xhp xss _ xac xan xaf xmr xch xaw xtu xsl xtt xsp xrs
      xar xfr xni xmp xem =>
    Build_VR
      xsa xpa xli xal xhp xss v xac xan xaf xmr xch xaw xtu xsl xtt xsp xrs
      xar xfr xni xmp xem
  end.
Definition set_audioContext (v : option nat) (s : VR) : VR :=
  match s with
  | Build_VR
      xsa xpa xli xal xhp xss xst _ xan xaf xmr xch xaw xtu xsl xtt xsp xrs
      xar xfr xni xmp xem =>
    Build_VR
      xsa xpa xli xal xhp xss xst v xan xaf xmr xch xaw xtu xsl xtt xsp xrs
      xar xfr xni xmp xem
  end.
Definition set_analyser (v : option nat) (s : VR) : VR :=
  match s with
  | Build_VR
      xsa xpa xli xal xhp xss xst xac _ xaf xmr xch xaw xtu xsl xtt xsp xrs
      xar xfr xni xmp xem =>
    Build_VR
      xsa xpa xli xal xhp xss xst xac v xaf xmr xch xaw xtu xsl xtt xsp xrs
      xar xfr xni xmp xem
  end.
Definition set_animationFrame (v : option nat) (s : VR) : VR :=
  match s with
  | Build_VR
      xsa xpa xli xal xhp xss xst xac xan _ xmr xch xaw xtu xsl xtt xsp xrs
      xar xfr xni xmp xem =>
    Build_VR
      xsa xpa xli xal xhp xss xst xac xan v xmr xch xaw xtu xsl xtt xsp xrs
      xar xfr xni xmp xem
  end.
Definition set_mediaRecorder (v : option nat) (s : VR) : VR :=
  match s with
  | Build_VR
      xsa xpa xli xal xhp xss xst xac xan xaf _ xch xaw xtu xsl xtt xsp xrs
      xar xfr xni xmp xem =>
    Build_VR
      xsa xpa xli xal xhp xss xst xac xan xaf v xch xaw xtu xsl xtt xsp xrs
      xar xfr xni xmp xem
  end.
Definition set_audioChunks (v : nat) (s : VR) : VR :=
  match s with
  | Build_VR
      xsa xpa xli xal xhp xss xst xac xan xaf xmr _ xaw xtu xsl xtt xsp xrs
      xar xfr xni xmp xem =>
    Build_VR
      xsa xpa xli xal xhp xss xst xac xan xaf xmr v xaw xtu xsl xtt xsp xrs
      xar xfr xni xmp xem
  end.
Definition set_awaitingResponse (v : bool) (s : VR) : VR :=
  match s with
  | Build_VR
      xsa xpa xli xal xhp xss xst xac xan xaf xmr xch _ xtu xsl xtt xsp xrs
      xar xfr xni xmp xem =>
    Build_VR
      xsa xpa xli xal xhp xss xst xac xan xaf xmr xch v xtu xsl xtt xsp xrs
      xar xfr xni xmp xem
  end.
Definition set_startingTurn (v : bool) (s : VR) : VR :=
  match s with
  | Build_VR
      xsa xpa xli xal xhp xss xst xac xan xaf xmr xch xaw _ xsl xtt xsp xrs
      xar xfr xni xmp xem =>
    Build_VR
      xsa xpa xli xal xhp xss xst xac xan xaf xmr xch xaw v xsl xtt xsp xrs
      xar xfr xni xmp xem
  end.
Definition set_silenceStart (v : option Z) (s : VR) : VR :=
  match s with
  | Build_VR
      xsa xpa xli xal xhp xss xst xac xan xaf xmr xch xaw xtu _ xtt xsp xrs
      xar xfr xni xmp xem =>
    Build_VR
      xsa xpa xli xal xhp xss xst xac xan xaf xmr xch xaw xtu v xtt xsp xrs
      xar xfr xni xmp xem
  end.
Definition set_turnStartTime (v : Z) (s : VR) : VR :=
  match s with
  | Build_VR
      xsa xpa xli xal xhp xss xst xac xan xaf xmr xch xaw xtu xsl _ xsp xrs
      xar xfr xni xmp xem =>
    Build_VR
      xsa xpa xli xal xhp xss xst xac xan xaf xmr xch xaw xtu xsl v xsp xrs
      xar xfr xni xmp xem
  end.
Definition set_hasSpeechStarted (v : bool) (s : VR) : VR :=
  match s with
  | Build_VR
      xsa xpa xli xal xhp xss xst xac xan xaf xmr xch xaw xtu xsl xtt _ xrs
      xar xfr xni xmp xem =>
    Build_VR
      xsa xpa xli xal xhp xss xst xac xan xaf xmr xch xaw xtu xsl xtt v xrs
      xar xfr xni xmp xem
  end.
Definition set_recorders (v : gmap nat Recorder) (s : VR) : VR :=
  match s with
  | Build_VR
      xsa xpa xli xal xhp xss xst xac xan xaf xmr xch xaw xtu xsl xtt xsp _
      xar xfr xni xmp xem =>
    Build_VR
      xsa xpa xli xal xhp xss xst xac xan xaf xmr xch xaw xtu xsl xtt xsp v
      xar xfr xni xmp xem
  end.
Definition set_arrays (v : gmap nat (list Blob)) (s : VR) : VR :=
  match s with
  | Build_VR
      xsa xpa xli xal xhp xss xst xac xan xaf xmr xch xaw xtu xsl xtt xsp xrs
      _ xfr xni xmp xem =>
    Build_VR
      xsa xpa xli xal xhp xss xst xac xan xaf xmr xch xaw xtu xsl xtt xsp xrs
      v xfr xni xmp xem
  end.
Definition set_frames (v : list nat) (s : VR) : VR :=
  match s with
  | Build_VR
      xsa xpa xli xal xhp xss xst xac xan xaf xmr xch xaw xtu xsl xtt xsp xrs
      xar _ xni xmp xem =>
    Build_VR
      xsa xpa xli xal xhp xss xst xac xan xaf xmr xch xaw xtu xsl xtt xsp xrs
      xar v xni xmp xem
  end.
Definition set_nextId (v : nat) (s : VR) : VR :=
  match s with
  | Build_VR
      xsa xpa xli xal xhp xss xst xac xan xaf xmr xch xaw xtu xsl xtt xsp xrs
      xar xfr _ xmp xem =>
    Build_VR
      xsa xpa xli xal xhp xss xst xac xan xaf xmr xch xaw xtu xsl xtt xsp xrs
      xar xfr v xmp xem
  end.
Definition set_micPending (v : nat) (s : VR) : VR :=
  match s with
  | Build_VR
      xsa xpa xli xal xhp xss xst xac xan xaf xmr xch xaw xtu xsl xtt xsp xrs
      xar xfr xni _ xem =>
    Build_VR
      xsa xpa xli xal xhp xss xst xac xan xaf xmr xch xaw xtu xsl xtt xsp xrs
      xar xfr xni v xem
  end.
Definition set_emitted (v : list Output) (s : VR) : VR :=
  match s with
  | Build_VR
      xsa xpa xli xal xhp xss xst xac xan xaf xmr xch xaw xtu xsl xtt xsp xrs
      xar xfr xni xmp _ =>
    Build_VR
      xsa xpa xli xal xhp xss xst xac xan xaf xmr xch xaw xtu xsl xtt xsp xrs
      xar xfr xni xmp v
  end.

Definition SILENCE_THRESHOLD : Q := 5%Q.
Definition SILENCE_TIMEOUT : Z := 2000.
Definition WARMUP_PERIOD : Z := 1500.
Definition MIN_RECORDING_MS : Z := 500.

(** State of a freshly mounted component. [audioChunks = []] is array 0. *)
Definition init : VR := {|
  sessionActive := false; paused := false;
  isListening := false; audioLevel := 0%Q; hasPermission := None;
  isSendingSilence := false;
  stream := None; audioContext := None; analyser := None;
  animationFrame := None;
  mediaRecorder := None; audioChunks := 0%nat;
  awaitingResponse := false; startingTurn := false;
  silenceStart := None; turnStartTime := 0; hasSpeechStarted := false;
  recorders := ∅; arrays := {[ 0%nat := [] ]}; frames := [];
  nextId := 1%nat; micPending := 0%nat; emitted := []
|}.

Definition emit (o : Output) (s : VR) : VR := set_emitted (emitted s ++ [o]) s.

(** Fresh handle for a browser object (ids start at 1, so a
    requestAnimationFrame id is never falsy). *)
Definition fresh (s : VR) : nat * VR := (nextId s, set_nextId (S (nextId s)) s).

(** ** Level monitor *)

(** [dataArray.reduce((a, b) => a + b) / dataArray.length], then
    [Math.min(100, (average / 128) * 100)]. The analyser has [fftSize = 256],
    so [dataArray] holds 128 bytes; then every intermediate value is a
    multiple of 2^-14 below 2^22 and the double arithmetic of the source is
    exact, which is why rationals model it. *)
Definition audio_level (dataArray : list Z) : Q :=
  let sum := fold_right Z.add 0 dataArray in
  let average := (inject_Z sum / inject_Z (Z.of_nat (length dataArray)))%Q in
  Qmin 100%Q (average / 128 * 100)%Q.

Definition Qlt_bool (x y : Q) : bool := negb (Qle_bool y x).

(** [if (animationFrame) { cancelAnimationFrame(animationFrame); ... }] *)
Definition stopLevelMonitoring (s : VR) : VR :=
  match animationFrame s with
  | Some (S n) =>
      let s := set_frames (filter (λ i, i ≠ S n) (frames s)) s in
      set_animationFrame None s
  | _ => s
  end.

(** [animationFrame = requestAnimationFrame(updateLevel)] *)
Definition requestFrame (s : VR) : VR :=
  let '(id, s) := fresh s in
  let s := set_frames (frames s ++ [id]) s in
  set_animationFrame (Some id) s.

(** [recorder.stop()] on a recorder that is not inactive. *)
Definition recorder_stop (r : nat) (h : StopHandler) (s : VR) : VR :=
  set_recorders
    (<[ r := {| rec_state := Inactive; rec_onstop := h;
                rec_stopQueued := true |} ]> (recorders s)) s.

Definition recorder_active (s : VR) : option nat :=
  match mediaRecorder s with
  | Some r =>
      match recorders s !! r with
      | Some {| rec_state := Recording |} => Some r
      | _ => None
      end
  | None => None
  end.

Definition stopTurn (sendAudio : bool) (s : VR) : VR :=
  let s := stopLevelMonitoring s in
  let s := set_isListening false s in
  let s := set_audioLevel 0%Q s in
  let s := set_silenceStart None s in
  let s := set_isSendingSilence false s in
  let s :=
    match recorder_active s with
    | Some r =>
        if sendAudio then
          let capturedChunks := audioChunks s in
          let capturedSpeech := hasSpeechStarted s in
          let s := set_awaitingResponse true s in
          recorder_stop r (OnStopSend capturedChunks capturedSpeech) s
        else
          recorder_stop r OnStopDiscard s
    | None => s
    end in
  set_mediaRecorder None s.

Definition teardownSession (s : VR) : VR :=
  let s := stopLevelMonitoring s in
  let s := set_isListening false s in
  let s := set_audioLevel 0%Q s in
  let s := set_silenceStart None s in
  let s := set_isSendingSilence false s in
  let s := set_hasSpeechStarted false s in
  let s := set_awaitingResponse false s in
  let s := set_startingTurn false s in
  let s :=
    match recorder_active s with
    | Some r => recorder_stop r OnStopDiscard s
    | None => s
    end in
  let s := set_mediaRecorder None s in
  let s :=
    match audioContext s with
    | Some c =>
        let s := emit (ContextClosed c) s in
        let s := set_audioContext None s in
        set_analyser None s
    | None => s
    end in
  match stream s with
  | Some m =>
      let s := emit (TracksStopped m) s in
      set_stream None s
  | None => s
  end.

(** [if (!silenceStart)]: [null] and [0] are both falsy. *)
Definition silenceStart_unset (s : VR) : bool :=
  match silenceStart s with
  | None => true
  | Some t => t =? 0
  end.

(** One run of the [updateLevel] closure. [now] is the clock of the frame
    ([Date.now()]; the callback runs to completion within one reading),
    [dataArray] what [getByteFrequencyData] wrote. *)
Definition updateLevel (now : Z) (dataArray : list Z) (s : VR) : VR :=
  match analyser s with
  | None => s
  | Some _ =>
    if negb (isListening s) then s else
    let s := set_audioLevel (audio_level dataArray) s in
    let elapsed := now - turnStartTime s in
    let s :=
      if Qle_bool SILENCE_THRESHOLD (audioLevel s) then
        let s := set_hasSpeechStarted true s in
        let s := set_silenceStart None s in
        set_isSendingSilence false s
      else s in
    if hasSpeechStarted s && (elapsed >? WARMUP_PERIOD)
       && (elapsed >? MIN_RECORDING_MS) then
      if Qlt_bool (audioLevel s) SILENCE_THRESHOLD then
        if silenceStart_unset s then
          requestFrame (set_silenceStart (Some now) s)
        else if now - default 0 (silenceStart s) >? SILENCE_TIMEOUT then
          stopTurn true (set_isSendingSilence false s)
        else if 2 * (now - default 0 (silenceStart s)) >? SILENCE_TIMEOUT then
          requestFrame (set_isSendingSilence true s)
        else requestFrame s
      else requestFrame s
    else requestFrame s
  end.

(** [startLevelMonitoring]: schedules the first frame. *)
Definition startLevelMonitoring (s : VR) : VR :=
  match analyser s with
  | None => s
  | Some _ => requestFrame s
  end.

(** ** Starting a turn *)

Inductive MicOutcome : Type :=
| MicGranted
| MicNotAllowed
| MicOtherError.

(** Body of [startTurn] from [audioChunks = []] to [startLevelMonitoring()],
    run once the stream is there. *)
Definition startTurn_record (now : Z) (s : VR) : VR :=
  let '(a, s) := fresh s in
  let s := set_arrays (<[ a := [] ]> (arrays s)) s in
  let s := set_audioChunks a s in
  let s := set_silenceStart None s in
  let s := set_hasSpeechStarted false s in
  let s := set_isSendingSilence false s in
  let s := set_turnStartTime now s in
  let '(r, s) := fresh s in
  let s :=
    set_recorders
      (<[ r := {| rec_state := Recording; rec_onstop := OnStopUnset;
                  rec_stopQueued := false |} ]> (recorders s)) s in
  let s := set_mediaRecorder (Some r) s in
  let s := set_isListening true s in
  startLevelMonitoring s.

(** [startTurn()] up to its first suspension. With a stream the whole body
    runs at once; without one, [acquireMic] awaits [getUserMedia] and the
    activation is parked in [micPending] with [startingTurn] still set. *)
Definition startTurn (now : Z) (s : VR) : VR :=
  if isListening s || startingTurn s then s else
  let s := set_startingTurn true s in
  match stream s with
  | None => set_micPending (S (micPending s)) s
  | Some _ =>
      let s := startTurn_record now s in
      set_startingTurn false s
  end.

(** [acquireMic] after [getUserMedia] settled; the result is its return
    value. *)
Definition acquireMic_settled (o : MicOutcome) (s : VR) : bool * VR :=
  match o with
  | MicGranted =>
      let '(m, s) := fresh s in
      let s := set_stream (Some m) s in
      let s := set_hasPermission (Some true) s in
      let '(c, s) := fresh s in
      let s := set_audioContext (Some c) s in
      let '(n, s) := fresh s in
      let s := set_analyser (Some n) s in
      (true, emit SessionReady s)
  | MicNotAllowed =>
      let s := set_hasPermission (Some false) s in
      (false,
       emit (Error "Microphone access denied. Please allow microphone access in your browser settings.") s)
  | MicOtherError =>
      (false,
       emit (Error "Could not access microphone. Please check your device settings.") s)
  end.

(** The parked [startTurn] resumes: the rest of its [try] block and the
    [finally]. *)
Definition startTurn_resume (now : Z) (o : MicOutcome) (s : VR) : VR :=
  let '(ok, s) := acquireMic_settled o s in
  let s :=
    if ok then startTurn_record now s
    else set_startingTurn false s in
  set_startingTurn false s.

(** ** The reactive effect and the browser events *)

(** Body of the [$effect]; it re-runs when a prop changes. *)
Definition effect (now : Z) (s : VR) : VR :=
  let active := sessionActive s in
  let isPaused := paused s in
  if active && negb isPaused then
    if negb (isListening s) && negb (awaitingResponse s)
       && negb (startingTurn s)
    then startTurn now s else s
  else if active && isPaused then
    let s := set_awaitingResponse false s in
    if isListening s then stopTurn false s else s
  else teardownSession s.

(** [mediaRecorder.ondataavailable]: pushes to the array that the variable
    [audioChunks] names when the event arrives. *)
Definition ondataavailable (data : Blob) (s : VR) : VR :=
  if (0 <? Z.of_nat (length data)) then
    set_arrays (alter (λ cs, cs ++ [data]) (audioChunks s) (arrays s)) s
  else s.

(** [mediaRecorder.onerror] *)
Definition onerror (s : VR) : VR :=
  let s := emit (Error "Recording failed. Please try again.") s in
  let s := set_mediaRecorder None s in
  let s := set_isListening false s in
  set_startingTurn false s.

(** The handler installed in [recorder.onstop]. *)
Definition onstop (h : StopHandler) (s : VR) : VR :=
  match h with
  | OnStopSend capturedChunks capturedSpeech =>
      let chunks := default [] (arrays s !! capturedChunks) in
      if (0 <? Z.of_nat (length chunks)) && capturedSpeech then
        emit (RecordingComplete (concat chunks)) s
      else s
  | _ => s
  end.

Inductive Event : Type :=
| EvProps (active isPaused : bool)
| EvFrame (dataArray : list Z)
| EvData (r : nat) (data : Blob)
| EvStop (r : nat)
| EvRecError (r : nat)
| EvMic (o : MicOutcome)
| EvDestroy.

(** An animation frame runs the callbacks that were pending when it began,
    unless one was cancelled meanwhile; callbacks requested during the frame
    wait for the next one. *)
Definition run_frame (now : Z) (dataArray : list Z) (s : VR) : VR :=
  fold_left
    (λ s id,
       if bool_decide (id ∈ frames s) then
         updateLevel now dataArray
           (set_frames (filter (λ i, i ≠ id) (frames s)) s)
       else s)
    (frames s) s.

(** One task of the event loop at clock [now]. *)
Definition step (s : VR) (e : Z * Event) : VR :=
  let '(now, ev) := e in
  match ev with
  | EvProps active isPaused =>
      effect now (set_paused isPaused (set_sessionActive active s))
  | EvFrame dataArray => run_frame now dataArray s
  | EvData r data =>
      match recorders s !! r with
      | Some _ => ondataavailable data s
      | None => s
      end
  | EvStop r =>
      match recorders s !! r with
      | Some rc =>
          if rec_stopQueued rc then
            onstop (rec_onstop rc)
              (set_recorders
                 (<[ r := {| rec_state := rec_state rc;
                             rec_onstop := rec_onstop rc;
                             rec_stopQueued := false |} ]> (recorders s)) s)
          else s
      | None => s
      end
  | EvRecError r =>
      match recorders s !! r with
      | Some _ => onerror s
      | None => s
      end
  | EvMic o =>
      match micPending s with
      | O => s
      | S n => startTurn_resume now o (set_micPending n s)
      end
  | EvDestroy => teardownSession s
  end.

Definition run (s : VR) (tr : list (Z * Event)) : VR := fold_left step tr s.

(** Blobs handed to [onRecordingComplete], oldest first. *)
Definition completions (s : VR) : list Blob :=
  omap (λ o, match o with RecordingComplete b => Some b | _ => None end)
       (emitted s).

End VoiceRecorder.

(* ===================================================================== *)
(** * The JavaScript library functions the sources call                   *)
(* ===================================================================== *)

Module Js.

(** A JavaScript string is its UTF-16 code units. [js] writes an ASCII
    literal of the source. *)
Abbreviation jsstring := (list Z) (only parsing).

Fixpoint js (s : string) : list Z :=
  match s with
  | EmptyString => []
  | String c s' => Z.of_nat (nat_of_ascii c) :: js s'
  end.

(** JSON values, with [Undefined] for a missing property. A number is kept
    as the decimal [mantissa * 10 ^ exponent] that was written. The double
    it denotes is not computed; the sources only test numbers for being
    zero, which [rounds_to_zero] decides for the double. *)
#[local] Unset Elimination Schemes.
Inductive value : Type :=
| Undefined
| Null
| Bool (b : bool)
| Num (mantissa exponent : Z)
| Str (s : list Z)
| Arr (elements : list value)
| Obj (fields : list (list Z * value)).
#[local] Set Elimination Schemes.

Definition jsstring_eqb (a b : list Z) : bool :=
  bool_decide (a = b).

(** The double nearest to [m * 10 ^ e] is zero: the decimal is zero, or its
    magnitude is at most [2 ^ -1075], half the smallest subnormal (at the
    half itself the tie goes to the even one, zero). A decimal too large
    for a double is read as an infinity, which is not zero. *)
Definition rounds_to_zero (m e : Z) : bool :=
  (m =? 0) || ((e <? 0) && (Z.abs m * 2 ^ 1075 <=? 10 ^ (- e))).

(** ToBoolean. A number is falsy when it is [0] or [-0] as a double ([NaN]
    is not written in JSON). *)
Definition truthy (v : value) : bool :=
  match v with
  | Undefined | Null => false
  | Bool b => b
  | Num m e => negb (rounds_to_zero m e)
  | Str s => match s with [] => false | _ => true end
  | Arr _ | Obj _ => true
  end.

(** [a || b] *)
Definition or_else (a b : value) : value := if truthy a then a else b.

Fixpoint assoc (key : list Z) (fields : list (list Z * value)) : value :=
  match fields with
  | [] => Undefined
  | (k, v) :: rest => if jsstring_eqb k key then v else assoc key rest
  end.

(** [v.key] for the property names the sources read ([text], [transcript],
    [error]): none of them exists on a string, number, boolean or array, so
    only an object can answer; reading from [null] or [undefined] throws a
    TypeError, which is [None]. *)
Definition get (v : value) (key : list Z) : option value :=
  match v with
  | Undefined | Null => None
  | Obj fields => Some (assoc key fields)
  | _ => Some Undefined
  end.

(** White space and line terminators, as [String.prototype.trim] sees them. *)
Definition is_space (c : Z) : bool :=
  (c =? 9) || (c =? 10) || (c =? 11) || (c =? 12) || (c =? 13) || (c =? 32)
  || (c =? 160) || (c =? 5760) || ((8192 <=? c) && (c <=? 8202))
  || (c =? 8232) || (c =? 8233) || (c =? 8239) || (c =? 8287)
  || (c =? 12288) || (c =? 65279).

Fixpoint trim_start (s : list Z) : list Z :=
  match s with
  | c :: s' => if is_space c then trim_start s' else s
  | [] => []
  end.

Definition trim (s : list Z) : list Z :=
  rev (trim_start (rev (trim_start s))).

(** A thrown value, as far as [err instanceof Error ? err.message : ...]
    can tell. The message of [new Error(v)] is [String(v)]; for a string
    that is the string, for another value the conversion stays symbolic.
    The wording of an error raised by the engine itself is the engine's. *)
Inductive message : Type :=
| Text (s : list Z)
| StringOf (v : value)
| Engine (kind : string).

Inductive thrown : Type :=
| ErrorObject (msg : message)
| NotAnError.

Definition new_Error (v : value) : thrown :=
  match v with
  | Str s => ErrorObject (Text s)
  | _ => ErrorObject (StringOf v)
  end.

Definition TypeError : thrown := ErrorObject (Engine "TypeError").
Definition SyntaxError : thrown := ErrorObject (Engine "SyntaxError").

(** [err instanceof Error ? err.message : fallback] *)
Definition message_or (fallback : string) (e : thrown) : message :=
  match e with
  | ErrorObject m => m
  | NotAnError => Text (js fallback)
  end.


(** ** TextDecoder and TextEncoder (UTF-8) *)

(** State of the UTF-8 decoder of the Encoding standard, plus the flag of
    [TextDecoder] that drops one leading byte order mark. *)
Record decoder : Type := {
  code_point : Z;
  bytes_seen : Z;
  bytes_needed : Z;
  lower_boundary : Z;
  upper_boundary : Z;
  bom_seen : bool
}.

Definition new_TextDecoder : decoder :=
  {| code_point := 0; bytes_seen := 0; bytes_needed := 0;
     lower_boundary := 128; upper_boundary := 191; bom_seen := false |}.

Definition reset (d : decoder) : decoder :=
  {| code_point := 0; bytes_seen := 0; bytes_needed := 0;
     lower_boundary := 128; upper_boundary := 191; bom_seen := bom_seen d |}.

Definition expect (d : decoder) (n cp lo hi : Z) : decoder :=
  {| code_point := cp; bytes_seen := 0; bytes_needed := n;
     lower_boundary := lo; upper_boundary := hi; bom_seen := bom_seen d |}.

(** A byte while no sequence is open. The result is the new state and the
    code points produced. *)
Definition lead_byte (d : decoder) (b : Z) : decoder * list Z :=
  if b <=? 127 then (d, [b])
  else if (194 <=? b) && (b <=? 223) then
    (expect d 1 (Z.land b 31) 128 191, [])
  else if (224 <=? b) && (b <=? 239) then
    (expect d 2 (Z.land b 15)
       (if b =? 224 then 160 else 128) (if b =? 237 then 159 else 191), [])
  else if (240 <=? b) && (b <=? 244) then
    (expect d 3 (Z.land b 7)
       (if b =? 240 then 144 else 128) (if b =? 244 then 143 else 191), [])
  else (d, [65533]).

Definition decode_byte (d : decoder) (b : Z) : decoder * list Z :=
  if bytes_needed d =? 0 then lead_byte d b
  else if (lower_boundary d <=? b) && (b <=? upper_boundary d) then
    let cp := Z.lor (Z.shiftl (code_point d) 6) (Z.land b 63) in
    if bytes_seen d + 1 =? bytes_needed d then (reset d, [cp])
    else
      ({| code_point := cp; bytes_seen := bytes_seen d + 1;
          bytes_needed := bytes_needed d;
          lower_boundary := 128; upper_boundary := 191;
          bom_seen := bom_seen d |}, [])
  else
    (* the byte is put back and read again with no sequence open *)
    let '(d', out) := lead_byte (reset d) b in (d', 65533 :: out).

(** Code points leave as UTF-16; the first one is dropped when it is the
    byte order mark. *)
Definition utf16 (cp : Z) : list Z :=
  if cp <? 65536 then [cp]
  else [55296 + Z.shiftr (cp - 65536) 10; 56320 + Z.land (cp - 65536) 1023].

Definition emit_point (d : decoder) (cp : Z) : decoder * list Z :=
  let d' := {| code_point := code_point d; bytes_seen := bytes_seen d;
               bytes_needed := bytes_needed d;
               lower_boundary := lower_boundary d;
               upper_boundary := upper_boundary d; bom_seen := true |} in
  if negb (bom_seen d) && (cp =? 65279) then (d', []) else (d', utf16 cp).

Fixpoint emit_points (d : decoder) (cps : list Z) : decoder * list Z :=
  match cps with
  | [] => (d, [])
  | cp :: rest =>
      let '(d1, out1) := emit_point d cp in
      let '(d2, out2) := emit_points d1 rest in
      (d2, out1 ++ out2)
  end.

(** [decoder.decode(chunk, { stream: true })] *)
Fixpoint decode_stream (d : decoder) (chunk : list Z) : decoder * list Z :=
  match chunk with
  | [] => (d, [])
  | b :: rest =>
      let '(d1, cps) := decode_byte d b in
      let '(d2, out1) := emit_points d1 cps in
      let '(d3, out2) := decode_stream d2 rest in
      (d3, out1 ++ out2)
  end.

(** [decoder.decode()]: end of input; an open sequence becomes U+FFFD. *)
Definition decode_end (d : decoder) : list Z :=
  if bytes_needed d =? 0 then [] else snd (emit_points d [65533]).

(** [chunks.map((c) => decoder.decode(c, { stream: true })).join('')
     + decoder.decode()] with a fresh decoder. *)
Fixpoint decode_from (d : decoder) (chunks : list (list Z)) : list Z :=
  match chunks with
  | [] => decode_end d
  | c :: rest => let '(d', out) := decode_stream d c in out ++ decode_from d' rest
  end.

Definition decode_chunks (chunks : list (list Z)) : list Z :=
  decode_from new_TextDecoder chunks.

(** [new TextEncoder().encode(s)]: surrogate pairs are joined, a lone
    surrogate becomes U+FFFD. *)
Definition utf8 (cp : Z) : list Z :=
  if cp <? 128 then [cp]
  else if cp <? 2048 then
    [Z.lor 192 (Z.shiftr cp 6); Z.lor 128 (Z.land cp 63)]
  else if cp <? 65536 then
    [Z.lor 224 (Z.shiftr cp 12); Z.lor 128 (Z.land (Z.shiftr cp 6) 63);
     Z.lor 128 (Z.land cp 63)]
  else
    [Z.lor 240 (Z.shiftr cp 18); Z.lor 128 (Z.land (Z.shiftr cp 12) 63);
     Z.lor 128 (Z.land (Z.shiftr cp 6) 63); Z.lor 128 (Z.land cp 63)].

Definition is_high (c : Z) : bool := (55296 <=? c) && (c <=? 56319).
Definition is_low (c : Z) : bool := (56320 <=? c) && (c <=? 57343).

Fixpoint encode (s : list Z) : list Z :=
  match s with
  | [] => []
  | c :: rest =>
      if is_high c then
        match rest with
        | c2 :: rest' =>
            if is_low c2 then
              utf8 (65536 + Z.shiftl (c - 55296) 10 + (c2 - 56320))
              ++ encode rest'
            else utf8 65533 ++ encode rest
        | [] => utf8 65533
        end
      else if is_low c then utf8 65533 ++ encode rest
      else utf8 c ++ encode rest
  end.


(** ** JSON.stringify, for the objects the routes send *)

Definition hex_digit (n : Z) : Z := if n <? 10 then 48 + n else 87 + n.

Definition unicode_escape (c : Z) : list Z :=
  [92; 117; hex_digit (Z.land (Z.shiftr c 12) 15);
   hex_digit (Z.land (Z.shiftr c 8) 15);
   hex_digit (Z.land (Z.shiftr c 4) 15); hex_digit (Z.land c 15)].

Definition escape_unit (c : Z) : list Z :=
  if c =? 8 then [92; 98]
  else if c =? 9 then [92; 116]
  else if c =? 10 then [92; 110]
  else if c =? 12 then [92; 102]
  else if c =? 13 then [92; 114]
  else if c =? 34 then [92; 34]
  else if c =? 92 then [92; 92]
  else if c <? 32 then unicode_escape c
  else [c].

(** QuoteJSONString without the quotes: a surrogate pair stays, a lone
    surrogate is escaped. *)
Fixpoint escape (s : list Z) : list Z :=
  match s with
  | [] => []
  | c :: rest =>
      if is_high c then
        match rest with
        | c2 :: rest' =>
            if is_low c2 then c :: c2 :: escape rest'
            else unicode_escape c ++ escape rest
        | [] => unicode_escape c
        end
      else if is_low c then unicode_escape c ++ escape rest
      else escape_unit c ++ escape rest
  end.

Definition quote (s : list Z) : list Z := 34 :: escape s ++ [34].

Fixpoint stringify_fields (fields : list (list Z * list Z)) : list Z :=
  match fields with
  | [] => []
  | [(k, v)] => quote k ++ 58 :: quote v
  | (k, v) :: rest => quote k ++ 58 :: quote v ++ 44 :: stringify_fields rest
  end.

(** [JSON.stringify(o)] for an object [o] whose values are strings. *)
Definition stringify_strings (fields : list (list Z * list Z)) : list Z :=
  123 :: stringify_fields fields ++ [125].

(** ** JSON.parse *)

Definition is_json_space (c : Z) : bool :=
  (c =? 32) || (c =? 9) || (c =? 10) || (c =? 13).

Fixpoint skip_space (s : list Z) : list Z :=
  match s with
  | c :: rest => if is_json_space c then skip_space rest else s
  | [] => []
  end.

Definition hex_value (c : Z) : option Z :=
  if (48 <=? c) && (c <=? 57) then Some (c - 48)
  else if (97 <=? c) && (c <=? 102) then Some (c - 87)
  else if (65 <=? c) && (c <=? 70) then Some (c - 55)
  else None.

Definition hex4 (a b c d : Z) : option Z :=
  match hex_value a, hex_value b, hex_value c, hex_value d with
  | Some x, Some y, Some z, Some w => Some (((x * 16 + y) * 16 + z) * 16 + w)
  | _, _, _, _ => None
  end.

(** The characters of a string literal after its opening quote. *)
Fixpoint parse_chars (s acc : list Z) : option (list Z * list Z) :=
  match s with
  | [] => None
  | c :: rest =>
      if c =? 34 then Some (rev acc, rest)
      else if c =? 92 then
        match rest with
        | e :: rest1 =>
            if e =? 34 then parse_chars rest1 (34 :: acc)
            else if e =? 92 then parse_chars rest1 (92 :: acc)
            else if e =? 47 then parse_chars rest1 (47 :: acc)
            else if e =? 98 then parse_chars rest1 (8 :: acc)
            else if e =? 102 then parse_chars rest1 (12 :: acc)
            else if e =? 110 then parse_chars rest1 (10 :: acc)
            else if e =? 114 then parse_chars rest1 (13 :: acc)
            else if e =? 116 then parse_chars rest1 (9 :: acc)
            else if e =? 117 then
              match rest1 with
              | h1 :: h2 :: h3 :: h4 :: rest2 =>
                  match hex4 h1 h2 h3 h4 with
                  | Some u => parse_chars rest2 (u :: acc)
                  | None => None
                  end
              | _ => None
              end
            else None
        | [] => None
        end
      else if c <? 32 then None
      else parse_chars rest (c :: acc)
  end.

Definition is_digit (c : Z) : bool := (48 <=? c) && (c <=? 57).

Fixpoint digits (s : list Z) : list Z * list Z :=
  match s with
  | c :: rest =>
      if is_digit c then let '(ds, r) := digits rest in (c :: ds, r)
      else ([], s)
  | [] => ([], [])
  end.

Definition digits_value (ds : list Z) : Z :=
  fold_left (fun n c => n * 10 + (c - 48)) ds 0.

Definition parse_exponent (s : list Z) : option (Z * list Z) :=
  match s with
  | c :: rest =>
      if (c =? 101) || (c =? 69) then
        let '(neg, rest1) :=
          match rest with
          | 45 :: r => (true, r)
          | 43 :: r => (false, r)
          | _ => (false, rest)
          end in
        match digits rest1 with
        | ([], _) => None
        | (ds, r) =>
            Some (if neg : bool then - digits_value ds else digits_value ds, r)
        end
      else Some (0, s)
  | [] => Some (0, [])
  end.

Definition parse_fraction (s : list Z) : option (list Z * list Z) :=
  match s with
  | 46 :: rest =>
      match digits rest with
      | ([], _) => None
      | (ds, r) => Some (ds, r)
      end
  | _ => Some ([], s)
  end.

Definition parse_number (s : list Z) : option (value * list Z) :=
  let '(neg, s1) :=
    match s with
    | 45 :: r => (true, r)
    | _ => (false, s)
    end in
  match digits s1 with
  | ([], _) => None
  | (48 :: _ :: _, _) => None
  | (ip, s2) =>
      match parse_fraction s2 with
      | None => None
      | Some (fp, s3) =>
          match parse_exponent s3 with
          | None => None
          | Some (ex, s4) =>
              let m := digits_value (ip ++ fp) in
              Some (Num (if neg : bool then - m else m)
                        (ex - Z.of_nat (length fp)), s4)
          end
      end
  end.

(** A repeated key keeps its place and takes the later value. *)
Fixpoint set_field (k : list Z) (v : value) (fields : list (list Z * value))
  : list (list Z * value) :=
  match fields with
  | [] => [(k, v)]
  | (k', v') :: rest =>
      if jsstring_eqb k' k then (k', v) :: rest
      else (k', v') :: set_field k v rest
  end.

(** The text begins with the word [w]. *)
Fixpoint starts_with (w s : list Z) : bool :=
  match w, s with
  | [], _ => true
  | a :: w', b :: s' => (a =? b) && starts_with w' s'
  | _ :: _, [] => false
  end.

(** What a parser makes of a text: a value and the rest of the text, a
    syntax error, or no answer because the fuel ran out. *)
Inductive parsed : Type :=
| Parsed (v : value) (rest : list Z)
| Malformed
| Exhausted.

(** The fuel bounds the number of nested calls. Two calls at most share a
    code unit of the input, so twice the length plus one always suffices
    ([JsProofs.parse_value_fuel]). *)
Fixpoint parse_value (fuel : nat) (s : list Z) : parsed :=
  match fuel with
  | O => Exhausted
  | S fuel' =>
      match skip_space s with
      | [] => Malformed
      | c :: rest =>
          if c =? 123 then
            match skip_space rest with
            | [] => Malformed
            | c1 :: rest1 =>
                if c1 =? 125 then Parsed (Obj []) rest1
                else parse_members fuel' rest []
            end
          else if c =? 91 then
            match skip_space rest with
            | [] => Malformed
            | c1 :: rest1 =>
                if c1 =? 93 then Parsed (Arr []) rest1
                else parse_elements fuel' rest []
            end
          else if c =? 34 then
            match parse_chars rest [] with
            | Some (str, rest1) => Parsed (Str str) rest1
            | None => Malformed
            end
          else if starts_with (js "true") (c :: rest) then
            Parsed (Bool true) (skipn 4 (c :: rest))
          else if starts_with (js "false") (c :: rest) then
            Parsed (Bool false) (skipn 5 (c :: rest))
          else if starts_with (js "null") (c :: rest) then
            Parsed Null (skipn 4 (c :: rest))
          else
            match parse_number (c :: rest) with
            | Some (v, rest1) => Parsed v rest1
            | None => Malformed
            end
      end
  end
with parse_members (fuel : nat) (s : list Z) (acc : list (list Z * value))
  : parsed :=
  match fuel with
  | O => Exhausted
  | S fuel' =>
      match skip_space s with
      | [] => Malformed
      | c :: rest =>
          if c =? 34 then
            match parse_chars rest [] with
            | Some (k, rest1) =>
                match skip_space rest1 with
                | [] => Malformed
                | c2 :: rest2 =>
                    if c2 =? 58 then
                      match parse_value fuel' rest2 with
                      | Parsed v rest3 =>
                          match skip_space rest3 with
                          | [] => Malformed
                          | c4 :: rest4 =>
                              if c4 =? 44 then
                                parse_members fuel' rest4 (set_field k v acc)
                              else if c4 =? 125 then
                                Parsed (Obj (set_field k v acc)) rest4
                              else Malformed
                          end
                      | Malformed => Malformed
                      | Exhausted => Exhausted
                      end
                    else Malformed
                end
            | None => Malformed
            end
          else Malformed
      end
  end
with parse_elements (fuel : nat) (s : list Z) (acc : list value) : parsed :=
  match fuel with
  | O => Exhausted
  | S fuel' =>
      match parse_value fuel' s with
      | Parsed v rest =>
          match skip_space rest with
          | [] => Malformed
          | c1 :: rest1 =>
              if c1 =? 44 then parse_elements fuel' rest1 (acc ++ [v])
              else if c1 =? 93 then Parsed (Arr (acc ++ [v])) rest1
              else Malformed
          end
      | Malformed => Malformed
      | Exhausted => Exhausted
      end
  end.

(** [JSON.parse(text)]; [None] is the SyntaxError. *)
Definition JSON_parse (text : list Z) : option value :=
  match parse_value (S (2 * length text)) text with
  | Parsed v rest =>
      match skip_space rest with
      | [] => Some v
      | _ => None
      end
  | _ => None
  end.

End Js.

(* ===================================================================== *)
(** * src/lib/server/api/index.ts: the three routes                       *)
(* ===================================================================== *)

Module Api.
Import Js.

(** Outcome of an awaited call to the OpenAI client or the request. *)
Inductive result (A : Type) : Type :=
| Resolved (a : A)
| Rejected (e : thrown).
Arguments Resolved {A} a.
Arguments Rejected {A} e.

(** A byte stream as it is read: its chunks, then the end or an error. *)
Record Body : Type := {
  chunks : list (list Z);
  failure : option thrown
}.

(** The object given to [c.json]: [{ error }], [{ error, success }] or
    [{ analysis, success }] by the handlers; the result of [safeParse],
    [{ success: false, error }], by the validator of [/analyze]; and
    [{ error: 'Internal Server Error', message }] by [app.onError]. *)
Inductive Json : Type :=
| ErrorJson (error : message) (success : option bool)
| AnalysisJson (analysis : value) (success : bool)
| ValidationJson (result : value)
| InternalErrorJson (msg : message).

Inductive Response : Type :=
| JsonResponse (body : Json) (status : Z)
| StreamResponse (body : Body).

(** [c.json({ error: message, success: false }, 500)] of the [catch]
    blocks. *)
Definition caught (fallback : string) (e : thrown) : Response :=
  JsonResponse (ErrorJson (message_or fallback e) (Some false)) 500.

Definition fallback_greeting : list Z :=
  js "How has your day been so far? I'd love to hear about it.".

(** [new ReadableStream({ start })], as its consumer reads it. [start]
    enqueues the text line and then every chunk it reads from the TTS body,
    without waiting for the consumer, and closes the stream. When a read of
    the TTS body fails, [start] rejects: the stream is errored with that
    failure and the chunks still in its queue are dropped, so the consumer
    has the [taken] chunks it had read by then (none, not even the text
    line, when it had not begun) and then the failure. *)
Definition responseStream (textLine : list Z) (ttsBody : option Body)
    (taken : nat) : Body :=
  match ttsBody with
  | Some b =>
      match failure b with
      | None => {| chunks := textLine :: chunks b; failure := None |}
      | Some e =>
          {| chunks := firstn taken (textLine :: chunks b);
             failure := Some e |}
      end
  | None => {| chunks := [textLine]; failure := None |}
  end.

(** ** POST /greeting *)

(** What the OpenAI client answers during one request: the content of the
    first choice ([completion.choices[0]?.message?.content], a string or
    nothing) and the body of the speech response, as [start] reads it.
    [g_taken] is the number of chunks the consumer of the response had
    taken when that body failed; it matters only then. *)
Record GreetingCalls : Type := {
  g_completion : result (option (list Z));
  g_speech : result (option Body);
  g_taken : nat
}.

Definition greeting (ai : GreetingCalls) : Response :=
  match g_completion ai with
  | Rejected e => caught "Failed to get greeting" e
  | Resolved content =>
      let responseText :=
        match content with
        | Some s => match trim s with [] => fallback_greeting | t => t end
        | None => fallback_greeting
        end in
      match g_speech ai with
      | Rejected e => caught "Failed to get greeting" e
      | Resolved ttsBody =>
          let textLine :=
            encode (stringify_strings [(js "text", responseText)] ++ [10]) in
          StreamResponse (responseStream textLine ttsBody (g_taken ai))
      end
  end.

(** ** POST /process-audio *)

(** An entry of the submitted form: absent, a text field or a file. *)
Inductive FormEntry : Type :=
| Absent
| Field (text : list Z)
| FileEntry (content : list Z).

Record FormData : Type := {
  audio : FormEntry;
  messages : FormEntry
}.

(** [transcription] is the transcript after
    [typeof transcription === 'string' ? transcription : String(transcription)];
    [p_deltas] are the [delta.content] of the streamed completion and how
    the iteration ended; [p_speech] is the body of the speech response, as
    [start] reads it, and [p_taken] the number of chunks the consumer of the
    response had taken when that body failed. *)
Record ProcessCalls : Type := {
  p_formData : result FormData;
  p_transcription : result (list Z);
  p_completion : result (list (option (list Z)) * option thrown);
  p_speech : result (option Body);
  p_taken : nat
}.

(** [!audioFile] *)
Definition entry_falsy (e : FormEntry) : bool :=
  match e with
  | Absent => true
  | Field [] => true
  | _ => false
  end.

(** [messagesJson ? JSON.parse(messagesJson) : []]. A File entry is truthy
    and its string form is not JSON. *)
Definition previousMessages (e : FormEntry) : option value :=
  match e with
  | Absent => Some (Arr [])
  | Field [] => Some (Arr [])
  | Field s => JSON_parse s
  | FileEntry _ => None
  end.

(** [previousMessages.map((m) => ({ role: m.role, content: m.content }))]:
    a TypeError unless the value is an array without [null]. *)
Definition map_messages (v : value) : option (list (value * value)) :=
  match v with
  | Arr ms =>
      fold_right
        (fun m acc =>
           match acc, get m (js "role"), get m (js "content") with
           | Some l, Some r, Some c => Some ((r, c) :: l)
           | _, _, _ => None
           end) (Some []) ms
  | _ => None
  end.

(** [if (delta) responseText += delta] over the stream. *)
Definition collect (deltas : list (option (list Z))) : list Z :=
  flat_map (fun d => match d with Some s => s | None => [] end) deltas.

Definition fallback_reply : list Z :=
  js "I apologize, I had trouble understanding. Could you please repeat that?".

Definition process_audio (ai : ProcessCalls) : Response :=
  match p_formData ai with
  | Rejected e => caught "Processing failed" e
  | Resolved formData =>
      if entry_falsy (audio formData) then
        JsonResponse (ErrorJson (Text (js "No audio file provided")) None) 400
      else
        match previousMessages (messages formData) with
        | None => caught "Processing failed" SyntaxError
        | Some previous =>
          match p_transcription ai with
          | Rejected e => caught "Processing failed" e
          | Resolved transcript =>
            match trim transcript with
            | [] =>
                StreamResponse
                  {| chunks :=
                       [encode (stringify_strings
                                  [(js "text", []); (js "transcript", [])]
                                ++ [10])];
                     failure := None |}
            | _ =>
              match map_messages previous with
              | None => caught "Processing failed" TypeError
              | Some _ =>
                match p_completion ai with
                | Rejected e => caught "Processing failed" e
                | Resolved (_, Some e) => caught "Processing failed" e
                | Resolved (deltas, None) =>
                    let responseText :=
                      match collect deltas with
                      | [] => fallback_reply
                      | t => t
                      end in
                    match p_speech ai with
                    | Rejected e => caught "Processing failed" e
                    | Resolved ttsBody =>
                        let textLine :=
                          encode (stringify_strings
                                    [(js "text", responseText);
                                     (js "transcript", transcript)]
                                  ++ [10]) in
                        StreamResponse
                          (responseStream textLine ttsBody (p_taken ai))
                    end
                end
              end
            end
          end
        end
  end.

(** ** POST /analyze *)

(** What the middleware [zValidator('json', z.object({ transcript:
    z.string() }))] makes of the request, before the handler. The
    middleware is the library's (@hono/zod-validator over the validator of
    hono):
    - [Accepted]: the body is a JSON object with a string [transcript], and
      the handler runs;
    - [Refused result]: the body is JSON that fails the schema, or the
      request is not declared as JSON, which the validator reads as [{}];
      the middleware answers [c.json(result, 400)] with what [safeParse]
      returned, [{ success: false, error }];
    - [Malformed msg]: the request is declared as JSON and its body
      does not parse; the validator throws an [HTTPException] with that
      message, outside the [try] of the handler, and [app.onError]
      answers. *)
Inductive Validation : Type :=
| Accepted
| Refused (result : value)
| Malformed (msg : message).

(** [a_validation] is what the validator does; [a_completion] is the
    content of the first choice. *)
Record AnalyzeCalls : Type := {
  a_validation : Validation;
  a_completion : result (option (list Z))
}.

(** [app.onError]:
    [c.json({ error: 'Internal Server Error', message: err.message }, 500)] *)
Definition onError (msg : message) : Response :=
  JsonResponse (InternalErrorJson msg) 500.

(** [completion.choices[0]?.message?.content || '{}'] *)
Definition analysisText (content : option (list Z)) : list Z :=
  match content with
  | Some [] | None => js "{}"
  | Some s => s
  end.

Definition analyze (ai : AnalyzeCalls) : Response :=
  match a_validation ai with
  | Refused result => JsonResponse (ValidationJson result) 400
  | Malformed msg => onError msg
  | Accepted =>
      match a_completion ai with
      | Rejected e => caught "Analysis failed" e
      | Resolved content =>
          match JSON_parse (analysisText content) with
          | None => caught "Analysis failed" SyntaxError
          | Some analysis => JsonResponse (AnalysisJson analysis true) 200
          end
      end
  end.

(** ** The documented shapes *)

(** [{ error: string, success: false }] with an HTTP error status. *)
Definition is_error_reply (r : Response) : bool :=
  match r with
  | JsonResponse (ErrorJson _ (Some false)) status => 400 <=? status
  | _ => false
  end.

Definition is_string (v : value) : bool :=
  match v with Str _ => true | _ => false end.

Definition is_string_array (v : value) : bool :=
  match v with Arr l => forallb is_string l | _ => false end.

(** The number [m * 10 ^ e] is an integer between 1 and 10, the score of
    the documented report. ([scoreSchema] of prompts/analysis.ts bounds the
    number by 1 and 10 without asking for a whole one; the route applies
    neither.) *)
Definition integer_1_to_10 (v : value) : bool :=
  match v with
  | Num m e =>
      if 0 <=? e then (1 <=? m * 10 ^ e) && (m * 10 ^ e <=? 10)
      else (m mod 10 ^ (- e) =? 0)
           && (1 <=? m / 10 ^ (- e)) && (m / 10 ^ (- e) <=? 10)
  | _ => false
  end.

Definition is_domain (v : value) : bool :=
  match v with
  | Obj f =>
      integer_1_to_10 (assoc (js "score") f)
      && is_string_array (assoc (js "observations") f)
      && is_string_array (assoc (js "concerns") f)
  | _ => false
  end.

Definition is_severity (v : value) : bool :=
  match v with
  | Str s =>
      jsstring_eqb s (js "normal") || jsstring_eqb s (js "mild")
      || jsstring_eqb s (js "moderate") || jsstring_eqb s (js "significant")
  | _ => false
  end.

(** The documented StructuredReport: the five domains, the severity, the
    summary and the recommendations ([CognitiveAssessmentSchema] has the
    same fields). *)
Definition is_report (v : value) : bool :=
  match v with
  | Obj f =>
      is_domain (assoc (js "memory") f)
      && is_domain (assoc (js "language") f)
      && is_domain (assoc (js "attention") f)
      && is_domain (assoc (js "orientation") f)
      && is_domain (assoc (js "executiveFunction") f)
      && is_severity (assoc (js "overallSeverity") f)
      && is_string (assoc (js "summary") f)
      && is_string_array (assoc (js "recommendations") f)
  | _ => false
  end.

End Api.

(* ===================================================================== *)
(** * src/lib/stores/conversation.svelte.ts: the conversation store       *)
(* ===================================================================== *)

Module Conversation.
Import Js.
Export Api (result, Resolved, Rejected, Body, chunks, failure).

Inductive AvatarState : Type := idle | listening | thinking | speaking.

Inductive Role : Type := user | assistant.

(** [content] is whatever the header carried: a string for every response
    of this server, but the store does not check. *)
Record ChatMessage : Type := {
  id : list Z;
  role : Role;
  content : value;
  timestamp : Z
}.

(** The variables of [createConversationStore]. [currentAudio] names an
    audio element. *)
Record Store : Type := {
  messages : list ChatMessage;
  avatarState : AvatarState;
  isProcessing : bool;
  isSessionActive : bool;
  error : option message;
  sessionId : list Z;
  currentAudio : option nat
}.

Definition set_messages (v : list ChatMessage) (s : Store) : Store :=
  match s with
  | Build_Store _ xav xpr xac xer xsi xca =>
      Build_Store v xav xpr xac xer xsi xca
  end.
Definition set_avatarState (v : AvatarState) (s : Store) : Store :=
  match s with
  | Build_Store xms _ xpr xac xer xsi xca =>
      Build_Store xms v xpr xac xer xsi xca
  end.
Definition set_isProcessing (v : bool) (s : Store) : Store :=
  match s with
  | Build_Store xms xav _ xac xer xsi xca =>
      Build_Store xms xav v xac xer xsi xca
  end.
Definition set_isSessionActive (v : bool) (s : Store) : Store :=
  match s with
  | Build_Store xms xav xpr _ xer xsi xca =>
      Build_Store xms xav xpr v xer xsi xca
  end.
Definition set_error (v : option message) (s : Store) : Store :=
  match s with
  | Build_Store xms xav xpr xac _ xsi xca =>
      Build_Store xms xav xpr xac v xsi xca
  end.
Definition set_sessionId (v : list Z) (s : Store) : Store :=
  match s with
  | Build_Store xms xav xpr xac xer _ xca =>
      Build_Store xms xav xpr xac xer v xca
  end.
Definition set_currentAudio (v : option nat) (s : Store) : Store :=
  match s with
  | Build_Store xms xav xpr xac xer xsi _ =>
      Build_Store xms xav xpr xac xer xsi v
  end.

(** ** Tasks: asynchronous functions as trees of interactions *)

(** What [fetch] resolves to. [json] is what [response.json()] settles
    with, [body] is [response.body]. *)
Record Fetched : Type := {
  ok : bool;
  json : result value;
  body : option Body
}.

(** How the element of [playAudioBlob] stops: the [ended] event, the
    [error] event or a rejected [play()]. *)
Inductive Stopped : Type :=
| Ended
| ErrorEvent
| PlayRejected (e : thrown).

(** Interactions with the browser, indexed by the type of the answer. The
    first group suspends the task (an [await]); [Interleave s] then stands
    for the tasks and handlers that run meanwhile: they see the store [s]
    and leave the store that is the answer. The others are synchronous.
    [Finished] is the [ended] or [error] event that [playWithMediaSource]
    waits for. *)
Inductive E : Type -> Type :=
| Fetch (url : string) (audio : option (list Z))
        (history : list (Role * value)) : E (result Fetched)
| ResponseJson (r : Fetched) : E unit
| Read (reader : Body) : E unit
| SourceOpen (mediaSource : nat) : E unit
| AppendBuffer (mediaSource : nat) (data : list Z) : E (result unit)
| Playback (audio : nat) : E Stopped
| Finished (audio : nat) : E unit
| Interleave (s : Store) : E Store
| RandomUUID : E (list Z)
| NewDate : E Z
| ConsoleError (label : string) (e : thrown) : E unit
| ConsoleWarn (label : string) (e : thrown) : E unit
| MediaSourceSupported : E bool
| NewMediaSource : E nat
| NewAudio (src : option (list Z)) : E nat
| SetSrc (audio mediaSource : nat) : E unit
| AddSourceBuffer (mediaSource : nat) : E unit
| Pause (audio : nat) : E unit
| Play (audio : nat) : E unit
| ReadyStateOpen (mediaSource : nat) : E bool
| EndOfStream (mediaSource : nat) : E unit
| AudioEnded (audio : nat) : E bool
| RevokeObjectURL : E unit.

(** A task is a tree: it returns, or performs an interaction in some store
    and continues with the answer. *)
Inductive Task (R : Type) : Type :=
| Ret (r : R)
| Vis {X : Type} (s : Store) (e : E X) (k : X -> Task R).
Arguments Ret {R} r.
Arguments Vis {R X} s e k.

Fixpoint task_bind {A B : Type} (t : Task A) (f : A -> Task B) : Task B :=
  match t with
  | Ret a => f a
  | Vis s e k => Vis s e (fun x => task_bind (k x) f)
  end.

(** A JavaScript computation over the store: it completes normally or
    throws. *)
Inductive Completion (A : Type) : Type :=
| Normal (a : A)
| Throw (e : thrown).
Arguments Normal {A} a.
Arguments Throw {A} e.

Definition M (A : Type) : Type := Store -> Task (Store * Completion A).

Definition ret {A} (a : A) : M A := fun s => Ret (s, Normal a).

Definition bind {A B} (m : M A) (f : A -> M B) : M B :=
  fun s =>
    task_bind (m s)
      (fun r =>
         match r with
         | (s', Normal a) => f a s'
         | (s', Throw e) => Ret (s', Throw e)
         end).

Definition throw {A} (e : thrown) : M A := fun s => Ret (s, Throw e).

(** [try { m } catch (err) { h err }] *)
Definition try_catch {A} (m : M A) (h : thrown -> M A) : M A :=
  fun s =>
    task_bind (m s)
      (fun r =>
         match r with
         | (s', Normal a) => Ret (s', Normal a)
         | (s', Throw e) => h e s'
         end).

(** [try { m } finally { f }] *)
Definition try_finally {A} (m : M A) (f : M unit) : M A :=
  fun s =>
    task_bind (m s)
      (fun r =>
         task_bind (f (fst r))
           (fun r' =>
              match r' with
              | (s'', Normal _) => Ret (s'', snd r)
              | (s'', Throw e) => Ret (s'', Throw e)
              end)).

Definition get_store : M Store := fun s => Ret (s, Normal s).

Definition modify (f : Store -> Store) : M unit :=
  fun s => Ret (f s, Normal tt).

(** A synchronous interaction. *)
Definition call {X} (e : E X) : M X :=
  fun s => Vis s e (fun x => Ret (s, Normal x)).

(** [await]: the interaction, then whatever ran while the task waited. *)
Definition await {X} (e : E X) : M X :=
  fun s => Vis s e (fun x => Vis s (Interleave s) (fun s' => Ret (s', Normal x))).

Declare Scope task_scope.
Delimit Scope task_scope with task.
Notation "x <- m ;; k" := (bind m (fun x => k))
  (at level 100, m at next level, right associativity) : task_scope.
Notation "m ;; k" := (bind m (fun _ => k))
  (at level 100, right associativity) : task_scope.
#[local] Open Scope task_scope.

(** ** The store *)

Definition settle (s : Store) : AvatarState :=
  if isSessionActive s then listening else idle.

(** [avatarState = isSessionActive ? 'listening' : 'idle'] *)
Definition backToListening : M unit :=
  modify (fun s => set_avatarState (settle s) s).

Definition addMessage (r : Role) (c : value) : M unit :=
  uuid <- call RandomUUID ;;
  now <- call NewDate ;;
  modify (fun s =>
    set_messages
      (messages s ++ [{| id := uuid; role := r; content := c;
                         timestamp := now |}]) s).

Definition stopSpeaking : M unit :=
  s <- get_store ;;
  match currentAudio s with
  | Some a => call (Pause a) ;; modify (set_currentAudio None)
  | None => ret tt
  end ;;
  s <- get_store ;;
  match avatarState s with
  | speaking => backToListening
  | _ => ret tt
  end.

Definition endSession : M unit :=
  modify (set_isSessionActive false) ;;
  modify (set_isProcessing false) ;;
  modify (set_avatarState idle) ;;
  stopSpeaking.

Definition reset : M unit :=
  endSession ;;
  modify (set_messages []) ;;
  modify (set_avatarState idle) ;;
  modify (set_isProcessing false) ;;
  modify (set_error None) ;;
  uuid <- call RandomUUID ;;
  modify (set_sessionId uuid).

(** ** Reading the streamed response *)

(** [reader.read()]: the next chunk, [None] at the end ([done]); a failed
    stream rejects. The reader is consumed by one task only, so it is
    passed along as a value. *)
Definition read (reader : Body) : M (option (list Z) * Body) :=
  await (Read reader) ;;
  match chunks reader with
  | c :: rest =>
      ret (Some c, {| chunks := rest; failure := failure reader |})
  | [] =>
      match failure reader with
      | Some e => throw e
      | None => ret (None, reader)
      end
  end.

(** [value.indexOf(0x0a)], [None] for -1. *)
Fixpoint indexOf (x : Z) (value : list Z) : option nat :=
  match value with
  | [] => None
  | b :: rest =>
      if b =? x then Some O
      else match indexOf x rest with
           | Some i => Some (S i)
           | None => None
           end
  end.

(** One turn of the delimiter loop on a chunk: the text chunks collected so
    far and, when the newline is in this chunk, the audio that follows it in
    the same chunk ([None] for [null]). *)
Definition split_chunk (textByteChunks : list (list Z)) (value : list Z)
  : list (list Z) * option (option (list Z)) :=
  match indexOf 10 value with
  | Some nlIndex =>
      (if (0 <? nlIndex)%nat
       then textByteChunks ++ [firstn nlIndex value]
       else textByteChunks,
       Some (if (nlIndex + 1 <? length value)%nat
             then Some (skipn (nlIndex + 1) value)
             else None))
  | None => (textByteChunks ++ [value], None)
  end.

(** Phase 1, [while (!foundDelimiter)]: read until the first newline. The
    recursion follows the chunks still to come. *)
Fixpoint readTextLine_from (rest : list (list Z)) (failure : option thrown)
    (textByteChunks : list (list Z))
  : M (list (list Z) * option (list Z) * Body) :=
  match rest with
  | [] =>
      r <- read {| chunks := []; failure := failure |} ;;
      ret (textByteChunks, None, snd r)
  | value :: rest' =>
      r <- read {| chunks := rest; failure := failure |} ;;
      match split_chunk textByteChunks value with
      | (texts, Some firstAudioChunk) => ret (texts, firstAudioChunk, snd r)
      | (texts, None) => readTextLine_from rest' failure texts
      end
  end.

Definition readTextLine (reader : Body)
  : M (list (list Z) * option (list Z) * Body) :=
  readTextLine_from (chunks reader) (failure reader) [].


(** ** Progressive audio playback *)

(** [if (currentAudio) { currentAudio.pause(); currentAudio = null; }] *)
Definition releaseCurrent : M unit :=
  s <- get_store ;;
  match currentAudio s with
  | Some a => call (Pause a) ;; modify (set_currentAudio None)
  | None => ret tt
  end.

(** [firstChunk && firstChunk.length > 0] *)
Definition nonempty (firstChunk : option (list Z)) : option (list Z) :=
  match firstChunk with
  | Some (b :: c) => Some (b :: c)
  | _ => None
  end.

(** [appendBuffer(data)] of [playWithMediaSource]: resolved by [updateend],
    rejected when [sourceBuffer.appendBuffer] throws. *)
Definition appendBuffer (mediaSource : nat) (data : list Z) : M unit :=
  r <- await (AppendBuffer mediaSource data) ;;
  match r with
  | Resolved _ => ret tt
  | Rejected e => throw e
  end.

(** [while (true) { read; if (done) break; await appendBuffer(value) }] *)
Fixpoint appendAll (mediaSource : nat) (rest : list (list Z))
    (failure : option thrown) : M unit :=
  match rest with
  | [] =>
      read {| chunks := []; failure := failure |} ;; ret tt
  | value :: rest' =>
      read {| chunks := rest; failure := failure |} ;;
      appendBuffer mediaSource value ;;
      appendAll mediaSource rest' failure
  end.

(** The promise that ends [playWithMediaSource]. *)
Definition waitForEnd : M unit :=
  s <- get_store ;;
  match currentAudio s with
  | None => call RevokeObjectURL
  | Some audio =>
      let cleanup :=
        call RevokeObjectURL ;;
        modify (fun s =>
          match currentAudio s with
          | Some a => if (a =? audio)%nat then set_currentAudio None s else s
          | None => s
          end) in
      ended <- call (AudioEnded audio) ;;
      if ended : bool then cleanup
      else await (Finished audio) ;; cleanup
  end.

Definition playWithMediaSource (reader : Body) (firstChunk : option (list Z))
  : M unit :=
  mediaSource <- call NewMediaSource ;;
  releaseCurrent ;;
  audio <- call (NewAudio None) ;;
  modify (set_currentAudio (Some audio)) ;;
  call (SetSrc audio mediaSource) ;;
  await (SourceOpen mediaSource) ;;
  call (AddSourceBuffer mediaSource) ;;
  match nonempty firstChunk with
  | Some c => appendBuffer mediaSource c
  | None => ret tt
  end ;;
  (* currentAudio.play().catch(() => {}) *)
  s <- get_store ;;
  match currentAudio s with
  | Some a => call (Play a)
  | None => throw TypeError
  end ;;
  try_catch
    (appendAll mediaSource (chunks reader) (failure reader))
    (fun e =>
       call (ConsoleWarn "MediaSource streaming error, audio may still play:" e)) ;;
  isOpen <- call (ReadyStateOpen mediaSource) ;;
  (if isOpen : bool then call (EndOfStream mediaSource) else ret tt) ;;
  waitForEnd.

(** [while (true) { read; if (done) break; audioChunks.push(value) }] *)
Fixpoint readAll (rest : list (list Z)) (failure : option thrown)
    (audioChunks : list (list Z)) : M (list (list Z)) :=
  match rest with
  | [] =>
      read {| chunks := []; failure := failure |} ;; ret audioChunks
  | value :: rest' =>
      read {| chunks := rest; failure := failure |} ;;
      readAll rest' failure (audioChunks ++ [value])
  end.

Definition playAudioBlob (audioBlob : list Z) : M unit :=
  releaseCurrent ;;
  audio <- call (NewAudio (Some audioBlob)) ;;
  modify (set_currentAudio (Some audio)) ;;
  call (Play audio) ;;
  stopped <- await (Playback audio) ;;
  match stopped with
  | Ended =>
      call RevokeObjectURL ;; modify (set_currentAudio None)
  | ErrorEvent =>
      call RevokeObjectURL ;; modify (set_currentAudio None) ;;
      throw (new_Error (Str (js "Audio playback failed")))
  | PlayRejected e => throw e
  end.

Definition playWithBlob (reader : Body) (firstChunk : option (list Z))
  : M unit :=
  let audioChunks :=
    match nonempty firstChunk with
    | Some c => [c]
    | None => []
    end in
  audioChunks <- readAll (chunks reader) (failure reader) audioChunks ;;
  match audioChunks with
  | [] => ret tt
  | _ => playAudioBlob (concat audioChunks)
  end.

Definition playStreamingAudio (reader : Body) (firstChunk : option (list Z))
  : M unit :=
  supported <- call MediaSourceSupported ;;
  if supported : bool then playWithMediaSource reader firstChunk
  else playWithBlob reader firstChunk.

(** ** Main processing *)

(** [textByteChunks.map(decode).join('') + decoder.decode()], then
    [JSON.parse]. *)
Definition parseTextLine (textByteChunks : list (list Z)) : M value :=
  match JSON_parse (decode_chunks textByteChunks) with
  | Some parsed => ret parsed
  | None => throw SyntaxError
  end.

(** [parsed.key || ''] *)
Definition field_or_empty (parsed : value) (key : string) : M value :=
  match get parsed (js key) with
  | Some v => ret (or_else v (Str []))
  | None => throw TypeError
  end.

(** [s.trim()] as a condition; a value without [trim] throws. *)
Definition trimmed_nonempty (v : value) : M bool :=
  match v with
  | Str s => ret (match trim s with [] => false | _ => true end)
  | _ => throw TypeError
  end.

(** The [try] block of [processUserAudio]. *)
Definition processAttempt (audioBlob : list Z) : M unit :=
  s <- get_store ;;
  let chatMessages := map (fun m => (role m, content m)) (messages s) in
  fetched <- await (Fetch "/api/caresma/process-audio" (Some audioBlob)
                      chatMessages) ;;
  match fetched with
  | Rejected e => throw e
  | Resolved response =>
      if negb (ok response) then
        await (ResponseJson response) ;;
        match json response with
        | Rejected e => throw e
        | Resolved data =>
            match get data (js "error") with
            | Some v =>
                throw (new_Error (or_else v (Str (js "Processing failed"))))
            | None => throw TypeError
            end
        end
      else
        match body response with
        | None => throw (new_Error (Str (js "No response body")))
        | Some reader =>
            r <- readTextLine reader ;;
            let '(textByteChunks, firstAudioChunk, reader) := r in
            parsed <- parseTextLine textByteChunks ;;
            transcript <- field_or_empty parsed "transcript" ;;
            responseText <- field_or_empty parsed "text" ;;
            spoken <- trimmed_nonempty transcript ;;
            if negb spoken then
              backToListening ;;
              modify (set_isProcessing false)
            else
              addMessage user transcript ;;
              addMessage assistant responseText ;;
              modify (set_avatarState speaking) ;;
              playStreamingAudio reader firstAudioChunk ;;
              backToListening
        end
  end.

Definition processUserAudio (audioBlob : list Z) : M unit :=
  s <- get_store ;;
  if isProcessing s then ret tt else
  modify (set_isProcessing true) ;;
  modify (set_error None) ;;
  modify (set_avatarState thinking) ;;
  try_finally
    (try_catch
       (processAttempt audioBlob)
       (fun err =>
          call (ConsoleError "Processing error:" err) ;;
          modify (set_error (Some (message_or "An error occurred" err))) ;;
          backToListening))
    (modify (set_isProcessing false)).

Definition fallbackMessage : value :=
  Str (js "How has your day been so far? I'd love to hear about it.").

(** The [try] block of [requestGreeting]. *)
Definition greetingAttempt : M unit :=
  fetched <- await (Fetch "/api/caresma/greeting" None []) ;;
  match fetched with
  | Rejected e => throw e
  | Resolved response =>
      if negb (ok response) then
        await (ResponseJson response) ;;
        (* response.json().catch(() => ({})) *)
        let data :=
          match json response with
          | Resolved d => d
          | Rejected _ => Obj []
          end in
        match get data (js "error") with
        | Some v =>
            throw (new_Error (or_else v (Str (js "Failed to get greeting"))))
        | None => throw TypeError
        end
      else
        match body response with
        | None => throw (new_Error (Str (js "No response body")))
        | Some reader =>
            r <- readTextLine reader ;;
            let '(textByteChunks, firstAudioChunk, reader) := r in
            parsed <- parseTextLine textByteChunks ;;
            responseText <- field_or_empty parsed "text" ;;
            worded <- trimmed_nonempty responseText ;;
            (if worded : bool then addMessage assistant responseText
             else ret tt) ;;
            modify (set_avatarState speaking) ;;
            playStreamingAudio reader firstAudioChunk
        end
  end.

Definition requestGreeting : M unit :=
  try_finally
    (try_catch
       greetingAttempt
       (fun err =>
          call (ConsoleError "Greeting error:" err) ;;
          modify (set_error
                    (Some (message_or "Could not start conversation" err))) ;;
          addMessage assistant fallbackMessage))
    backToListening.

(** [startSession] does not await [requestGreeting()]: it returns at the
    first suspension of the greeting. The task below is what the call sets
    going, the greeting included. *)
Definition startSession : M unit :=
  modify (set_isSessionActive true) ;;
  modify (set_avatarState thinking) ;;
  modify (set_error None) ;;
  requestGreeting.


(** ** Runs of a task *)

(** One interaction of a run: the store the task held, what it asked, the
    answer. *)
Inductive Entry : Type :=
| Ent {X : Type} (s : Store) (e : E X) (x : X).

(** [Runs t tr r]: with the answers recorded in [tr], the task performs
    exactly the interactions of [tr] and returns [r]. *)
Fixpoint Runs {R : Type} (t : Task R) (tr : list Entry) (r : R) : Prop :=
  match t with
  | Ret r' => tr = [] /\ r = r'
  | Vis s e k => exists x tr', tr = Ent s e x :: tr' /\ Runs (k x) tr' r
  end.

(** The store after the last suspension of the run, [s] when the task never
    waited. *)
Fixpoint resumed (s : Store) (tr : list Entry) : Store :=
  match tr with
  | [] => s
  | Ent _ e x :: rest =>
      resumed
        (match e in E X return X -> Store with
         | Interleave _ => fun s' => s'
         | _ => fun _ => s
         end x) rest
  end.

(** The steps the task itself made: from the store it started or resumed
    with, through the stores in which it interacted, to its last store. What
    [Interleave] brings is the environment's step and is left out. *)
Fixpoint own_steps (prev : Store) (tr : list Entry) (final : Store)
  : list (Store * Store) :=
  match tr with
  | [] => [(prev, final)]
  | Ent s e x :: rest =>
      (prev, s)
      :: own_steps
           (match e in E X return X -> Store with
            | Interleave _ => fun s' => s'
            | _ => fun _ => s
            end x) rest final
  end.

(** The store the task holds after [tr]. *)
Fixpoint last_store (prev : Store) (tr : list Entry) : Store :=
  match tr with
  | [] => prev
  | Ent s e x :: rest =>
      last_store
        (match e in E X return X -> Store with
         | Interleave _ => fun s' => s'
         | _ => fun _ => s
         end x) rest
  end.

(** The task did not touch the store during [tr]: every interaction
    happened in the store it started or resumed with. *)
Fixpoint held (s : Store) (tr : list Entry) : Prop :=
  match tr with
  | [] => True
  | Ent s' e x :: rest =>
      s' = s
      /\ held
           (match e in E X return X -> Store with
            | Interleave _ => fun s'' => s''
            | _ => fun _ => s
            end x) rest
  end.

(** Interactions of the audio player. *)
Definition is_player (en : Entry) : bool :=
  match en with
  | Ent _ e _ =>
      match e with
      | SourceOpen _ | AppendBuffer _ _ | Playback _ | Finished _
      | ConsoleWarn _ _ | MediaSourceSupported | NewMediaSource | NewAudio _
      | SetSrc _ _ | AddSourceBuffer _ | Pause _ | Play _
      | ReadyStateOpen _ | EndOfStream _ | AudioEnded _ | RevokeObjectURL =>
          true
      | _ => false
      end
  end.

(** Errors and warnings written to the console. *)
Definition is_console (en : Entry) : bool :=
  match en with
  | Ent _ e _ =>
      match e with
      | ConsoleError _ _ | ConsoleWarn _ _ => true
      | _ => false
      end
  end.

(** The answer of the first [fetch] of the run. *)
Fixpoint fetched (tr : list Entry) : option (result Fetched) :=
  match tr with
  | [] => None
  | Ent _ e x :: rest =>
      match e in E X return X -> option (result Fetched) with
      | Fetch _ _ _ => fun r => Some r
      | _ => fun _ => fetched rest
      end x
  end.

(** Bytes given to the player: appended to the source buffer, or the blob of
    a new element. *)
Fixpoint played (tr : list Entry) : list Z :=
  match tr with
  | [] => []
  | Ent _ e _ :: rest =>
      match e with
      | AppendBuffer _ data => data ++ played rest
      | NewAudio (Some blob) => blob ++ played rest
      | _ => played rest
      end
  end.

(** ** A browser to run a task against *)

(** One browser: [fetch] settles with [response], the capability probe
    answers [supported], nothing else runs while the task waits, every
    append succeeds and every element plays to its end. *)
Definition browser (response : result Fetched) (supported : bool)
    (X : Type) (e : E X) : X :=
  match e in E X return X with
  | Fetch _ _ _ => response
  | AppendBuffer _ _ => Resolved tt
  | Playback _ => Ended
  | Interleave s => s
  | RandomUUID => js "uuid"
  | NewDate => 0
  | MediaSourceSupported => supported
  | NewMediaSource => 0%nat
  | NewAudio _ => 1%nat
  | ReadyStateOpen _ => true
  | AudioEnded _ => false
  | ResponseJson _ | Read _ | SourceOpen _ | Finished _ | ConsoleError _ _
  | ConsoleWarn _ _ | SetSrc _ _ | AddSourceBuffer _ | Pause _ | Play _
  | EndOfStream _ | RevokeObjectURL => tt
  end.

(** The run of a task against the answers of [o]: its trace and result. *)
Fixpoint drive {R : Type} (o : forall X, E X -> X) (t : Task R)
  : list Entry * R :=
  match t with
  | Ret r => ([], r)
  | Vis s e k =>
      let x := o _ e in
      let '(tr, r) := drive o (k x) in
      (Ent s e x :: tr, r)
  end.

End Conversation.

(* ===================================================================== *)
(** * The JSON parser always answers                                      *)
(* ===================================================================== *)

Module JsProofs.
Import Js.

Lemma skip_space_length s : (length (skip_space s) ≤ length s)%nat.
Proof.
  induction s as [|c s IH]; cbn; [lia|].
  destruct (is_json_space c); cbn; lia.
Qed.

Lemma parse_chars_length s : ∀ acc str rest,
  parse_chars s acc = Some (str, rest) → (length rest < length s)%nat.
Proof.
  induction s as [s IH] using (well_founded_induction
                                 (well_founded_ltof _ (@length Z))).
  unfold ltof in IH. intros acc str rest H.
  destruct s as [|c s]; [discriminate|]. cbn [parse_chars] in H.
  repeat case_match; simplify_eq; cbn [length] in *;
    try lia; try (apply IH in H; cbn [length] in *; lia).
Qed.

Lemma digits_length s ds rest :
  digits s = (ds, rest) → (length s = length ds + length rest)%nat.
Proof.
  revert ds rest. induction s as [|c s IH]; intros ds rest H; cbn in H.
  - injection H as <- <-. reflexivity.
  - destruct (is_digit c).
    + destruct (digits s) as [ds' r'] eqn:Hd. injection H as <- <-.
      cbn. rewrite (IH ds' r' eq_refl). reflexivity.
    + injection H as <- <-. reflexivity.
Qed.

Lemma parse_fraction_length s fp rest :
  parse_fraction s = Some (fp, rest) → (length rest ≤ length s)%nat.
Proof.
  unfold parse_fraction. intros H.
  repeat case_match; simplify_eq; cbn [length]; try lia;
    match goal with
    | Hd : digits _ = _ |- _ => apply digits_length in Hd; cbn in Hd; lia
    end.
Qed.

Lemma parse_exponent_length s ex rest :
  parse_exponent s = Some (ex, rest) → (length rest ≤ length s)%nat.
Proof.
  unfold parse_exponent. intros H.
  repeat case_match; simplify_eq; cbn [length]; try lia;
    match goal with
    | Hd : digits _ = _ |- _ => apply digits_length in Hd; cbn in Hd; lia
    end.
Qed.

Lemma parse_number_length s v rest :
  parse_number s = Some (v, rest) → (length rest < length s)%nat.
Proof.
  unfold parse_number. intros H.
  repeat case_match; simplify_eq;
    repeat match goal with
    | Hd : digits _ = _ |- _ => apply digits_length in Hd
    | Hf : parse_fraction _ = _ |- _ => apply parse_fraction_length in Hf
    | He : parse_exponent _ = _ |- _ => apply parse_exponent_length in He
    end; cbn [length] in *; lia.
Qed.

(** What each parser guarantees: a parsed value consumed input, and the
    fuel runs out only when it is small against the input. *)
Definition consumes (slack : nat) (fuel : nat) (s : list Z) (p : parsed)
  : Prop :=
  match p with
  | Parsed _ rest => (length rest < length s)%nat
  | Malformed => True
  | Exhausted => (fuel ≤ 2 * length s + slack)%nat
  end.

Lemma parse_consumes fuel :
  (∀ s, consumes 0 fuel s (parse_value fuel s))
  ∧ (∀ s acc, consumes 0 fuel s (parse_members fuel s acc))
  ∧ (∀ s acc, consumes 1 fuel s (parse_elements fuel s acc)).
Proof.
  induction fuel as [|fuel (IHv & IHm & IHe)].
  - repeat split; intros; cbn; lia.
  - split; [|split].
    + intros s. cbn [parse_value].
      pose proof (skip_space_length s) as Hs.
      destruct (skip_space s) as [|c rest] eqn:Hss; [done|].
      cbn [length] in Hs.
      destruct (c =? 123).
      { pose proof (skip_space_length rest) as Hr.
        destruct (skip_space rest) as [|c1 rest1]; [done|].
        cbn [length] in Hr. destruct (c1 =? 125); [cbn; lia|].
        specialize (IHm rest []).
        destruct (parse_members fuel rest []); cbn in *; lia. }
      destruct (c =? 91).
      { pose proof (skip_space_length rest) as Hr.
        destruct (skip_space rest) as [|c1 rest1]; [done|].
        cbn [length] in Hr. destruct (c1 =? 93); [cbn; lia|].
        specialize (IHe rest []).
        destruct (parse_elements fuel rest []); cbn in *; lia. }
      destruct (c =? 34).
      { destruct (parse_chars rest []) as [[str rest1]|] eqn:Hc; [|done].
        apply parse_chars_length in Hc. cbn. lia. }
      destruct (starts_with (js "true") (c :: rest)) eqn:Ht.
      { cbn. rewrite length_skipn. cbn. lia. }
      destruct (starts_with (js "false") (c :: rest)) eqn:Hf.
      { cbn. rewrite length_skipn. cbn. lia. }
      destruct (starts_with (js "null") (c :: rest)) eqn:Hn.
      { cbn. rewrite length_skipn. cbn. lia. }
      destruct (parse_number (c :: rest)) as [[v rest1]|] eqn:Hnum; [|done].
      apply parse_number_length in Hnum. cbn in *. lia.
    + intros s acc. cbn [parse_members].
      pose proof (skip_space_length s) as Hs.
      destruct (skip_space s) as [|c rest] eqn:Hss; [done|].
      cbn [length] in Hs.
      destruct (c =? 34); [|done].
      destruct (parse_chars rest []) as [[k rest1]|] eqn:Hc; [|done].
      apply parse_chars_length in Hc.
      pose proof (skip_space_length rest1) as Hr1.
      destruct (skip_space rest1) as [|c2 rest2]; [done|].
      cbn [length] in Hr1.
      destruct (c2 =? 58); [|done].
      specialize (IHv rest2).
      destruct (parse_value fuel rest2) as [v rest3| |]; cbn in IHv;
        [|done|cbn; lia].
      pose proof (skip_space_length rest3) as Hr3.
      destruct (skip_space rest3) as [|c4 rest4]; [done|].
      cbn [length] in Hr3.
      destruct (c4 =? 44).
      { specialize (IHm rest4 (set_field k v acc)).
        destruct (parse_members fuel rest4 _); cbn in *; lia. }
      destruct (c4 =? 125); [cbn; lia|done].
    + intros s acc. cbn [parse_elements].
      specialize (IHv s).
      destruct (parse_value fuel s) as [v rest| |]; cbn in IHv;
        [|done|cbn; lia].
      pose proof (skip_space_length rest) as Hr.
      destruct (skip_space rest) as [|c1 rest1]; [done|].
      cbn [length] in Hr.
      destruct (c1 =? 44).
      { specialize (IHe rest1 (acc ++ [v])).
        destruct (parse_elements fuel rest1 _); cbn in *; lia. }
      destruct (c1 =? 93); [cbn; lia|done].
Qed.

(** [JSON_parse] never runs out of fuel: [None] is a syntax error. *)
Lemma parse_value_fuel text :
  parse_value (S (2 * length text)) text ≠ Exhausted.
Proof.
  intros H. pose proof (proj1 (parse_consumes (S (2 * length text))) text) as Hc.
  rewrite H in Hc. cbn in Hc. lia.
Qed.

Lemma JSON_parse_None text :
  JSON_parse text = None →
  parse_value (S (2 * length text)) text = Malformed
  ∨ ∃ v c rest, parse_value (S (2 * length text)) text = Parsed v (c :: rest)
                 ∧ skip_space (c :: rest) ≠ [].
Proof.
  unfold JSON_parse. pose proof (parse_value_fuel text) as Hf.
  destruct (parse_value _ text) as [v rest| |]; [|by left|done].
  intros H. right. destruct rest as [|c rest]; [discriminate|].
  exists v, c, rest. split; [reflexivity|].
  destruct (skip_space (c :: rest)); [discriminate|done].
Qed.

End JsProofs.

(* ===================================================================== *)
(** * Properties of the turn detector                                     *)
(* ===================================================================== *)

Module VoiceRecorderProofs.
Import VoiceRecorder.

(** Evaluates the handlers on a state given by its fields. *)
Ltac vr_eval :=
  cbn [emit fresh
    set_sessionActive set_paused set_isListening
    set_audioLevel set_hasPermission set_isSendingSilence set_stream
    set_audioContext set_analyser set_animationFrame set_mediaRecorder
    set_audioChunks set_awaitingResponse set_startingTurn
    set_silenceStart set_turnStartTime set_hasSpeechStarted
    set_recorders set_arrays set_frames set_nextId set_micPending
    set_emitted sessionActive paused isListening audioLevel
    hasPermission isSendingSilence stream audioContext analyser
    animationFrame mediaRecorder audioChunks awaitingResponse startingTurn
    silenceStart turnStartTime hasSpeechStarted recorders arrays frames
    nextId micPending emitted rec_state rec_onstop rec_stopQueued
    fst snd negb andb orb default from_option id] in *.

Ltac vr_unfold :=
  unfold effect, startTurn, startTurn_resume, acquireMic_settled,
    startTurn_record, startLevelMonitoring, updateLevel, silenceStart_unset,
    teardownSession, stopTurn, recorder_active, recorder_stop, requestFrame,
    stopLevelMonitoring, ondataavailable, onerror, onstop in *.

Ltac vr_cases :=
  repeat (first [progress vr_unfold | progress vr_eval | case_match]).

(** ** No speech, no completion (claim C2) *)

(** A state is quiet when no speech was observed in the current turn, no
    recorder holds a sending handler that captured speech, and nothing was
    handed to [onRecordingComplete] so far. *)
Definition Quiet (s : VR) : Prop :=
  hasSpeechStarted s = false
  ∧ (∀ r rc a, recorders s !! r = Some rc → rec_onstop rc ≠ OnStopSend a true)
  ∧ completions s = [].

Definition below_threshold (e : Z * Event) : Prop :=
  match snd e with
  | EvFrame dataArray =>
      Qle_bool SILENCE_THRESHOLD (audio_level dataArray) = false
  | _ => True
  end.

Lemma completions_emit o s :
  completions (emit o s)
  = completions s
    ++ match o with RecordingComplete b => [b] | _ => [] end.
Proof.
  destruct s. unfold completions. vr_eval.
  rewrite omap_app. destruct o; reflexivity.
Qed.

Lemma completions_emitted s s' :
  emitted s' = emitted s → completions s' = completions s.
Proof. unfold completions. congruence. Qed.

Lemma Quiet_init : Quiet init.
Proof.
  repeat split; try reflexivity.
  intros r rc a H. cbn in H. rewrite lookup_empty in H. discriminate.
Qed.

(** [Quiet] reads three fields only. *)
Lemma Quiet_fields s s' :
  hasSpeechStarted s' = false →
  recorders s' = recorders s ∨
    (∃ r h q st, (∀ a, h ≠ OnStopSend a true) ∧
       recorders s' = <[ r := {| rec_state := st; rec_onstop := h;
                                 rec_stopQueued := q |} ]> (recorders s)) →
  completions s' = completions s →
  Quiet s → Quiet s'.
Proof.
  intros Hs Hr Hc (_ & Hq & Hc0). split; [exact Hs|]. split; [|congruence].
  destruct Hr as [->|(r & h & q & st & Hh & ->)]; [exact Hq|].
  intros r' rc a. rewrite lookup_insert. case_decide; [|apply Hq].
  intros [= <-]. apply Hh.
Qed.

Ltac quiet_fields Hq :=
  eapply Quiet_fields;
  [ | | | exact Hq ];
  [ try reflexivity; try (apply Hq)
  | first [ left; reflexivity
          | right; do 4 eexists; split; [|reflexivity]; congruence ]
  | try reflexivity ].

Lemma Quiet_stopTurn b s : Quiet s → Quiet (stopTurn b s).
Proof.
  intros Hq. pose proof Hq as (Hs & _ & _).
  destruct s. vr_cases; subst; quiet_fields Hq.
Qed.

Lemma Quiet_teardownSession s : Quiet s → Quiet (teardownSession s).
Proof.
  intros Hq. destruct s. vr_cases; subst; quiet_fields Hq;
    unfold completions; vr_eval; rewrite ?omap_app, ?app_nil_r; reflexivity.
Qed.

Lemma Quiet_updateLevel now d s :
  Qle_bool SILENCE_THRESHOLD (audio_level d) = false →
  Quiet s → Quiet (updateLevel now d s).
Proof.
  intros Hd Hq. pose proof Hq as (Hs & _ & _).
  destruct s. vr_eval. subst. vr_cases; try congruence; quiet_fields Hq.
Qed.

Lemma Quiet_startTurn_record now s : Quiet s → Quiet (startTurn_record now s).
Proof. intros Hq. destruct s. vr_cases; quiet_fields Hq. Qed.

Lemma Quiet_startTurn now s : Quiet s → Quiet (startTurn now s).
Proof. intros Hq. destruct s. vr_cases; quiet_fields Hq. Qed.

Lemma Quiet_startTurn_resume now o s :
  Quiet s → Quiet (startTurn_resume now o s).
Proof.
  intros Hq. destruct s, o; vr_cases; quiet_fields Hq;
    unfold completions; vr_eval; rewrite ?omap_app, ?app_nil_r; reflexivity.
Qed.

Lemma Quiet_effect now s : Quiet s → Quiet (effect now s).
Proof.
  intros Hq. unfold effect.
  destruct (sessionActive s && negb (paused s)).
  - case_match; [apply Quiet_startTurn|]; exact Hq.
  - destruct (sessionActive s && paused s).
    + assert (Hq' : Quiet (set_awaitingResponse false s))
        by (destruct s; quiet_fields Hq).
      case_match; [apply Quiet_stopTurn|]; exact Hq'.
    + apply Quiet_teardownSession, Hq.
Qed.

Lemma Quiet_ondataavailable b s : Quiet s → Quiet (ondataavailable b s).
Proof. intros Hq. destruct s. vr_cases; quiet_fields Hq. Qed.

Lemma Quiet_onerror s : Quiet s → Quiet (onerror s).
Proof.
  intros Hq. destruct s. vr_cases; quiet_fields Hq.
  unfold completions; vr_eval; rewrite ?omap_app, ?app_nil_r; reflexivity.
Qed.

Lemma Quiet_onstop h s :
  Quiet s → (∀ a, h ≠ OnStopSend a true) → Quiet (onstop h s).
Proof.
  intros Hq Hh. destruct h as [| |a [|]]; try exact Hq.
  - exfalso. eapply Hh. reflexivity.
  - unfold onstop. rewrite andb_false_r. exact Hq.
Qed.

Lemma Quiet_run_frame now d s :
  Qle_bool SILENCE_THRESHOLD (audio_level d) = false →
  Quiet s → Quiet (run_frame now d s).
Proof.
  intros Hd. unfold run_frame. generalize (frames s) as batch.
  intros batch. revert s. induction batch as [|id batch IH]; intros s Hq.
  - exact Hq.
  - cbn [fold_left]. apply IH. case_bool_decide; [|exact Hq].
    apply Quiet_updateLevel; [exact Hd|].
    destruct s; quiet_fields Hq.
Qed.

Lemma Quiet_step s e : below_threshold e → Quiet s → Quiet (step s e).
Proof.
  destruct e as [now ev]. unfold below_threshold. cbn [snd].
  intros He Hq. unfold step. destruct ev.
  - apply Quiet_effect. destruct s; quiet_fields Hq.
  - apply Quiet_run_frame; assumption.
  - case_match; [apply Quiet_ondataavailable|]; exact Hq.
  - destruct (recorders s !! r) as [rc|] eqn:Hrc; [|exact Hq].
    destruct (rec_stopQueued rc); [|exact Hq].
    pose proof Hq as (Hs & Hr & _).
    apply Quiet_onstop; [|intros a; eapply Hr; exact Hrc].
    destruct s; eapply Quiet_fields; [ | | |exact Hq];
      [exact Hs| |reflexivity].
    right. do 4 eexists. split; [|reflexivity].
    intros a. eapply Hr. exact Hrc.
  - case_match; [apply Quiet_onerror|]; exact Hq.
  - destruct (micPending s); [exact Hq|].
    apply Quiet_startTurn_resume. destruct s; quiet_fields Hq.
  - apply Quiet_teardownSession, Hq.
Qed.

Lemma Quiet_run tr : ∀ s, Forall below_threshold tr → Quiet s → Quiet (run s tr).
Proof.
  induction tr as [|e tr IH]; intros s Htr Hq; [exact Hq|].
  inversion Htr; subst. cbn. apply IH; [assumption|].
  apply Quiet_step; assumption.
Qed.

(** C2. Whatever the component is told (props, frames, recorder events,
    microphone outcomes, destruction), and however long it runs: when no
    loudness sample reaches [SILENCE_THRESHOLD], [onRecordingComplete] is
    never called, so no audio reaches the backend (the page sends audio only
    from that callback). *)
Theorem silence_never_completes (tr : list (Z * Event)) :
  Forall below_threshold tr →
  completions (run init tr) = [].
Proof.
  intros Htr. apply (Quiet_run tr init Htr Quiet_init).
Qed.

(** ** Starting twice (claim C6) *)

Lemma startTurn_guard now s :
  isListening s || startingTurn s = true → startTurn now s = s.
Proof. intros H. unfold startTurn. rewrite H. reflexivity. Qed.

Lemma startTurn_sets_guard now s :
  isListening (startTurn now s) || startingTurn (startTurn now s) = true.
Proof.
  destruct s. unfold startTurn. vr_eval.
  destruct (isListening0 || startingTurn0) eqn:Hg; [exact Hg|].
  vr_cases; rewrite ?orb_true_r; reflexivity.
Qed.

Lemma recorders_startTurn now s :
  recorders (startTurn now s) = recorders s
  ∨ ∃ r rc, recorders (startTurn now s) = <[ r := rc ]> (recorders s).
Proof.
  destruct s. vr_cases; first [by left | right; eexists _, _; reflexivity].
Qed.

Lemma frames_startTurn now s :
  frames (startTurn now s) = frames s
  ∨ ∃ f, frames (startTurn now s) = frames s ++ [f].
Proof.
  destruct s. vr_cases; first [by left | right; eexists; reflexivity].
Qed.

Lemma props_startTurn now s :
  sessionActive (startTurn now s) = sessionActive s
  ∧ paused (startTurn now s) = paused s
  ∧ awaitingResponse (startTurn now s) = awaitingResponse s.
Proof. destruct s. vr_cases; done. Qed.

Lemma set_props_id s :
  set_paused (paused s) (set_sessionActive (sessionActive s) s) = s.
Proof. destruct s; reflexivity. Qed.

Definition may_start (s : VR) : bool :=
  negb (isListening s) && negb (awaitingResponse s) && negb (startingTurn s).

Lemma effect_active now s :
  sessionActive s = true → paused s = false →
  effect now s = if may_start s then startTurn now s else s.
Proof. intros Ha Hp. unfold effect. rewrite Ha, Hp. reflexivity. Qed.

Lemma effect_twice now now' s :
  step (step s (now, EvProps true false)) (now', EvProps true false)
  = step s (now, EvProps true false).
Proof.
  cbn [step].
  set (s0 := set_paused false (set_sessionActive true s)).
  assert (Hp : sessionActive s0 = true ∧ paused s0 = false)
    by (destruct s; done).
  clearbody s0. destruct Hp as [Ha Hp].
  set (s1 := effect now s0).
  assert (H1 : sessionActive s1 = true ∧ paused s1 = false
               ∧ may_start s1 = false).
  { subst s1. rewrite (effect_active now s0 Ha Hp).
    destruct (may_start s0) eqn:Hg; [|done].
    destruct (props_startTurn now s0) as (-> & -> & _).
    repeat split; try assumption.
    pose proof (startTurn_sets_guard now s0) as Hs. unfold may_start.
    destruct (isListening (startTurn now s0)),
      (startingTurn (startTurn now s0)); try discriminate;
      cbn [negb andb]; rewrite ?andb_false_r; reflexivity. }
  destruct H1 as (Ha' & Hp' & Hg').
  rewrite <- Ha' at 1. rewrite <- Hp' at 1. rewrite set_props_id.
  rewrite (effect_active now' s1 Ha' Hp'), Hg'. reflexivity.
Qed.

(** The guard, where it holds. A second [startTurn], called right after a
    first one or while [isListening] or [startingTurn] is set, does nothing:
    the state is the one the first call left, so at most one MediaRecorder,
    one pending [updateLevel] frame and one pending microphone request were
    added. The same holds one level up, when the effect runs twice with the
    session active and not paused. [startingTurn] does not stay set for as
    long as a turn is starting, though: see [double_start]. *)
Theorem startTurn_idempotent (now now' : Z) (s : VR) :
  (isListening s || startingTurn s = true → startTurn now' s = s)
  ∧ startTurn now' (startTurn now s) = startTurn now s
  ∧ (size (recorders (startTurn now' (startTurn now s)))
       ≤ S (size (recorders s)))%nat
  ∧ (length (frames (startTurn now' (startTurn now s)))
       ≤ S (length (frames s)))%nat
  ∧ step (step s (now, EvProps true false)) (now', EvProps true false)
    = step s (now, EvProps true false).
Proof.
  assert (H2 : startTurn now' (startTurn now s) = startTurn now s)
    by apply startTurn_guard, startTurn_sets_guard.
  split; [apply startTurn_guard|]. split; [exact H2|]. rewrite H2.
  split; [|split; [|apply effect_twice]].
  - destruct (recorders_startTurn now s) as [->|(r & rc & ->)]; [lia|].
    destruct (recorders s !! r) eqn:Hr.
    + rewrite map_size_insert_Some; [lia|eauto].
    + rewrite map_size_insert_None; [lia|assumption].
  - destruct (frames_startTurn now s) as [->|(f & ->)]; [lia|].
    rewrite length_app. cbn. lia.
Qed.

(** ** Speech, then sustained silence (claim C3) *)

(** Chunks that [ondataavailable] keeps (empty blobs are dropped). *)
Definition pushed (tr : list (Z * Event)) : list Blob :=
  flat_map
    (λ e, match snd e with
          | EvData _ data => if 0 <? Z.of_nat (length data) then [data] else []
          | _ => []
          end) tr.

Lemma pushed_cons e tr : pushed (e :: tr) = pushed [e] ++ pushed tr.
Proof. unfold pushed. cbn. rewrite app_nil_r. reflexivity. Qed.


(** Clock readings never go back. *)
Fixpoint ordered (t : Z) (tr : list (Z * Event)) : Prop :=
  match tr with
  | [] => True
  | e :: tr' => t ≤ fst e ∧ ordered (fst e) tr'
  end.

(** Clock reading of the last event of [tr], [t] when there is none. *)
Fixpoint end_time (t : Z) (tr : list (Z * Event)) : Z :=
  match tr with
  | [] => t
  | e :: tr' => end_time (fst e) tr'
  end.

Lemma ordered_app t tr1 tr2 :
  ordered t (tr1 ++ tr2) →
  ordered t tr1 ∧ ordered (end_time t tr1) tr2.
Proof.
  revert t. induction tr1 as [|e tr1 IH]; intros t H; cbn in *; [done|].
  destruct H as [Hle H]. apply IH in H as [H1 H2]. done.
Qed.

Lemma ordered_weaken t t' tr : t' ≤ t → ordered t tr → ordered t' tr.
Proof. destruct tr; cbn; [done|]. intros ? [? ?]. split; [lia|done]. Qed.


Section Turn.

(** The recorder [r] and the chunk array [a] of the turn, its start time,
    and what had been completed before it. *)
Variables (r a : nat) (T0 : Z) (out0 : list Blob).
Hypothesis T0_nonneg : 0 ≤ T0.

(** Events of the turn itself: animation frames, and data or stop events
    of its recorder. *)
Definition turn_event (e : Z * Event) : Prop :=
  match snd e with
  | EvFrame _ => True
  | EvData r' _ => r' = r
  | EvStop r' => r' = r
  | _ => False
  end.

Definition vad_event (e : Z * Event) : Prop :=
  match snd e with
  | EvFrame _ => True
  | EvData r' _ => r' = r
  | _ => False
  end.

(** The turn is listening: one recorder, one monitoring loop. [t] bounds
    the clock readings seen so far, [cs] is the content of the array. *)
Definition Listening (t : Z) (cs : list Blob) (s : VR) : Prop :=
  isListening s = true
  ∧ mediaRecorder s = Some r
  ∧ recorders s !! r = Some {| rec_state := Recording;
                               rec_onstop := OnStopUnset;
                               rec_stopQueued := false |}
  ∧ audioChunks s = a
  ∧ is_Some (analyser s)
  ∧ (∃ f, frames s = [f])
  ∧ turnStartTime s = T0
  ∧ arrays s !! a = Some cs
  ∧ completions s = out0
  ∧ (∀ x, silenceStart s = Some x → 0 < x ≤ t).

(** Silence was declared: [stopTurn(true)] ran and the stop event of the
    recorder is pending. *)
Definition Declared (cs : list Blob) (s : VR) : Prop :=
  isListening s = false
  ∧ frames s = []
  ∧ recorders s !! r = Some {| rec_state := Inactive;
                               rec_onstop := OnStopSend a true;
                               rec_stopQueued := true |}
  ∧ audioChunks s = a
  ∧ arrays s !! a = Some cs
  ∧ completions s = out0.


(** A fresh turn, as [startTurn] leaves it. *)
Definition FreshTurn (s : VR) : Prop :=
  Listening T0 [] s ∧ hasSpeechStarted s = false ∧ silenceStart s = None.

Lemma step_data_Listening t t' cs s data :
  t ≤ t' → Listening t cs s →
  Listening t' (cs ++ pushed [(t', EvData r data)]) (step s (t', EvData r data))
  ∧ hasSpeechStarted (step s (t', EvData r data)) = hasSpeechStarted s
  ∧ silenceStart (step s (t', EvData r data)) = silenceStart s.
Proof.
  intros Ht (H1 & H2 & H3 & H4 & H5 & H6 & H7 & H8 & H9 & H10).
  cbn [step pushed flat_map snd]. rewrite H3.
  destruct s. unfold Listening in *. vr_unfold. vr_eval. subst.
  destruct (0 <? Z.of_nat (length data)); vr_eval.
  - rewrite lookup_alter_eq, H8. cbn. rewrite ?app_nil_r.
    repeat split; auto. all: apply H10 in H; lia.
  - cbn. rewrite ?app_nil_r. repeat split; auto. all: apply H10 in H; lia.
Qed.


(** What one frame does to the two detector variables: [None] when it
    declares silence, the new [(hasSpeechStarted, silenceStart)]
    otherwise. Read off [updateLevel]. *)
Definition vad (hs : bool) (ss : option Z) (now : Z) (d : list Z)
  : option (bool * option Z) :=
  let loud := Qle_bool SILENCE_THRESHOLD (audio_level d) in
  let hs1 := if loud then true else hs in
  let ss1 := if loud then None else ss in
  if hs1 && (now - T0 >? WARMUP_PERIOD) && (now - T0 >? MIN_RECORDING_MS)
  then
    if Qlt_bool (audio_level d) SILENCE_THRESHOLD then
      match ss1 with
      | None => Some (hs1, Some now)
      | Some x =>
          if x =? 0 then Some (hs1, Some now)
          else if now - x >? SILENCE_TIMEOUT then None
          else Some (hs1, ss1)
      end
    else Some (hs1, ss1)
  else Some (hs1, ss1).

Lemma filter_ne_singleton (f : nat) : filter (λ i : nat, i ≠ f) [f] = [].
Proof.
  rewrite filter_cons, filter_nil. destruct (decide (f ≠ f)); congruence.
Qed.

Lemma step_frame_Listening t t' cs s d :
  t ≤ t' → Listening t cs s →
  match vad (hasSpeechStarted s) (silenceStart s) t' d with
  | Some (hs', ss') =>
      Listening t' cs (step s (t', EvFrame d))
      ∧ hasSpeechStarted (step s (t', EvFrame d)) = hs'
      ∧ silenceStart (step s (t', EvFrame d)) = ss'
  | None => Declared cs (step s (t', EvFrame d))
  end.
Proof.
  intros Ht (H1 & H2 & H3 & H4 & H5 & (f & H6) & H7 & H8 & H9 & H10).
  destruct H5 as [an H5].
  cbn [step]. unfold run_frame. rewrite H6. cbn [fold_left].
  rewrite bool_decide_true by (rewrite H6; apply list_elem_of_here).
  rewrite H6, filter_ne_singleton.
  destruct s. unfold Listening, Declared, vad in *.
  vr_unfold. unfold Qlt_bool in *. vr_eval. subst.
  destruct (Qle_bool SILENCE_THRESHOLD (audio_level d)) eqn:Hloud; vr_eval.
  - (* speech *)
    destruct ((t' - T0 >? WARMUP_PERIOD)
              && (t' - T0 >? MIN_RECORDING_MS));
      vr_eval; rewrite ?Hloud; vr_eval; repeat split; eauto; discriminate.
  - (* below the threshold *)
    destruct (hasSpeechStarted0 && (t' - T0 >? WARMUP_PERIOD)
              && (t' - T0 >? MIN_RECORDING_MS)) eqn:Hguard;
      vr_eval.
    2:{ repeat split; eauto. all: apply H10 in H; lia. }
    apply andb_prop in Hguard as [Hguard Hmin].
    apply andb_prop in Hguard as [Hhs Hwarm].
    apply Z.gtb_lt in Hwarm. unfold WARMUP_PERIOD in Hwarm.
    subst hasSpeechStarted0. rewrite ?Hloud. vr_eval.
    destruct silenceStart0 as [x|]; vr_eval.
    2:{ repeat split; eauto. all: injection H as <-; lia. }
    pose proof (H10 x eq_refl) as Hx.
    replace (x =? 0) with false by (symmetry; apply Z.eqb_neq; lia).
    vr_eval.
    destruct (t' - x >? SILENCE_TIMEOUT) eqn:Hto; vr_eval.
    + (* declared *)
      destruct animationFrame0 as [[|n]|]; vr_eval; rewrite H3; vr_eval;
        rewrite ?filter_nil; repeat split; auto; apply lookup_insert_eq.
    + destruct (2 * (t' - x) >? SILENCE_TIMEOUT); vr_eval;
        repeat split; eauto. all: injection H as <-; lia.
Qed.


Lemma step_Declared cs s e :
  vad_event e → Declared cs s → Declared (cs ++ pushed [e]) (step s e).
Proof.
  destruct e as [t [| d | r' data | | | |]]; cbn; try done;
    intros He (H1 & H2 & H3 & H4 & H5 & H6).
  - unfold run_frame. rewrite H2, app_nil_r. cbn. done.
  - subst r'. rewrite H3.
    destruct s. unfold Declared in *. vr_unfold. vr_eval. subst.
    destruct (0 <? Z.of_nat (length data)); vr_eval.
    + rewrite lookup_alter_eq, H5. cbn. rewrite ?app_nil_r. done.
    + cbn. rewrite ?app_nil_r. done.
Qed.



Lemma run_Declared tr : ∀ cs s,
  Forall vad_event tr → Declared cs s →
  Declared (cs ++ pushed tr) (run s tr).
Proof.
  induction tr as [|e tr IH]; intros cs s Hv Hd.
  - cbn. rewrite app_nil_r. exact Hd.
  - inversion Hv; subst. cbn [run fold_left].
    rewrite (pushed_cons e tr).
    rewrite app_assoc. apply IH; [assumption|].
    apply step_Declared; assumption.
Qed.











Lemma run_app s tr1 tr2 : run s (tr1 ++ tr2) = run (run s tr1) tr2.
Proof. apply fold_left_app. Qed.





End Turn.

(** A session whose first turn just started: the effect ran with the session
    active, then the microphone was granted at clock 1005. The recorder of
    the turn is object 5, its chunk array object 4. *)
Definition started : VR :=
  run init [(1000, EvProps true false); (1005, EvMic MicGranted)].

Definition loud : list Z := repeat 255 128.
Definition hush : list Z := repeat 0 128.

Lemma started_fresh : FreshTurn 5 4 1005 [] started.
Proof.
  split; [|split; reflexivity].
  repeat split; try reflexivity.
  - eexists. reflexivity.
  - eexists. reflexivity.
  - discriminate.
  - discriminate.
Qed.



Lemma silence_never_completes_witness :
  completions
    (run init [(1000, EvProps true false); (1005, EvMic MicGranted);
               (1100, EvFrame hush); (1200, EvData 5%nat [1; 2]);
               (2600, EvFrame hush); (4700, EvFrame hush);
               (4800, EvProps true true); (4801, EvStop 5%nat)]) = [].
Proof.
  apply silence_never_completes. repeat constructor.
Defined.

Lemma startTurn_idempotent_witness :
  isListening started || startingTurn started = true
  ∧ startTurn 2000 started = started.
Proof.
  split; [reflexivity|].
  apply (proj1 (startTurn_idempotent 1500 2000 started)). reflexivity.
Defined.

(** The session is started, ended and started again while the browser still
    asks for the microphone, and then the microphone is granted: both
    requests settle. *)
Definition double_start : list (Z * Event) :=
  [(1000, EvProps true false); (1001, EvProps false false);
   (1002, EvProps true false); (1005, EvMic MicGranted);
   (1006, EvMic MicGranted)].

(** C6, at the failing input. The first [startTurn] is parked on
    [getUserMedia] when [teardownSession] clears [startingTurn]; the guard
    of the second [startTurn] then passes although a turn is starting, and
    a second request is parked. After the grant both calls resume, and
    neither looks at [isListening] again: two recorders record (objects 5
    and 11) and two [updateLevel] callbacks are pending (6 and 12), where
    the claim allows one of each. *)
Theorem double_start_records_twice :
  micPending (run init (firstn 2 double_start)) = 1%nat
  ∧ startingTurn (run init (firstn 2 double_start)) = false
  ∧ micPending (run init (firstn 3 double_start)) = 2%nat
  ∧ rec_state <$> recorders (run init double_start) !! 5%nat = Some Recording
  ∧ rec_state <$> recorders (run init double_start) !! 11%nat
    = Some Recording
  ∧ size (recorders (run init double_start)) = 2%nat
  ∧ frames (run init double_start) = [6; 12]%nat
  ∧ mediaRecorder (run init double_start) = Some 11%nat
  ∧ stream (run init double_start) = Some 7%nat.
Proof. vm_compute. repeat split. Qed.

End VoiceRecorderProofs.

(* ===================================================================== *)
(** * Properties of the routes                                            *)
(* ===================================================================== *)

Module ApiProofs.
Import Js Api.

(** ** Error replies (claim C8) *)

(** Whatever the [catch] blocks send has the documented shape. *)
Lemma caught_is_error_reply fallback e :
  is_error_reply (caught fallback e) = true.
Proof. reflexivity. Qed.

(** [/greeting] answers with a stream or with a documented error reply. *)
Lemma greeting_replies ai :
  (∃ b, greeting ai = StreamResponse b) ∨ is_error_reply (greeting ai) = true.
Proof.
  unfold greeting. destruct (g_completion ai) as [content|e]; [|by right].
  destruct (g_speech ai) as [ttsBody|e]; [|by right]. left. eauto.
Qed.

(** The handler of [/analyze] answers with an analysis or with a
    documented error reply; a request that does not pass the validator is
    answered before the handler. *)
Lemma analyze_replies ai :
  (∃ a, analyze ai = JsonResponse (AnalysisJson a true) 200)
  ∨ is_error_reply (analyze ai) = true
  ∨ a_validation ai ≠ Accepted.
Proof.
  unfold analyze. destruct (a_validation ai); [|by right; right..].
  destruct (a_completion ai) as [content|e]; [|by right; left].
  destruct (JSON_parse _) as [a|]; [left; eauto|by right; left].
Qed.

(** [/process-audio] answers with a stream, with a documented error reply,
    or, to a form without audio, with the reply that has no [success]. *)
Lemma process_audio_replies ai :
  (∃ b, process_audio ai = StreamResponse b)
  ∨ is_error_reply (process_audio ai) = true
  ∨ ((∃ formData, p_formData ai = Resolved formData
                  ∧ entry_falsy (audio formData) = true)
     ∧ process_audio ai
       = JsonResponse (ErrorJson (Text (js "No audio file provided")) None)
           400).
Proof.
  unfold process_audio.
  destruct (p_formData ai) as [formData|e]; [|by right; left].
  destruct (entry_falsy (audio formData)) eqn:Haudio.
  { right; right. split; [eauto|reflexivity]. }
  destruct (previousMessages _) as [previous|]; [|by right; left].
  destruct (p_transcription ai) as [transcript|e]; [|by right; left].
  destruct (trim transcript); [left; eauto|].
  destruct (map_messages previous); [|by right; left].
  destruct (p_completion ai) as [[deltas [e|]]|e]; [by right; left| |by right; left].
  destruct (p_speech ai) as [ttsBody|e]; [|by right; left]. left. eauto.
Qed.

(** A form without the [audio] field; the OpenAI client is never called. *)
Definition missing_audio : ProcessCalls :=
  {| p_formData := Resolved {| audio := Absent; messages := Field (js "[]") |};
     p_transcription := Rejected TypeError;
     p_completion := Rejected TypeError;
     p_speech := Rejected TypeError;
     p_taken := 0 |}.

(** C8, at the request without audio: the reply is status 400 with the
    object [{ error: 'No audio file provided' }], which has no [success]
    field, so it is not of the shape [{ error, success: false }] that the
    [catch] blocks of the three routes send. *)
Theorem missing_audio_reply :
  process_audio missing_audio
  = JsonResponse (ErrorJson (Text (js "No audio file provided")) None) 400
  ∧ is_error_reply (process_audio missing_audio) = false
  ∧ (∀ e, is_error_reply (caught "Processing failed" e) = true).
Proof. split; [reflexivity|]. split; [reflexivity|]. reflexivity. Qed.

(** ** The analysis (claim C9) *)

(** A completion without content. *)
Definition no_content : AnalyzeCalls :=
  {| a_validation := Accepted; a_completion := Resolved None |}.

(** The claim as stated fails: a completion without content is answered
    with [success: true] and the empty object as analysis. *)
Lemma empty_analysis_counterexample :
  analyze no_content = JsonResponse (AnalysisJson (Obj []) true) 200
  ∧ is_report (Obj []) = false
  ∧ is_severity (assoc (js "overallSeverity") []) = false
  ∧ integer_1_to_10 (assoc (js "score") []) = false.
Proof. vm_compute. repeat split. Qed.

(** C9, amended. A successful [/analyze] reply has status 200 and carries
    exactly what [JSON.parse] makes of the content of the completion, or of
    [{}] when the content is empty or missing: the route checks nothing, so
    the analysis has the documented shape if and only if the parsed
    completion has it. *)
Theorem analysis_is_parsed_completion ai analysis success status :
  analyze ai = JsonResponse (AnalysisJson analysis success) status →
  success = true ∧ status = 200
  ∧ ∃ content,
      a_completion ai = Resolved content
      ∧ JSON_parse (analysisText content) = Some analysis
      ∧ ∀ parsed, JSON_parse (analysisText content) = Some parsed →
          is_report analysis = is_report parsed.
Proof.
  unfold analyze, onError. destruct (a_validation ai); [|discriminate..].
  destruct (a_completion ai) as [content|e]; [|discriminate].
  destruct (JSON_parse (analysisText content)) as [a|] eqn:Hparse;
    [|discriminate].
  intros [= -> <- <-]. split; [reflexivity|]. split; [reflexivity|].
  exists content. split; [reflexivity|]. split; [exact Hparse|].
  intros parsed Hp. rewrite Hparse in Hp. injection Hp as ->. reflexivity.
Qed.

(** A completion that follows the prompt. *)
Definition key (k : string) : list Z := quote (js k) ++ [58].

Definition domain_text (score : string) : list Z :=
  js "{" ++ key "score" ++ js score ++ js ","
  ++ key "observations" ++ js "[]," ++ key "concerns" ++ js "[]}".

Definition report_text : list Z :=
  js "{" ++ key "memory" ++ domain_text "7" ++ js ","
  ++ key "language" ++ domain_text "9" ++ js ","
  ++ key "attention" ++ domain_text "8" ++ js ","
  ++ key "orientation" ++ domain_text "10" ++ js ","
  ++ key "executiveFunction" ++ domain_text "1" ++ js ","
  ++ key "overallSeverity" ++ quote (js "mild") ++ js ","
  ++ key "summary" ++ quote (js "You were at ease.") ++ js ","
  ++ key "recommendations" ++ js "[" ++ quote (js "Keep a diary.") ++ js "]}".

Definition report : value :=
  Eval vm_compute in
    match JSON_parse report_text with Some v => v | None => Null end.

Definition prompt_followed : AnalyzeCalls :=
  {| a_validation := Accepted; a_completion := Resolved (Some report_text) |}.

Lemma analysis_is_parsed_completion_witness :
  true = true ∧ 200 = 200
  ∧ ∃ content,
      a_completion prompt_followed = Resolved content
      ∧ JSON_parse (analysisText content) = Some report
      ∧ ∀ parsed, JSON_parse (analysisText content) = Some parsed →
          is_report report = is_report parsed.
Proof.
  apply (analysis_is_parsed_completion prompt_followed report true 200).
  vm_compute. reflexivity.
Defined.

(** That analysis has the documented shape; one whose score is 11, or not
    whole, is passed on all the same. *)
Lemma report_has_shape : is_report report = true.
Proof. vm_compute. reflexivity. Qed.

Lemma out_of_range_score_passes :
  analyze {| a_validation := Accepted;
             a_completion := Resolved (Some (domain_text "11")) |}
  = JsonResponse
      (AnalysisJson
         (Obj [(js "score", Num 11 0); (js "observations", Arr []);
               (js "concerns", Arr [])]) true) 200.
Proof. vm_compute. reflexivity. Qed.

End ApiProofs.

(* ===================================================================== *)
(** * Properties of the conversation store                                *)
(* ===================================================================== *)

Module ConversationProofs.
Import Js Conversation.
#[local] Open Scope task_scope.
#[local] Arguments js : simpl never.
#[local] Set Warnings "-clear-no-such-hyp".

(** ** Runs of composed tasks *)

Lemma Runs_task_bind {A B} (t : Task A) (f : A -> Task B) tr r :
  Runs (task_bind t f) tr r ↔
  ∃ tr1 a tr2, Runs t tr1 a ∧ Runs (f a) tr2 r ∧ tr = tr1 ++ tr2.
Proof.
  revert tr. induction t as [a|X s e k IH]; intros tr; cbn.
  - split.
    + intros H. exists [], a, tr. cbn. auto.
    + intros (tr1 & a' & tr2 & [-> ->] & H & ->). exact H.
  - split.
    + intros (x & tr' & -> & H). apply IH in H as (tr1 & a & tr2 & H1 & H2 & ->).
      exists (Ent s e x :: tr1), a, tr2. split; [|done].
      exists x, tr1. done.
    + intros (tr1 & a & tr2 & (x & tr' & -> & H1) & H2 & ->).
      exists x, (tr' ++ tr2). split; [done|].
      apply IH. exists tr', a, tr2. done.
Qed.

(** A run of [m ;; f]: a run of [m], then, unless it threw, one of [f]. *)
Lemma Runs_bind {A B} (m : M A) (f : A -> M B) s tr sf out :
  Runs (bind m f s) tr (sf, out) ↔
  ∃ tr1 s1 c, Runs (m s) tr1 (s1, c) ∧
    match c with
    | Normal a => ∃ tr2, Runs (f a s1) tr2 (sf, out) ∧ tr = tr1 ++ tr2
    | Throw e => tr = tr1 ∧ sf = s1 ∧ out = Throw e
    end.
Proof.
  unfold bind. rewrite Runs_task_bind. split.
  - intros (tr1 & [s1 [a|e]] & tr2 & H1 & H2 & ->); exists tr1, s1.
    + exists (Normal a). split; [done|]. exists tr2. done.
    + exists (Throw e). split; [done|]. cbn in H2. destruct H2 as [-> [= -> ->]].
      rewrite app_nil_r. done.
  - intros (tr1 & s1 & [a|e] & H1 & H2).
    + destruct H2 as (tr2 & H2 & ->). exists tr1, (s1, Normal a), tr2. done.
    + destruct H2 as (-> & -> & ->). exists tr1, (s1, Throw e), [].
      rewrite app_nil_r. cbn. done.
Qed.

Lemma Runs_try_catch {A} (m : M A) (h : thrown -> M A) s tr sf out :
  Runs (try_catch m h s) tr (sf, out) ↔
  ∃ tr1 s1 c, Runs (m s) tr1 (s1, c) ∧
    match c with
    | Normal a => tr = tr1 ∧ sf = s1 ∧ out = Normal a
    | Throw e => ∃ tr2, Runs (h e s1) tr2 (sf, out) ∧ tr = tr1 ++ tr2
    end.
Proof.
  unfold try_catch. rewrite Runs_task_bind. split.
  - intros (tr1 & [s1 [a|e]] & tr2 & H1 & H2 & ->); exists tr1, s1.
    + exists (Normal a). split; [done|]. cbn in H2. destruct H2 as [-> [= -> ->]].
      rewrite app_nil_r. done.
    + exists (Throw e). split; [done|]. exists tr2. done.
  - intros (tr1 & s1 & [a|e] & H1 & H2).
    + destruct H2 as (-> & -> & ->). exists tr1, (s1, Normal a), [].
      rewrite app_nil_r. cbn. done.
    + destruct H2 as (tr2 & H2 & ->). exists tr1, (s1, Throw e), tr2. done.
Qed.

(** For a [finally] block that only updates the store. *)
Lemma Runs_try_finally_modify {A} (m : M A) (f : Store -> Store) s tr sf out :
  Runs (try_finally m (modify f) s) tr (sf, out) ↔
  ∃ s1, Runs (m s) tr (s1, out) ∧ sf = f s1.
Proof.
  unfold try_finally, modify. rewrite Runs_task_bind. split.
  - intros (tr1 & [s1 c] & tr2 & H1 & H2 & ->). cbn in H2.
    destruct H2 as [-> [= -> ->]]. rewrite app_nil_r. exists s1. done.
  - intros (s1 & H1 & ->). exists tr, (s1, out), []. cbn.
    rewrite app_nil_r. done.
Qed.

(** ** Facts about traces *)

Lemma resumed_app s tr1 tr2 :
  resumed s (tr1 ++ tr2) = resumed (resumed s tr1) tr2.
Proof.
  revert s. induction tr1 as [|[X s' e x] tr1 IH]; intros s; cbn; [done|].
  apply IH.
Qed.

Lemma own_steps_app prev tr1 tr2 final :
  own_steps prev (tr1 ++ tr2) final
  = removelast (own_steps prev tr1 final)
    ++ own_steps (last_store prev tr1) tr2 final.
Proof.
  revert prev. induction tr1 as [|[X s' e x] tr1 IH]; intros prev; [done|].
  cbn [app own_steps last_store]. rewrite IH.
  destruct (own_steps _ tr1 final) eqn:Hs; [|reflexivity].
  destruct tr1 as [|[]]; discriminate.
Qed.

Lemma held_steps s tr final :
  held s tr →
  Forall (λ p, snd p = fst p) (removelast (own_steps s tr final))
  ∧ last_store s tr = resumed s tr.
Proof.
  revert s. induction tr as [|[X s' e x] tr IH]; intros s H; cbn in *.
  - split; [constructor|done].
  - destruct H as [-> H]. apply IH in H as [H1 H2]. split; [|exact H2].
    destruct (own_steps _ tr final) eqn:Hs.
    { destruct tr as [|[]]; discriminate. }
    constructor; [done|exact H1].
Qed.

Lemma held_app s tr1 tr2 :
  held s (tr1 ++ tr2) ↔ held s tr1 ∧ held (resumed s tr1) tr2.
Proof.
  revert s. induction tr1 as [|[X s' e x] tr1 IH]; intros s; cbn.
  - tauto.
  - rewrite IH. tauto.
Qed.

Lemma played_app tr1 tr2 : played (tr1 ++ tr2) = played tr1 ++ played tr2.
Proof.
  induction tr1 as [|[X s e x] tr1 IH]; cbn; [done|].
  destruct e; try exact IH.
  - rewrite IH, app_assoc. done.
  - destruct src; [|exact IH]. rewrite IH, app_assoc. done.
Qed.

Lemma fetched_app tr1 tr2 :
  fetched (tr1 ++ tr2)
  = match fetched tr1 with Some r => Some r | None => fetched tr2 end.
Proof.
  induction tr1 as [|[X s e x] tr1 IH]; cbn; [done|].
  destruct e; try exact IH. done.
Qed.


(** ** Phase 1 as a function of the stream *)

(** What the delimiter loop returns on a stream, without the suspensions:
    the text chunks, the first audio chunk and the reader positioned after
    them; or the error of a stream that fails before any newline. *)
Fixpoint scan (rest : list (list Z)) (failure : option thrown)
    (textByteChunks : list (list Z))
  : Completion (list (list Z) * option (list Z) * Body) :=
  match rest with
  | [] =>
      match failure with
      | Some e => Throw e
      | None =>
          Normal (textByteChunks, None, {| chunks := []; failure := None |})
      end
  | value :: rest' =>
      match split_chunk textByteChunks value with
      | (texts, Some firstAudioChunk) =>
          Normal (texts, firstAudioChunk,
                  {| chunks := rest'; failure := failure |})
      | (texts, None) => scan rest' failure texts
      end
  end.

(** Entries of a task that only waits for the stream. *)
Definition is_wait (en : Entry) : bool :=
  match en with
  | Ent _ e _ =>
      match e with
      | Read _ | Interleave _ => true
      | _ => false
      end
  end.

Lemma Runs_read reader s tr sf out :
  Runs (read reader s) tr (sf, out) →
  tr = [Ent s (Read reader) tt; Ent s (Interleave s) sf]
  ∧ out = match chunks reader with
          | c :: rest =>
              Normal (Some c, {| chunks := rest; failure := failure reader |})
          | [] =>
              match failure reader with
              | Some e => Throw e
              | None => Normal (None, reader)
              end
          end.
Proof.
  unfold read. cbn. intros ([] & tr1 & -> & s' & tr2 & -> & H).
  destruct (chunks reader); [destruct (failure reader)|];
    cbn in H; destruct H as [-> [= -> ->]]; done.
Qed.

Lemma wait_facts tr :
  Forall (λ en, is_wait en = true) tr →
  Forall (λ en, is_player en = false) tr ∧ played tr = [] ∧ fetched tr = None
  ∧ Forall (λ en, is_console en = false) tr.
Proof.
  induction 1 as [|[X s e x] tr H _ (IH1 & IH2 & IH3 & IH4)];
    [repeat split; constructor|].
  destruct e; try discriminate; cbn;
    (split; [constructor; done|]); (split; [done|]);
    (split; [done|]); constructor; done.
Qed.

Lemma Runs_readTextLine_from rest fail : ∀ texts s tr sf out,
  Runs (readTextLine_from rest fail texts s) tr (sf, out) →
  out = scan rest fail texts
  ∧ held s tr ∧ sf = resumed s tr
  ∧ Forall (λ en, is_wait en = true) tr.
Proof.
  induction rest as [|value rest IH]; intros texts s tr sf out H.
  - cbn [readTextLine_from] in H. apply Runs_bind in H as (tr1 & s1 & c & H1 & H).
    apply Runs_read in H1 as [-> ->]. cbn [chunks failure] in H.
    destruct fail as [e|].
    + destruct H as (-> & -> & ->). cbn. repeat split; repeat constructor.
    + destruct H as (tr2 & H & ->). cbn in H. destruct H as [-> [= -> ->]].
      cbn. repeat split; repeat constructor.
  - cbn [readTextLine_from] in H. apply Runs_bind in H as (tr1 & s1 & c & H1 & H).
    apply Runs_read in H1 as [-> ->]. cbn [chunks failure] in H.
    destruct H as (tr2 & H & ->). cbn [scan snd].
    destruct (split_chunk texts value) as [texts' [first|]].
    + cbn in H. destruct H as [-> [= -> ->]].
      cbn. repeat split; repeat constructor.
    + apply IH in H as (-> & Hh & -> & Hw).
      cbn. repeat split; try done. repeat constructor. exact Hw.
Qed.

(** ** Re-entry (claim C10) *)

(** C10. While [isProcessing] is set, [processUserAudio] returns at once:
    no interaction with the browser, and the store it leaves is the store it
    found, so [messages], [avatarState], [error], [isProcessing] and
    [currentAudio] are as they were. *)
Theorem processUserAudio_reentry (audioBlob : list Z) (s : Store) :
  isProcessing s = true →
  processUserAudio audioBlob s = Ret (s, Normal tt)
  ∧ ∀ tr sf out, Runs (processUserAudio audioBlob s) tr (sf, out) →
      tr = [] ∧ sf = s ∧ out = Normal tt.
Proof.
  intros H.
  assert (Hp : processUserAudio audioBlob s = Ret (s, Normal tt)).
  { unfold processUserAudio, bind, get_store. cbn. rewrite H. reflexivity. }
  split; [exact Hp|]. intros tr sf out Hr. rewrite Hp in Hr. cbn in Hr.
  destruct Hr as [-> [= -> ->]]. done.
Qed.

Definition busy : Store :=
  {| messages := []; avatarState := thinking; isProcessing := true;
     isSessionActive := true; error := None; sessionId := js "session";
     currentAudio := Some 3%nat |}.

Lemma processUserAudio_reentry_witness :
  processUserAudio [1; 2; 3] busy = Ret (busy, Normal tt).
Proof.
  apply (proj1 (processUserAudio_reentry [1; 2; 3] busy eq_refl)).
Defined.


(** ** A turn, from the response header on *)

(** The header of the response read from [reader]: [transcript] and
    [responseText] are the values of [parsed.transcript || ''] and
    [parsed.text || ''], [firstAudioChunk] and [reader'] what phase 1 hands
    to the player. *)
Definition Header (reader : Body) (transcript responseText : value)
    (firstAudioChunk : option (list Z)) (reader' : Body) : Prop :=
  ∃ texts parsed t x,
    scan (chunks reader) (failure reader) []
      = Normal (texts, firstAudioChunk, reader')
    ∧ JSON_parse (decode_chunks texts) = Some parsed
    ∧ get parsed (js "transcript") = Some t
    ∧ get parsed (js "text") = Some x
    ∧ transcript = or_else t (Str [])
    ∧ responseText = or_else x (Str []).

(** What [processUserAudio] does once the header is parsed. *)
Definition respond (transcript responseText : value)
    (firstAudioChunk : option (list Z)) (reader : Body) : M unit :=
  spoken <- trimmed_nonempty transcript ;;
  if negb spoken then
    backToListening ;;
    modify (set_isProcessing false)
  else
    addMessage user transcript ;;
    addMessage assistant responseText ;;
    modify (set_avatarState speaking) ;;
    playStreamingAudio reader firstAudioChunk ;;
    backToListening.

(** The store in which [processUserAudio] sends its request. *)
Definition requesting (s : Store) : Store :=
  set_avatarState thinking (set_error None (set_isProcessing true s)).

Lemma processAttempt_header audioBlob s tr sf out response reader
    transcript responseText first reader' :
  Runs (processAttempt audioBlob s) tr (sf, out) →
  fetched tr = Some (Resolved response) →
  ok response = true → body response = Some reader →
  Header reader transcript responseText first reader' →
  ∃ s1 tr_r tr2 history,
    tr = Ent s (Fetch "/api/caresma/process-audio" (Some audioBlob) history)
             (Resolved response)
         :: Ent s (Interleave s) s1 :: tr_r ++ tr2
    ∧ held s1 tr_r ∧ Forall (λ en, is_wait en = true) tr_r
    ∧ Runs (respond transcript responseText first reader' (resumed s1 tr_r))
           tr2 (sf, out).
Proof.
  intros H Hf Hok Hbody (texts & parsed & t & x & Hscan & Hparse & Ht & Hx & -> & ->).
  unfold processAttempt in H. cbn in H.
  destruct H as (ans & tr1 & -> & s1 & tr2 & -> & H).
  cbn in Hf. injection Hf as ->. rewrite Hok, Hbody in H. cbn [negb] in H.
  apply Runs_bind in H as (tr_r & s2 & c & Hr & H).
  apply Runs_readTextLine_from in Hr as (-> & Hheld & -> & Hwait).
  rewrite Hscan in H. destruct H as (tr3 & H & ->).
  unfold parseTextLine, field_or_empty in H. cbn in H.
  rewrite Hparse in H. cbn in H. rewrite Ht in H. cbn in H.
  rewrite Hx in H. cbn in H.
  exists s1, tr_r, tr3. eexists. split; [reflexivity|]. done.
Qed.


Lemma processUserAudio_run audioBlob s0 tr sf out :
  isProcessing s0 = false →
  Runs (processUserAudio audioBlob s0) tr (sf, out) →
  out = Normal tt
  ∧ ∃ tr1 s1 c, Runs (processAttempt audioBlob (requesting s0)) tr1 (s1, c) ∧
      match c with
      | Normal _ => tr = tr1 ∧ sf = set_isProcessing false s1
      | Throw err =>
          tr = tr1 ++ [Ent s1 (ConsoleError "Processing error:" err) tt]
          ∧ sf = set_isProcessing false
                   (set_avatarState
                      (settle s1)
                      (set_error (Some (message_or "An error occurred" err))
                         s1))
      end.
Proof.
  intros Hp H. unfold processUserAudio in H.
  unfold bind at 1, get_store in H. cbn [task_bind] in H. rewrite Hp in H.
  unfold bind at 1 2 3, modify at 1 2 3 in H. cbn [task_bind] in H.
  apply Runs_try_finally_modify in H as (s2 & H & ->).
  apply Runs_try_catch in H as (tr1 & s1 & c & H1 & H).
  destruct c as [[]|err].
  - destruct H as (-> & -> & ->). split; [done|].
    exists tr1, s1, (Normal tt). done.
  - destruct H as (tr2 & H & ->). cbn in H.
    destruct H as ([] & tr3 & -> & -> & [= -> ->]). split; [done|].
    exists tr1, s1, (Throw err). split; [exact H1|].
    split; [done|]. destruct s1; reflexivity.
Qed.

Lemma own_steps_last prev tr final :
  own_steps prev tr final
  = removelast (own_steps prev tr final) ++ [(last_store prev tr, final)].
Proof.
  revert prev. induction tr as [|[X s e x] tr IH]; intros prev; [done|].
  cbn [own_steps last_store]. rewrite IH at 1.
  destruct (own_steps _ tr final) eqn:Hs.
  { destruct tr as [|[]]; discriminate. }
  rewrite <- Hs. destruct (removelast (own_steps _ tr final) ++ _) eqn:Hr.
  { destruct (removelast _); discriminate. }
  rewrite <- Hr, Hs. reflexivity.
Qed.

Lemma own_steps_held (P : Store * Store → Prop) s tr final :
  held s tr → (∀ a, P (a, a)) → P (resumed s tr, final) →
  Forall P (own_steps s tr final).
Proof.
  intros Hh Hrefl Hlast. rewrite own_steps_last.
  destruct (held_steps s tr final Hh) as [H1 ->].
  apply Forall_app. split; [|repeat constructor; exact Hlast].
  eapply Forall_impl; [exact H1|]. intros [a b]. cbn. intros ->. apply Hrefl.
Qed.


(** ** Blank transcript (claim C4) *)

Lemma blank_transcript_client audioBlob s0 tr sf out response reader
    responseText first reader' ts :
  isProcessing s0 = false →
  Runs (processUserAudio audioBlob s0) tr (sf, out) →
  fetched tr = Some (Resolved response) →
  ok response = true → body response = Some reader →
  Header reader (Str ts) responseText first reader' →
  trim ts = [] →
  out = Normal tt
  ∧ Forall (λ p, messages (snd p) = messages (fst p)) (own_steps s0 tr sf)
  ∧ Forall (λ en, is_player en = false) tr
  ∧ avatarState sf = (if isSessionActive (resumed s0 tr)
                      then listening else idle)
  ∧ isProcessing sf = false
  ∧ currentAudio sf = currentAudio (resumed s0 tr).
Proof.
  intros Hp H Hf Hok Hbody Hh Hts.
  apply processUserAudio_run in H as (-> & tr1 & s1 & c & H & Hc); [|exact Hp].
  split; [reflexivity|].
  assert (Hf1 : fetched tr1 = Some (Resolved response)).
  { destruct c; [destruct Hc as [-> _]; exact Hf|].
    destruct Hc as [-> _]. rewrite fetched_app in Hf.
    destruct (fetched tr1); [exact Hf|discriminate]. }
  destruct (processAttempt_header _ _ _ _ _ _ _ _ _ _ _ H Hf1 Hok Hbody Hh)
    as (s2 & tr_r & tr2 & history & -> & Hheld & Hwait & Hr).
  unfold respond, trimmed_nonempty in Hr. cbn in Hr. rewrite Hts in Hr.
  cbn in Hr. destruct Hr as [-> [= -> ->]].
  destruct Hc as [-> ->]. rewrite app_nil_r.
  destruct (wait_facts _ Hwait) as (Hnp & _ & _ & _).
  cbn [resumed own_steps]. repeat split.
  - constructor; [destruct s0; reflexivity|].
    constructor; [reflexivity|].
    apply own_steps_held; [exact Hheld|reflexivity|].
    cbn. destruct (resumed s2 tr_r); reflexivity.
  - repeat constructor. exact Hnp.
  - destruct (resumed s2 tr_r); reflexivity.
  - destruct (resumed s2 tr_r); reflexivity.
  - destruct (resumed s2 tr_r); reflexivity.
Qed.

(** ** Messages before playback (claim C5) *)

Definition message (uuid : list Z) (r : Role) (c : value) (now : Z)
  : ChatMessage :=
  {| id := uuid; role := r; content := c; timestamp := now |}.

(** The stores of a turn with something said: after the user message, and
    when the player is entered. *)
Definition with_user (s : Store) u1 ts d1 : Store :=
  set_messages (messages s ++ [message u1 user (Str ts) d1]) s.

Definition at_play (s : Store) u1 ts d1 u2 responseText d2 : Store :=
  set_avatarState speaking
    (set_messages
       (messages s ++ [message u1 user (Str ts) d1;
                       message u2 assistant responseText d2]) s).

(** A turn whose header carries a transcript with something in it, cut at
    the call of the player: [pre] reads the response, then come the two
    [addMessage], then the run [trp] of the player, then the [catch] when
    the player threw. *)
Lemma spoken_turn audioBlob s0 tr sf out response reader
    responseText first reader' ts :
  isProcessing s0 = false →
  Runs (processUserAudio audioBlob s0) tr (sf, out) →
  fetched tr = Some (Resolved response) →
  ok response = true → body response = Some reader →
  Header reader (Str ts) responseText first reader' →
  trim ts ≠ [] →
  ∃ pre u1 d1 u2 d2 trp sp cp,
    Runs (playStreamingAudio reader' first
            (at_play (resumed s0 pre) u1 ts d1 u2 responseText d2))
         trp (sp, cp)
    ∧ tr = pre ++ Ent (resumed s0 pre) RandomUUID u1
               :: Ent (resumed s0 pre) NewDate d1
               :: Ent (with_user (resumed s0 pre) u1 ts d1) RandomUUID u2
               :: Ent (with_user (resumed s0 pre) u1 ts d1) NewDate d2
               :: trp
               ++ match cp with
                  | Normal _ => []
                  | Throw err =>
                      [Ent sp (ConsoleError "Processing error:" err) tt]
                  end
    ∧ Forall (λ en, is_player en = false) pre
    ∧ Forall (λ en, is_console en = false) pre
    ∧ played pre = []
    ∧ Forall (λ p, messages (snd p) = messages (fst p))
             (own_steps s0 pre (resumed s0 pre)).
Proof.
  intros Hp H Hf Hok Hbody Hh Hts.
  apply processUserAudio_run in H as (-> & tr1 & s1 & c & H & Hc); [|exact Hp].
  assert (Hf1 : fetched tr1 = Some (Resolved response)).
  { destruct c; [destruct Hc as [-> _]; exact Hf|].
    destruct Hc as [-> _]. rewrite fetched_app in Hf.
    destruct (fetched tr1); [exact Hf|discriminate]. }
  destruct (processAttempt_header _ _ _ _ _ _ _ _ _ _ _ H Hf1 Hok Hbody Hh)
    as (s2 & tr_r & tr2 & history & -> & Hheld & Hwait & Hr).
  unfold respond, trimmed_nonempty in Hr.
  cbn -[playStreamingAudio] in Hr.
  destruct (trim ts) eqn:Htrim; [done|]. cbn -[playStreamingAudio] in Hr.
  destruct Hr as (u1 & tr3 & -> & d1 & tr4 & -> & u2 & tr5 & -> & d2 & tr6
                  & -> & Hr).
  apply Runs_bind in Hr as (trp & sp & cp & Hplay & Hr).
  set (pre := Ent (requesting s0)
                (Fetch "/api/caresma/process-audio" (Some audioBlob) history)
                (Resolved response)
              :: Ent (requesting s0) (Interleave (requesting s0)) s2 :: tr_r).
  assert (Hres : resumed s0 pre = resumed s2 tr_r) by reflexivity.
  assert (Hwp : Forall (λ en, is_wait en = true) (skipn 1 pre))
    by (repeat constructor; exact Hwait).
  exists pre, u1, d1, u2, d2, trp, sp, cp. rewrite Hres.
  split; [|split; [|split; [|split; [|split]]]].
  - unfold at_play, with_user. destruct (resumed s2 tr_r).
    cbn in Hplay |- *. rewrite <- app_assoc in Hplay. exact Hplay.
  - unfold with_user. destruct (resumed s2 tr_r).
    destruct cp as [[]|err].
    + destruct Hr as (tr7 & [-> [= -> ->]] & ->). destruct Hc as [-> _].
      subst pre. cbn. rewrite <- ?app_assoc. reflexivity.
    + destruct Hr as (-> & -> & ->). destruct Hc as [-> _].
      subst pre. cbn. rewrite <- ?app_assoc. reflexivity.
  - constructor; [reflexivity|]. apply (wait_facts _ Hwp).
  - constructor; [reflexivity|]. apply (wait_facts _ Hwp).
  - apply (wait_facts _ Hwp).
  - subst pre. cbn [own_steps]. constructor; [destruct s0; reflexivity|].
    constructor; [reflexivity|].
    apply own_steps_held; [exact Hheld|reflexivity|reflexivity].
Qed.

(** C5. In a turn whose header carries a transcript with something in it:
    up to the moment the player is entered (its first interaction is the
    capability probe) the run made no player interaction and gave it no
    byte; the transcript and the reply were parsed by then, because at that
    moment the store holds, after the messages it had when the task last
    resumed, the user message and then the assistant message with exactly
    those contents, and shows [speaking]. *)
Theorem messages_before_playback audioBlob s0 tr sf out response reader
    responseText first reader' ts :
  isProcessing s0 = false →
  Runs (processUserAudio audioBlob s0) tr (sf, out) →
  fetched tr = Some (Resolved response) →
  ok response = true → body response = Some reader →
  Header reader (Str ts) responseText first reader' →
  trim ts ≠ [] →
  ∃ pre u1 d1 u2 d2 s_user s_play supported post,
    tr = pre ++ Ent (resumed s0 pre) RandomUUID u1
             :: Ent (resumed s0 pre) NewDate d1
             :: Ent s_user RandomUUID u2
             :: Ent s_user NewDate d2
             :: Ent s_play MediaSourceSupported supported :: post
    ∧ Forall (λ en, is_player en = false) pre
    ∧ played pre = []
    ∧ Forall (λ p, messages (snd p) = messages (fst p))
             (own_steps s0 pre (resumed s0 pre))
    ∧ messages s_user
      = messages (resumed s0 pre) ++ [message u1 user (Str ts) d1]
    ∧ messages s_play
      = messages (resumed s0 pre)
        ++ [message u1 user (Str ts) d1; message u2 assistant responseText d2]
    ∧ avatarState s_play = speaking.
Proof.
  intros Hp H Hf Hok Hbody Hh Hts.
  destruct (spoken_turn _ _ _ _ _ _ _ _ _ _ _ Hp H Hf Hok Hbody Hh Hts)
    as (pre & u1 & d1 & u2 & d2 & trp & sp & cp & Hplay & -> & Hnp & _ & Hpl
        & Hown).
  unfold playStreamingAudio in Hplay. cbn in Hplay.
  destruct Hplay as (supported & trp' & -> & _).
  eexists pre, u1, d1, u2, d2, _, _, supported, _.
  split; [cbn; reflexivity|].
  split; [exact Hnp|]. split; [exact Hpl|]. split; [exact Hown|].
  unfold with_user, at_play. destruct (resumed s0 pre). done.
Qed.

(** ** A failing greeting (claim C7) *)

(** C7. Every run of [requestGreeting] is a run of its [try] block followed
    by the [finally]. When the block throws, for whatever reason and at
    whatever point, the [catch] logs the error, records its message in
    [error] and appends the fallback message, once; when it does not throw,
    nothing is appended after it. Either way [avatarState] ends as
    [listening] if the session is still active, [idle] otherwise. A rejected
    [fetch], a non-ok status and a missing body all make the block throw. *)
Theorem greeting_failure_fallback (s0 : Store) tr sf out :
  Runs (requestGreeting s0) tr (sf, out) →
  out = Normal tt
  ∧ ∃ tr_b s_b c,
      Runs (greetingAttempt s0) tr_b (s_b, c)
      ∧ avatarState sf = (if isSessionActive s_b then listening else idle)
      ∧ (∀ a, c = Normal a →
           tr = tr_b ∧ messages sf = messages s_b ∧ error sf = error s_b)
      ∧ (∀ err, c = Throw err →
           ∃ uuid now s_e,
             tr = tr_b ++ [Ent s_b (ConsoleError "Greeting error:" err) tt;
                           Ent s_e RandomUUID uuid; Ent s_e NewDate now]
             ∧ messages sf
               = messages s_b ++ [message uuid assistant fallbackMessage now]
             ∧ error sf
               = Some (message_or "Could not start conversation" err))
      ∧ ((∃ e, fetched tr_b = Some (Rejected e))
         ∨ (∃ r, fetched tr_b = Some (Resolved r)
                 ∧ (ok r = false ∨ body r = None)) →
         ∃ err, c = Throw err).
Proof.
  intros H. unfold requestGreeting, backToListening in H.
  apply Runs_try_finally_modify in H as (s2 & H & ->).
  apply Runs_try_catch in H as (tr_b & s_b & c & Hb & H).
  assert (Hfail : (∃ e, fetched tr_b = Some (Rejected e))
         ∨ (∃ r, fetched tr_b = Some (Resolved r)
                 ∧ (ok r = false ∨ body r = None)) →
         ∃ err, c = Throw err).
  { clear H. unfold greetingAttempt in Hb. cbn in Hb.
    destruct Hb as (ans & tr1 & -> & s1 & tr2 & -> & Hb). cbn [fetched].
    intros [[e [= ->]]|(r & [= ->] & Hr)].
    - cbn in Hb. destruct Hb as [_ [= _ ->]]. eauto.
    - destruct (ok r) eqn:Hok.
      + destruct Hr as [|Hr]; [discriminate|]. rewrite Hr in Hb.
        cbn in Hb. destruct Hb as [_ [= _ ->]]. eauto.
      + cbn in Hb. destruct Hb as ([] & tr3 & -> & s3 & tr4 & -> & Hb).
        destruct (get _ _) in Hb; cbn in Hb; destruct Hb as [_ [= _ ->]];
          eauto. }
  destruct c as [[]|err].
  - destruct H as (-> & -> & ->). split; [done|].
    exists tr_b, s_b, (Normal tt). split; [exact Hb|].
    split; [destruct s_b; reflexivity|].
    split; [intros _ _; destruct s_b; done|].
    split; [discriminate|exact Hfail].
  - destruct H as (tr2 & H & ->). cbn in H.
    destruct H as ([] & tr3 & -> & uuid & tr4 & -> & now & tr5 & -> & ->
                   & [= -> ->]).
    split; [done|]. exists tr_b, s_b, (Throw err). split; [exact Hb|].
    split; [destruct s_b; reflexivity|].
    split; [discriminate|]. split; [|exact Hfail].
    intros err' [= <-]. eexists uuid, now, _. split; [reflexivity|].
    destruct s_b; done.
Qed.


(** ** The round trip of the wire protocol (claim C1) *)

Lemma indexOf_None x l : indexOf x l = None ↔ x ∉ l.
Proof.
  induction l as [|b l IH]; cbn [indexOf].
  - split; [set_solver|done].
  - destruct (Z.eqb_spec b x) as [->|Hb].
    + split; [done|set_solver].
    + destruct (indexOf x l).
      * split; [done|]. intros H. exfalso.
        assert (x ∉ l) as Hl by set_solver. apply IH in Hl. done.
      * split; [|done]. intros _.
        assert (x ∉ l) as Hl by (apply IH; done). set_solver.
Qed.

Lemma indexOf_Some x l i :
  indexOf x l = Some i →
  l = firstn i l ++ (x :: skipn (i + 1) l) ∧ (x ∉ firstn i l)
  ∧ (i < length l)%nat.
Proof.
  revert i. induction l as [|b l IH]; intros i; cbn [indexOf]; [done|].
  destruct (Z.eqb_spec b x) as [->|Hb].
  - intros [= <-]. cbn.
    split; [done|]. split; [set_solver|lia].
  - destruct (indexOf x l) as [j|]; [|done].
    intros [= <-]. destruct (IH j eq_refl) as (Hl & Hn & Hlt). cbn.
    split; [f_equal; exact Hl|]. split; [set_solver|lia].
Qed.

(** The first occurrence of a byte determines the split. *)
Lemma first_split (x : Z) l1 r1 l2 r2 :
  l1 ++ x :: r1 = l2 ++ x :: r2 → x ∉ l1 → x ∉ l2 → l1 = l2 ∧ r1 = r2.
Proof.
  revert l2. induction l1 as [|a l1 IH]; intros [|b l2]; cbn; intros H H1 H2.
  - injection H as ->. done.
  - injection H as -> _. set_solver.
  - injection H as -> _. set_solver.
  - injection H as -> H. apply IH in H as [-> ->]; [done|set_solver..].
Qed.

(** A chunk without the byte, at the head of the stream, is a piece of the
    part before the byte. *)
Lemma prefix_before (x : Z) v c l r :
  v ++ c = l ++ x :: r → x ∉ v → ∃ l', l = v ++ l' ∧ c = l' ++ x :: r.
Proof.
  revert l. induction v as [|a v IH]; intros l H Hv; cbn in *.
  - exists l. done.
  - destruct l as [|b l]; cbn in H.
    + injection H as -> _. set_solver.
    + injection H as -> H. apply IH in H as (l' & -> & ->); [|set_solver].
      exists l'. done.
Qed.

(** Phase 1 on any chunking of [header ++ 0x0A ++ payload], for a header
    without 0x0A: the text chunks make up the header, the first audio chunk
    and the chunks left in the reader make up the payload. *)
Lemma scan_split chks : ∀ fail texts0 header payload,
  concat chks = header ++ 10 :: payload → 10 ∉ header →
  ∃ texts first reader',
    scan chks fail texts0 = Normal (texts, first, reader')
    ∧ concat texts = concat texts0 ++ header
    ∧ default [] first ++ concat (chunks reader') = payload
    ∧ failure reader' = fail.
Proof.
  induction chks as [|value rest IH]; intros fail texts0 header payload H Hn.
  - destruct header; discriminate.
  - cbn [concat] in H. cbn [scan]. unfold split_chunk.
    destruct (indexOf 10 value) as [i|] eqn:Hi.
    + apply indexOf_Some in Hi as (Hv & Hni & Hlt).
      rewrite Hv, <- app_assoc in H. cbn in H.
      apply first_split in H as [Hh Hp]; [|exact Hni|exact Hn].
      eexists _, _, _. split; [reflexivity|]. cbn [chunks failure].
      split; [|split; [|reflexivity]].
      * destruct (0 <? i)%nat eqn:H0.
        -- rewrite concat_app. cbn. rewrite app_nil_r, Hh. reflexivity.
        -- apply Nat.ltb_ge in H0. assert (i = 0%nat) as -> by lia.
           cbn in Hh. rewrite <- Hh, app_nil_r. reflexivity.
      * destruct (i + 1 <? length value)%nat eqn:H1; [exact Hp|].
        apply Nat.ltb_ge in H1. rewrite skipn_all2 in Hp by lia. exact Hp.
    + apply indexOf_None in Hi.
      apply prefix_before in H as (h' & -> & Hrest); [|exact Hi].
      destruct (IH fail (texts0 ++ [value]) h' payload Hrest)
        as (texts & first & reader' & Hs & Ht & Hp & Hf).
      { set_solver. }
      exists texts, first, reader'. split; [exact Hs|].
      split; [|done]. rewrite Ht, concat_app. cbn.
      rewrite app_nil_r, app_assoc. reflexivity.
Qed.

(** Streaming decoding does not see the chunk boundaries. *)
Lemma decode_stream_app d a b :
  decode_stream d (a ++ b)
  = let '(d1, o1) := decode_stream d a in
    let '(d2, o2) := decode_stream d1 b in (d2, o1 ++ o2).
Proof.
  revert d. induction a as [|x a IH]; intros d; cbn [app decode_stream].
  - destruct (decode_stream d b). reflexivity.
  - destruct (decode_byte d x) as [d1 cps].
    destruct (emit_points d1 cps) as [d2 o1]. rewrite IH.
    destruct (decode_stream d2 a) as [d3 o2].
    destruct (decode_stream d3 b) as [d4 o3].
    rewrite app_assoc. reflexivity.
Qed.

Lemma decode_from_concat chks : ∀ d,
  decode_from d chks = decode_from d [concat chks].
Proof.
  induction chks as [|c rest IH]; intros d.
  - reflexivity.
  - cbn [decode_from concat]. rewrite decode_stream_app.
    destruct (decode_stream d c) as [d1 o1]. rewrite IH. cbn [decode_from].
    destruct (decode_stream d1 (concat rest)) as [d2 o2].
    rewrite app_assoc. reflexivity.
Qed.

Lemma decode_chunks_concat chks :
  decode_chunks chks = decode_chunks [concat chks].
Proof. apply decode_from_concat. Qed.


(** *** What the players are given *)

Lemma Runs_readAll rest fail : ∀ acc s tr sf c,
  Runs (readAll rest fail acc s) tr (sf, c) →
  Forall (λ en, is_wait en = true) tr
  ∧ match c with
    | Normal all => all = acc ++ rest
    | Throw _ => fail ≠ None
    end.
Proof.
  induction rest as [|value rest IH]; intros acc s tr sf c H.
  - cbn [readAll] in H. apply Runs_bind in H as (tr1 & s1 & c1 & H1 & H).
    apply Runs_read in H1 as [-> ->]. cbn [chunks failure] in H.
    destruct fail as [e|].
    + destruct H as (-> & -> & ->). split; [repeat constructor|congruence].
    + destruct H as (tr2 & H & ->). cbn in H. destruct H as [-> [= -> ->]].
      rewrite !app_nil_r. split; [repeat constructor|done].
  - cbn [readAll] in H. apply Runs_bind in H as (tr1 & s1 & c1 & H1 & H).
    apply Runs_read in H1 as [-> ->]. cbn [chunks failure] in H.
    destruct H as (tr2 & H & ->). apply IH in H as [Hw Hc].
    split; [repeat constructor; exact Hw|].
    destruct c; [|exact Hc]. rewrite Hc, <- app_assoc. reflexivity.
Qed.

Lemma Runs_appendAll ms rest fail : ∀ s tr sf c,
  Runs (appendAll ms rest fail s) tr (sf, c) →
  (∃ more, concat rest = played tr ++ more)
  ∧ (∀ a, c = Normal a → played tr = concat rest)
  ∧ Forall (λ en, is_console en = false) tr.
Proof.
  induction rest as [|value rest IH]; intros s tr sf c H.
  - cbn [appendAll] in H. apply Runs_bind in H as (tr1 & s1 & c1 & H1 & H).
    apply Runs_read in H1 as [-> ->]. cbn [chunks failure] in H.
    assert (tr = [Ent s (Read {| chunks := []; failure := fail |}) tt;
                  Ent s (Interleave s) s1]) as ->.
    { destruct fail; [destruct H as (-> & _); done|].
      destruct H as (tr2 & H & ->). cbn in H. destruct H as [-> _]. done. }
    cbn. split; [exists []; done|]. split; [done|repeat constructor].
  - cbn [appendAll] in H. apply Runs_bind in H as (tr1 & s1 & c1 & H1 & H).
    apply Runs_read in H1 as [-> ->]. cbn [chunks failure] in H.
    destruct H as (tr2 & H & ->).
    apply Runs_bind in H as (tr3 & s3 & c3 & H3 & H).
    unfold appendBuffer in H3. cbn in H3.
    destruct H3 as (ans & tr4 & -> & s4 & tr5 & -> & H3).
    destruct ans as [[]|e]; cbn in H3; destruct H3 as [-> [= -> ->]].
    + destruct H as (tr6 & H & ->). apply IH in H as ((more & Hm) & Hn & Hc).
      cbn. split; [exists more; rewrite Hm, app_assoc; done|].
      split; [|repeat constructor; exact Hc].
      intros a Ha. rewrite (Hn a Ha). reflexivity.
    + destruct H as (-> & -> & ->). cbn. rewrite app_nil_r.
      split; [exists (concat rest); done|]. split; [done|repeat constructor].
Qed.

(** The part of the stream the player is handed. *)
Definition handed (first : option (list Z)) (reader : Body) : list Z :=
  default [] first ++ concat (chunks reader).

Lemma nonempty_default first :
  match nonempty first with Some c => c | None => [] end = default [] first.
Proof. destruct first as [[|b c]|]; reflexivity. Qed.

Lemma Runs_playWithBlob reader first s tr sf c :
  Runs (playWithBlob reader first s) tr (sf, c) →
  (∃ more, handed first reader = played tr ++ more)
  ∧ (∀ a, c = Normal a → played tr = handed first reader)
  ∧ Forall (λ en, is_console en = false) tr.
Proof.
  unfold playWithBlob, handed. rewrite <- nonempty_default. intros H.
  apply Runs_bind in H as (tr1 & s1 & c1 & H1 & H).
  apply Runs_readAll in H1 as [Hw Hc1].
  destruct (wait_facts _ Hw) as (_ & Hpl & _ & Hcon).
  destruct c1 as [all|e].
  - destruct H as (tr2 & H & ->). rewrite played_app, Hpl. cbn [app].
    assert (Hall : concat all
                   = match nonempty first with Some c => c | None => [] end
                     ++ concat (chunks reader)).
    { rewrite Hc1, concat_app. destruct (nonempty first); cbn;
        rewrite ?app_nil_r; reflexivity. }
    rewrite <- Hall.
    assert (Hplay : ∀ tr2 sf c,
      Runs (playAudioBlob (concat all) s1) tr2 (sf, c) →
      played tr2 = concat all ∧ Forall (λ en, is_console en = false) tr2).
    { clear. intros tr2 sf c H. unfold playAudioBlob, releaseCurrent in H.
      cbn in H. destruct (currentAudio s1).
      - cbn in H.
        destruct H as ([] & ? & -> & audio & ? & -> & [] & ? & -> & st & ?
                       & -> & s2 & ? & -> & H).
        destruct st; cbn in H.
        + destruct H as ([] & ? & -> & -> & _). cbn. rewrite app_nil_r.
          split; [done|repeat constructor].
        + destruct H as ([] & ? & -> & -> & _). cbn. rewrite app_nil_r.
          split; [done|repeat constructor].
        + destruct H as (-> & _). cbn. rewrite app_nil_r.
          split; [done|repeat constructor].
      - cbn in H.
        destruct H as (audio & ? & -> & [] & ? & -> & st & ?
                       & -> & s2 & ? & -> & H).
        destruct st; cbn in H.
        + destruct H as ([] & ? & -> & -> & _). cbn. rewrite app_nil_r.
          split; [done|repeat constructor].
        + destruct H as ([] & ? & -> & -> & _). cbn. rewrite app_nil_r.
          split; [done|repeat constructor].
        + destruct H as (-> & _). cbn. rewrite app_nil_r.
          split; [done|repeat constructor]. }
    destruct all as [|a all].
    + cbn in H. destruct H as [-> _]. cbn.
      split; [exists []; done|]. split; [done|].
      rewrite app_nil_r. exact Hcon.
    + apply Hplay in H as [-> Hc2].
      split; [exists []; rewrite app_nil_r; done|]. split; [done|].
      apply Forall_app. done.
  - destruct H as (-> & -> & ->). rewrite Hpl.
    split; [eexists; reflexivity|]. split; [discriminate|exact Hcon].
Qed.


Lemma Runs_waitForEnd s tr sf c :
  Runs (waitForEnd s) tr (sf, c) → played tr = [].
Proof.
  unfold waitForEnd. cbn. destruct (currentAudio s) as [audio|]; cbn.
  - intros (ended & ? & -> & H). destruct ended; cbn in H.
    + destruct H as ([] & ? & -> & -> & _). reflexivity.
    + destruct H as ([] & ? & -> & s1 & ? & -> & [] & ? & -> & -> & _).
      reflexivity.
  - intros ([] & ? & -> & -> & _). reflexivity.
Qed.

Lemma Runs_playWithMediaSource reader first s tr sf c :
  Runs (playWithMediaSource reader first s) tr (sf, c) →
  (∃ more, handed first reader = played tr ++ more)
  ∧ (∀ a, c = Normal a → Forall (λ en, is_console en = false) tr →
       played tr = handed first reader).
Proof.
  intros H. unfold handed. rewrite <- nonempty_default.
  unfold playWithMediaSource, releaseCurrent in H.
  cbn -[appendAll appendBuffer waitForEnd try_catch] in H.
  destruct H as (ms & tr0 & -> & H).
  assert (Htail : ∃ pre tr1 s1,
    tr0 = pre ++ tr1 ∧ played pre = []
    ∧ Forall (λ en, is_console en = false) pre
    ∧ Runs
        ((match nonempty first with
          | Some c => appendBuffer ms c
          | None => ret ()
          end;;
          s <- get_store;;
          match currentAudio s with
          | Some a => call (Play a)
          | None => throw TypeError
          end;;
          try_catch
            (appendAll ms (chunks reader) (failure reader))
            (λ e : thrown,
               call
                 (ConsoleWarn
                    "MediaSource streaming error, audio may still play:" e));;
          isOpen <- call (ReadyStateOpen ms);;
          (if isOpen then call (EndOfStream ms) else ret ());;
          waitForEnd) s1) tr1 (sf, c)).
  { destruct (currentAudio s) as [old|];
      cbn -[appendAll appendBuffer waitForEnd try_catch] in H.
    - destruct H as ([] & ? & -> & audio & ? & -> & [] & ? & -> & [] & ?
                     & -> & s1 & ? & -> & [] & tr1 & -> & H).
      eexists [_; _; _; _; _; _], tr1, s1.
      split; [reflexivity|]. split; [reflexivity|].
      split; [repeat constructor|exact H].
    - destruct H as (audio & ? & -> & [] & ? & -> & [] & ?
                     & -> & s1 & ? & -> & [] & tr1 & -> & H).
      eexists [_; _; _; _; _], tr1, s1.
      split; [reflexivity|]. split; [reflexivity|].
      split; [repeat constructor|exact H]. }
  clear H. destruct Htail as (pre & tr1 & s1 & -> & Hpre & Hcpre & H).
  cbn [played]. rewrite played_app, Hpre. cbn [app].
  (* the first chunk *)
  apply Runs_bind in H as (tr2 & s2 & c2 & Hfirst & H).
  assert (Hf : played tr2
               = match nonempty first with Some c => c | None => [] end
               ∧ Forall (λ en, is_console en = false) tr2).
  { destruct (nonempty first) as [chunk|].
    - unfold appendBuffer in Hfirst. cbn in Hfirst.
      destruct Hfirst as (ans & ? & -> & s' & ? & -> & Hfirst).
      destruct ans; cbn in Hfirst; destruct Hfirst as [-> _]; cbn;
        rewrite app_nil_r; split; [done|repeat constructor|done
                                   |repeat constructor].
    - cbn in Hfirst. destruct Hfirst as [-> _]. split; [done|constructor]. }
  destruct Hf as [Hf Hcf].
  destruct c2 as [[]|e].
  2:{ destruct H as (-> & -> & ->). rewrite Hf.
      split; [eexists; reflexivity|discriminate]. }
  destruct H as (tr3 & H & ->). rewrite played_app, Hf.
  (* play() *)
  cbn -[appendAll waitForEnd try_catch] in H.
  destruct (currentAudio s2) as [a|].
  2:{ cbn in H. destruct H as (-> & [= -> ->]). cbn. rewrite app_nil_r.
      split; [eexists; reflexivity|discriminate]. }
  cbn -[appendAll waitForEnd try_catch] in H.
  destruct H as ([] & tr4 & -> & H). cbn [played].
  (* the rest of the stream *)
  apply Runs_bind in H as (tr5 & s5 & c5 & Happ & H).
  apply Runs_try_catch in Happ as (tr6 & s6 & c6 & Happ & Hcatch).
  apply Runs_appendAll in Happ as ((more & Hmore) & Hall & Hc6).
  destruct c6 as [[]|e].
  - destruct Hcatch as (-> & -> & ->). destruct H as (tr7 & H & ->).
    cbn -[waitForEnd] in H. destruct H as (isOpen & tr8 & -> & H).
    assert (Hend : played tr8 = []).
    { destruct isOpen; cbn -[waitForEnd] in H.
      - destruct H as ([] & tr9 & -> & H). apply Runs_waitForEnd in H.
        exact H.
      - apply Runs_waitForEnd in H. exact H. }
    rewrite played_app. cbn [played]. rewrite Hend, app_nil_r.
    rewrite (Hall tt eq_refl).
    split; [exists []; rewrite app_nil_r; reflexivity|]. done.
  - destruct Hcatch as (tr7 & Hwarn & ->). cbn in Hwarn.
    destruct Hwarn as ([] & ? & -> & -> & [= -> ->]).
    split.
    + destruct H as (tr8 & H & ->). rewrite !played_app. cbn [played app].
      cbn -[waitForEnd] in H. destruct H as (isOpen & tr9 & -> & H).
      assert (Hend : played tr9 = []).
      { destruct isOpen; cbn -[waitForEnd] in H.
        - destruct H as ([] & ? & -> & H). apply Runs_waitForEnd in H.
          exact H.
        - apply Runs_waitForEnd in H. exact H. }
      cbn [played]. rewrite Hend, !app_nil_r. exists more.
      rewrite <- app_assoc, Hmore. reflexivity.
    + intros _ _ Hcon. exfalso.
      apply Forall_cons in Hcon as [_ Hcon].
      apply Forall_app in Hcon as [_ Hcon].
      apply Forall_app in Hcon as [_ Hcon].
      apply Forall_cons in Hcon as [_ Hcon].
      destruct H as (tr8 & _ & ->).
      apply Forall_app in Hcon as [Hcon _].
      apply Forall_app in Hcon as [_ Hcon].
      apply Forall_cons in Hcon as [Hcon _]. discriminate.
Qed.


Lemma Runs_playStreamingAudio reader first s tr sf c :
  Runs (playStreamingAudio reader first s) tr (sf, c) →
  (∃ more, handed first reader = played tr ++ more)
  ∧ (∀ a, c = Normal a → Forall (λ en, is_console en = false) tr →
       played tr = handed first reader).
Proof.
  unfold playStreamingAudio. cbn -[playWithMediaSource playWithBlob].
  intros (supported & tr1 & -> & H). cbn [played].
  destruct supported.
  - apply Runs_playWithMediaSource in H as [Hp Hall]. split; [exact Hp|].
    intros a Ha Hcon. apply Forall_cons in Hcon as [_ Hcon]. eauto.
  - apply Runs_playWithBlob in H as (Hp & Hall & _). split; [exact Hp|].
    intros a Ha _. eauto.
Qed.

(** ** The wire protocol, read back *)

(** The bytes the server writes before the newline for the reply [hi] to the
    transcript [yo]: [encoder.encode(JSON.stringify({ text, transcript }))]. *)
Definition wire_header : list Z :=
  encode (stringify_strings [(js "text", js "hi"); (js "transcript", js "yo")]).


Definition wire_object : value :=
  Obj [(js "text", Str (js "hi")); (js "transcript", Str (js "yo"))].

Lemma wire_header_one_line : 10 ∉ wire_header.
Proof.
  intros H. vm_compute in H.
  repeat (apply elem_of_cons in H as [H|H]; [discriminate|]).
  inversion H.
Qed.

Lemma wire_header_parses texts :
  concat texts = wire_header →
  JSON_parse (decode_chunks texts) = Some wire_object.
Proof.
  intros Htexts. rewrite decode_chunks_concat, Htexts. vm_compute.
  reflexivity.
Qed.

Lemma wire_transcript s :
  field_or_empty wire_object "transcript" s = Ret (s, Normal (Str (js "yo"))).
Proof. vm_compute. reflexivity. Qed.

Lemma wire_text s :
  field_or_empty wire_object "text" s = Ret (s, Normal (Str (js "hi"))).
Proof. vm_compute. reflexivity. Qed.

Lemma wire_Header reader texts first reader' :
  scan (chunks reader) (failure reader) [] = Normal (texts, first, reader') →
  concat texts = wire_header →
  Header reader (Str (js "yo")) (Str (js "hi")) first reader'.
Proof.
  intros Hscan Htexts.
  exists texts, wire_object, (Str (js "yo")), (Str (js "hi")).
  split; [exact Hscan|]. split; [exact (wire_header_parses _ Htexts)|].
  split; [vm_compute; reflexivity|]. split; [vm_compute; reflexivity|].
  split; vm_compute; reflexivity.
Qed.

Lemma yo_spoken : trim (js "yo") ≠ [].
Proof. vm_compute. discriminate. Qed.

(** A whole turn on a response whose header is [wire_header]. *)
Lemma wire_turn reader first reader' payload audioBlob s0 tr sf out response :
  Header reader (Str (js "yo")) (Str (js "hi")) first reader' →
  default [] first ++ concat (chunks reader') = payload →
  isProcessing s0 = false →
  Runs (processUserAudio audioBlob s0) tr (sf, out) →
  fetched tr = Some (Resolved response) →
  ok response = true →
  body response = Some reader →
  (∃ pre u1 d1 u2 d2 post,
     tr = pre ++ Ent (resumed s0 pre) RandomUUID u1
              :: Ent (resumed s0 pre) NewDate d1
              :: Ent (with_user (resumed s0 pre) u1 (js "yo") d1)
                   RandomUUID u2
              :: Ent (with_user (resumed s0 pre) u1 (js "yo") d1)
                   NewDate d2
              :: post
     ∧ played pre = []
     ∧ ∃ trp sp cp,
         Runs (playStreamingAudio reader' first
                 (at_play (resumed s0 pre) u1 (js "yo") d1 u2
                    (Str (js "hi")) d2)) trp (sp, cp)
         ∧ ∃ rest, post = trp ++ rest)
  ∧ (∃ more, payload = played tr ++ more)
  ∧ (Forall (λ en, is_console en = false) tr → played tr = payload).
Proof.
  intros Hh Hpay Hp H Hf Hok Hbody.
  destruct (spoken_turn _ _ _ _ _ _ _ _ _ _ _ Hp H Hf Hok Hbody Hh
              yo_spoken)
    as (pre & u1 & d1 & u2 & d2 & trp & sp & cp & Hplay & -> & _ & Hcon
        & Hpl & _).
  destruct (Runs_playStreamingAudio _ _ _ _ _ _ Hplay) as [[more Hmore] Hall].
  unfold handed in Hmore, Hall. rewrite Hpay in Hmore, Hall.
  assert (Htail : played
            (trp ++ match cp with
                    | Normal _ => []
                    | Throw err =>
                        [Ent sp (ConsoleError "Processing error:" err) tt]
                    end) = played trp).
  { rewrite played_app. destruct cp; cbn; apply app_nil_r. }
  split; [|split].
  - exists pre, u1, d1, u2, d2. eexists. split; [reflexivity|].
    split; [exact Hpl|]. exists trp, sp, cp. split; [exact Hplay|].
    eexists. reflexivity.
  - exists more. rewrite played_app, Hpl. cbn [app played].
    rewrite Htail. exact Hmore.
  - intros Hall'. rewrite played_app, Hpl. cbn [app played]. rewrite Htail.
    apply Forall_app in Hall' as [_ Hall'].
    do 4 apply Forall_cons in Hall' as [_ Hall'].
    apply Forall_app in Hall' as [Htrp Hend].
    destruct cp as [a|err].
    + eapply Hall; [reflexivity|exact Htrp].
    + apply Forall_cons in Hend as [Hend _]. discriminate.
Qed.

Lemma scan_first_line chks fail header payload :
  concat chks = header ++ 10 :: payload → 10 ∉ header →
  ∃ texts first reader',
    scan chks fail [] = Normal (texts, first, reader')
    ∧ concat texts = header
    ∧ default [] first ++ concat (chunks reader') = payload
    ∧ failure reader' = fail.
Proof. exact (scan_split chks fail [] header payload). Qed.

(** C1. A stream that is the header [{text: hi, transcript: yo}], one
    newline and then any payload, cut into chunks in any way (inside the
    header, inside the payload, with empty chunks), possibly ending in a
    failure after the last chunk: the delimiter loop always completes with
    the same text chunks, first audio chunk and rest of the reader; the text
    line parses to the header object, whose [transcript] is [yo] and whose
    [text] is [hi]; the first audio chunk followed by the chunks still to be
    read is the payload, byte for byte. In a whole turn on such a response
    the two messages carry [yo] and [hi], nothing but payload bytes, in
    order, reaches the player, and the whole payload reaches it when the run
    wrote nothing to the console. *)
Theorem wire_round_trip (chks : list (list Z)) (fail : option thrown)
    (payload : list Z) :
  concat chks = wire_header ++ 10 :: payload →
  ∃ texts first reader',
    (∀ s tr sf out,
       Runs (readTextLine {| chunks := chks; failure := fail |} s) tr (sf, out) →
       out = Normal (texts, first, reader'))
    ∧ (∀ s, parseTextLine texts s = Ret (s, Normal wire_object))
    ∧ (∀ s, field_or_empty wire_object "transcript" s
            = Ret (s, Normal (Str (js "yo"))))
    ∧ (∀ s, field_or_empty wire_object "text" s
            = Ret (s, Normal (Str (js "hi"))))
    ∧ default [] first ++ concat (chunks reader') = payload
    ∧ failure reader' = fail
    ∧ (∀ audioBlob s0 tr sf out response,
         isProcessing s0 = false →
         Runs (processUserAudio audioBlob s0) tr (sf, out) →
         fetched tr = Some (Resolved response) →
         ok response = true →
         body response = Some {| chunks := chks; failure := fail |} →
         (∃ pre u1 d1 u2 d2 post,
            tr = pre ++ Ent (resumed s0 pre) RandomUUID u1
                     :: Ent (resumed s0 pre) NewDate d1
                     :: Ent (with_user (resumed s0 pre) u1 (js "yo") d1)
                          RandomUUID u2
                     :: Ent (with_user (resumed s0 pre) u1 (js "yo") d1)
                          NewDate d2
                     :: post
            ∧ played pre = []
            ∧ ∃ trp sp cp,
                Runs (playStreamingAudio reader' first
                        (at_play (resumed s0 pre) u1 (js "yo") d1 u2
                           (Str (js "hi")) d2)) trp (sp, cp)
                ∧ ∃ rest, post = trp ++ rest)
         ∧ (∃ more, payload = played tr ++ more)
         ∧ (Forall (λ en, is_console en = false) tr → played tr = payload)).
Proof.
  intros Hcat.
  destruct (scan_first_line chks fail wire_header payload Hcat
              wire_header_one_line)
    as (texts & first & reader' & Hscan & Htexts & Hpay & Hfail).
  pose proof (wire_header_parses _ Htexts) as Hparse.
  pose proof (wire_Header {| chunks := chks; failure := fail |} _ _ _
                Hscan Htexts) as Hh.
  exists texts, first, reader'.
  split; [|split; [|split; [|split; [|split; [|split]]]]].
  - intros s tr sf out H. unfold readTextLine in H. cbn [chunks failure] in H.
    apply Runs_readTextLine_from in H as (-> & _). exact Hscan.
  - intros s. unfold parseTextLine. rewrite Hparse. reflexivity.
  - exact wire_transcript.
  - exact wire_text.
  - exact Hpay.
  - exact Hfail.
  - intros audioBlob s0 tr sf out response. exact (wire_turn _ _ _ _ _ _ _ _ _ _ Hh Hpay).
Qed.

(** A stream cut inside the header, right after the newline and inside the
    payload, with an empty chunk and a newline among the payload bytes. *)
Definition wire_chunks : list (list Z) :=
  [[123; 34; 116; 101; 120];
   [116; 34; 58; 34; 104; 105; 34; 44; 34; 116; 114; 97; 110; 115; 99];
   [];
   [114; 105; 112; 116; 34; 58; 34; 121; 111; 34; 125; 10];
   [255; 0];
   [10; 7]].

Lemma wire_round_trip_witness :
  concat wire_chunks = wire_header ++ 10 :: [255; 0; 10; 7]
  ∧ ∃ texts first reader',
      (∀ s tr sf out,
         Runs (readTextLine {| chunks := wire_chunks; failure := None |} s)
              tr (sf, out) →
         out = Normal (texts, first, reader'))
      ∧ default [] first ++ concat (chunks reader') = [255; 0; 10; 7].
Proof.
  assert (Hcat : concat wire_chunks = wire_header ++ 10 :: [255; 0; 10; 7])
    by (vm_compute; reflexivity).
  split; [exact Hcat|].
  destruct (wire_round_trip wire_chunks None [255; 0; 10; 7] Hcat)
    as (texts & first & reader' & Hloop & _ & _ & _ & Hpay & _).
  exists texts, first, reader'. split; [exact Hloop|exact Hpay].
Defined.

(** ** Runs against a browser *)

(** Every task runs to its end against any answers: a task is a finite
    tree. *)
Lemma Runs_drive {R} (o : ∀ X, E X → X) (t : Task R) :
  Runs t (fst (drive o t)) (snd (drive o t)).
Proof.
  induction t as [r|X s e k IH]; cbn [drive Runs].
  - done.
  - specialize (IH (o X e)). destruct (drive o (k (o X e))) as [tr r].
    exists (o X e), tr. done.
Qed.

Lemma Runs_driven {A} (o : ∀ X, E X → X) (m : M A) s :
  Runs (m s) (fst (drive o (m s)))
       (fst (snd (drive o (m s))), snd (snd (drive o (m s)))).
Proof.
  pose proof (Runs_drive o (m s)) as H.
  destruct (drive o (m s)) as [tr [sf out]]. exact H.
Qed.

Definition calm : Store :=
  {| messages := []; avatarState := listening; isProcessing := false;
     isSessionActive := true; error := None; sessionId := js "session";
     currentAudio := None |}.

Definition wire_response : Fetched :=
  {| ok := true; json := Rejected SyntaxError;
     body := Some {| chunks := wire_chunks; failure := None |} |}.

Definition wire_run : list Entry * (Store * Completion unit) :=
  drive (browser (Resolved wire_response) true)
        (processUserAudio [1; 2; 3] calm).

Lemma messages_before_playback_witness :
  ∃ pre u1 d1 u2 d2 s_user s_play supported post,
    fst wire_run
    = pre ++ Ent (resumed calm pre) RandomUUID u1
          :: Ent (resumed calm pre) NewDate d1
          :: Ent s_user RandomUUID u2
          :: Ent s_user NewDate d2
          :: Ent s_play MediaSourceSupported supported :: post
    ∧ Forall (λ en, is_player en = false) pre
    ∧ played pre = []
    ∧ Forall (λ p, messages (snd p) = messages (fst p))
             (own_steps calm pre (resumed calm pre))
    ∧ messages s_user
      = messages (resumed calm pre) ++ [message u1 user (Str (js "yo")) d1]
    ∧ messages s_play
      = messages (resumed calm pre)
        ++ [message u1 user (Str (js "yo")) d1;
            message u2 assistant (Str (js "hi")) d2]
    ∧ avatarState s_play = speaking.
Proof.
  apply (messages_before_playback [1; 2; 3] calm (fst wire_run)
           (fst (snd wire_run)) (snd (snd wire_run)) wire_response
           {| chunks := wire_chunks; failure := None |}
           (Str (js "hi")) None
           {| chunks := [[255; 0]; [10; 7]]; failure := None |} (js "yo")).
  - reflexivity.
  - apply Runs_driven.
  - vm_compute. reflexivity.
  - reflexivity.
  - reflexivity.
  - apply (wire_Header _
             (firstn 3 wire_chunks
              ++ [[114; 105; 112; 116; 34; 58; 34; 121; 111; 34; 125]]));
      vm_compute; reflexivity.
  - exact yo_spoken.
Defined.

(** The greeting request of a session that has just been started, with the
    network down. *)
Definition starting : Store :=
  {| messages := []; avatarState := thinking; isProcessing := false;
     isSessionActive := true; error := None; sessionId := js "session";
     currentAudio := None |}.

Definition offline : thrown := ErrorObject (Text (js "Failed to fetch")).

Definition offline_run : list Entry * (Store * Completion unit) :=
  drive (browser (Rejected offline) true) (requestGreeting starting).

Lemma startSession_greets s :
  startSession s
  = requestGreeting
      (set_error None (set_avatarState thinking (set_isSessionActive true s))).
Proof. destruct s. reflexivity. Qed.

Lemma greeting_failure_fallback_witness :
  snd (snd offline_run) = Normal tt
  ∧ ∃ tr_b s_b c,
      Runs (greetingAttempt starting) tr_b (s_b, c)
      ∧ avatarState (fst (snd offline_run))
        = (if isSessionActive s_b then listening else idle)
      ∧ (∀ a, c = Normal a →
           fst offline_run = tr_b
           ∧ messages (fst (snd offline_run)) = messages s_b
           ∧ error (fst (snd offline_run)) = error s_b)
      ∧ (∀ err, c = Throw err →
           ∃ uuid now s_e,
             fst offline_run
             = tr_b ++ [Ent s_b (ConsoleError "Greeting error:" err) tt;
                        Ent s_e RandomUUID uuid; Ent s_e NewDate now]
             ∧ messages (fst (snd offline_run))
               = messages s_b ++ [message uuid assistant fallbackMessage now]
             ∧ error (fst (snd offline_run))
               = Some (message_or "Could not start conversation" err))
      ∧ ((∃ e, fetched tr_b = Some (Rejected e))
         ∨ (∃ r, fetched tr_b = Some (Resolved r)
                 ∧ (ok r = false ∨ body r = None)) →
         ∃ err, c = Throw err).
Proof.
  apply (greeting_failure_fallback starting (fst offline_run)
           (fst (snd offline_run)) (snd (snd offline_run))).
  apply Runs_driven.
Defined.

(** The store after that run: the fallback message alone, the error
    recorded, the avatar listening. *)
Lemma offline_greeting_store :
  fst (snd offline_run)
  = {| messages := [message (js "uuid") assistant fallbackMessage 0];
       avatarState := listening; isProcessing := false;
       isSessionActive := true;
       error := Some (Text (js "Failed to fetch"));
       sessionId := js "session"; currentAudio := None |}.
Proof. vm_compute. reflexivity. Qed.

(** ** A blank transcript (claim C4) *)

(** What [/process-audio] streams for a blank transcription. *)
Definition blank_header : list Z :=
  encode (stringify_strings [(js "text", []); (js "transcript", [])]).

Definition blank_body : Body :=
  {| chunks := [encode (stringify_strings
                          [(js "text", []); (js "transcript", [])] ++ [10])];
     failure := None |}.

Lemma blank_body_Header :
  Header blank_body (Str []) (Str []) None {| chunks := []; failure := None |}.
Proof.
  exists [blank_header], (Obj [(js "text", Str []); (js "transcript", Str [])]),
    (Str []), (Str []).
  split; [vm_compute; reflexivity|]. split; [vm_compute; reflexivity|].
  split; [vm_compute; reflexivity|]. split; [vm_compute; reflexivity|].
  split; vm_compute; reflexivity.
Qed.

(** C4. Server: a request that reaches the transcription and gets a
    transcript that is empty or only white space is answered with a stream
    of one chunk, the header line with both fields empty and its newline,
    and no byte after it. Client: in a turn whose header carries such a
    transcript (the server's blank header is one), [processUserAudio]
    returns normally having left the messages as they were in each of its
    own steps, made no interaction with the player and kept the playback
    handle; the avatar is [listening] if the session is active when the
    header has been read, [idle] otherwise, and [isProcessing] is off. *)
Theorem blank_transcript_noop :
  (∀ ai formData previous transcript,
     Api.p_formData ai = Resolved formData →
     Api.entry_falsy (Api.audio formData) = false →
     Api.previousMessages (Api.messages formData) = Some previous →
     Api.p_transcription ai = Resolved transcript →
     trim transcript = [] →
     Api.process_audio ai = Api.StreamResponse blank_body)
  ∧ concat (chunks blank_body) = blank_header ++ [10]
  ∧ (10 ∉ blank_header)
  ∧ Header blank_body (Str []) (Str []) None {| chunks := []; failure := None |}
  ∧ (∀ audioBlob s0 tr sf out response reader responseText first reader' ts,
       isProcessing s0 = false →
       Runs (processUserAudio audioBlob s0) tr (sf, out) →
       fetched tr = Some (Resolved response) →
       ok response = true → body response = Some reader →
       Header reader (Str ts) responseText first reader' →
       trim ts = [] →
       out = Normal tt
       ∧ Forall (λ p, messages (snd p) = messages (fst p)) (own_steps s0 tr sf)
       ∧ Forall (λ en, is_player en = false) tr
       ∧ avatarState sf = (if isSessionActive (resumed s0 tr)
                           then listening else idle)
       ∧ isProcessing sf = false
       ∧ currentAudio sf = currentAudio (resumed s0 tr)).
Proof.
  split; [|split; [|split; [|split]]].
  - intros ai formData previous transcript Hform Haudio Hprev Htr Hblank.
    unfold Api.process_audio. rewrite Hform, Haudio, Hprev, Htr, Hblank.
    reflexivity.
  - vm_compute. reflexivity.
  - intros H. vm_compute in H.
    repeat (apply elem_of_cons in H as [H|H]; [discriminate|]).
    inversion H.
  - exact blank_body_Header.
  - intros audioBlob s0 tr sf out response reader responseText first reader'
      ts. apply blank_transcript_client.
Qed.

(** A recording of silence with some noise: the transcription is two
    spaces. *)
Definition blank_request : Api.ProcessCalls :=
  {| Api.p_formData :=
       Resolved {| Api.audio := Api.FileEntry [1; 2; 3];
                   Api.messages := Api.Field (js "[]") |};
     Api.p_transcription := Resolved (js "  ");
     Api.p_completion := Rejected TypeError;
     Api.p_speech := Rejected TypeError;
     Api.p_taken := 0 |}.

Definition blank_response : Fetched :=
  {| ok := true; json := Rejected SyntaxError; body := Some blank_body |}.

Definition blank_run : list Entry * (Store * Completion unit) :=
  drive (browser (Resolved blank_response) true)
        (processUserAudio [1; 2; 3] calm).

Lemma blank_transcript_noop_witness :
  Api.process_audio blank_request = Api.StreamResponse blank_body
  ∧ snd (snd blank_run) = Normal tt
  ∧ Forall (λ p, messages (snd p) = messages (fst p))
           (own_steps calm (fst blank_run) (fst (snd blank_run)))
  ∧ Forall (λ en, is_player en = false) (fst blank_run)
  ∧ avatarState (fst (snd blank_run))
    = (if isSessionActive (resumed calm (fst blank_run))
       then listening else idle)
  ∧ isProcessing (fst (snd blank_run)) = false
  ∧ currentAudio (fst (snd blank_run))
    = currentAudio (resumed calm (fst blank_run)).
Proof.
  destruct blank_transcript_noop as (Hserver & _ & _ & Hh & Hclient).
  split.
  - apply (Hserver blank_request
             {| Api.audio := Api.FileEntry [1; 2; 3];
                Api.messages := Api.Field (js "[]") |}
             (Arr []) (js "  ")); vm_compute; reflexivity.
  - apply (Hclient [1; 2; 3] calm (fst blank_run) (fst (snd blank_run))
             (snd (snd blank_run)) blank_response blank_body (Str []) None
             {| chunks := []; failure := None |} []).
    + reflexivity.
    + apply Runs_driven.
    + vm_compute. reflexivity.
    + reflexivity.
    + reflexivity.
    + exact Hh.
    + reflexivity.
Defined.

End ConversationProofs.


(* ===================================================================== *)
(** * The header line, written and read back                              *)
(* ===================================================================== *)

Module WireProofs.
Import Js.

(** ** Bytes as sums *)

Lemma land_low_high a k x :
  0 ≤ k → 0 ≤ x < 2 ^ k → Z.land (a * 2 ^ k) x = 0.
Proof.
  intros Hk Hx. apply Z.bits_inj'. intros n Hn.
  rewrite Z.land_spec, Z.bits_0.
  destruct (Z.lt_ge_cases n k) as [Hlt|Hge].
  - rewrite Z.mul_pow2_bits_low by lia. reflexivity.
  - destruct (Z.eq_dec x 0) as [->|Hx0].
    + rewrite Z.bits_0. apply andb_false_r.
    + rewrite (Z.bits_above_log2 x n); [apply andb_false_r|lia|].
      apply Z.log2_lt_pow2; [lia|].
      apply Z.lt_le_trans with (2 ^ k); [lia|].
      apply Z.pow_le_mono_r; lia.
Qed.

Lemma lor_high_low a k x :
  0 ≤ k → 0 ≤ x < 2 ^ k → Z.lor (a * 2 ^ k) x = a * 2 ^ k + x.
Proof.
  intros Hk Hx. pose proof (land_low_high a k x Hk Hx) as H.
  rewrite <- Z.lxor_lor by exact H. symmetry.
  apply Z.add_nocarry_lxor. exact H.
Qed.

Ltac bytes :=
  repeat match goal with
  | |- context [Z.shiftr ?x ?k] =>
      rewrite (Z.shiftr_div_pow2 x k) by lia
  | |- context [Z.shiftl ?x ?k] =>
      rewrite (Z.shiftl_mul_pow2 x k) by lia
  | |- context [Z.land ?x 63] =>
      change (Z.land x 63) with (Z.land x (Z.ones 6));
      rewrite (Z.land_ones x 6) by lia
  | |- context [Z.land ?x 31] =>
      change (Z.land x 31) with (Z.land x (Z.ones 5));
      rewrite (Z.land_ones x 5) by lia
  | |- context [Z.land ?x 15] =>
      change (Z.land x 15) with (Z.land x (Z.ones 4));
      rewrite (Z.land_ones x 4) by lia
  | |- context [Z.land ?x 7] =>
      change (Z.land x 7) with (Z.land x (Z.ones 3));
      rewrite (Z.land_ones x 3) by lia
  | |- context [Z.land ?x 1023] =>
      change (Z.land x 1023) with (Z.land x (Z.ones 10));
      rewrite (Z.land_ones x 10) by lia
  end;
  change (2 ^ 3) with 8; change (2 ^ 4) with 16; change (2 ^ 5) with 32;
  change (2 ^ 6) with 64; change (2 ^ 10) with 1024;
  change (2 ^ 12) with 4096; change (2 ^ 18) with 262144.

Lemma lor_128 x : 0 ≤ x < 64 → Z.lor 128 x = 128 + x.
Proof. intros H. apply (lor_high_low 2 6 x); lia. Qed.

Lemma lor_192 x : 0 ≤ x < 32 → Z.lor 192 x = 192 + x.
Proof. intros H. apply (lor_high_low 6 5 x); lia. Qed.

Lemma lor_224 x : 0 ≤ x < 16 → Z.lor 224 x = 224 + x.
Proof. intros H. apply (lor_high_low 14 4 x); lia. Qed.

Lemma lor_240 x : 0 ≤ x < 8 → Z.lor 240 x = 240 + x.
Proof. intros H. apply (lor_high_low 30 3 x); lia. Qed.

Lemma lor_shifted c x : 0 ≤ x < 64 → Z.lor (c * 64) x = c * 64 + x.
Proof. intros H. apply (lor_high_low c 6 x); lia. Qed.

(** ** UTF-8, one code point at a time *)

Lemma utf8_1 cp : 0 ≤ cp < 128 → utf8 cp = [cp].
Proof. intros H. unfold utf8. destruct (Z.ltb_spec cp 128); [done|lia]. Qed.

Lemma utf8_2 cp :
  128 ≤ cp < 2048 → utf8 cp = [192 + cp / 64; 128 + cp mod 64].
Proof.
  intros H. unfold utf8.
  destruct (Z.ltb_spec cp 128); [lia|].
  destruct (Z.ltb_spec cp 2048); [|lia]. bytes.
  rewrite lor_192, lor_128 by (Z.div_mod_to_equations; lia). reflexivity.
Qed.

Lemma utf8_3 cp :
  2048 ≤ cp < 65536 →
  utf8 cp = [224 + cp / 4096; 128 + (cp / 64) mod 64; 128 + cp mod 64].
Proof.
  intros H. unfold utf8.
  destruct (Z.ltb_spec cp 128); [lia|].
  destruct (Z.ltb_spec cp 2048); [lia|].
  destruct (Z.ltb_spec cp 65536); [|lia]. bytes.
  rewrite lor_224, !lor_128 by (Z.div_mod_to_equations; lia). reflexivity.
Qed.

Lemma utf8_4 cp :
  65536 ≤ cp < 1114112 →
  utf8 cp = [240 + cp / 262144; 128 + (cp / 4096) mod 64;
             128 + (cp / 64) mod 64; 128 + cp mod 64].
Proof.
  intros H. unfold utf8.
  destruct (Z.ltb_spec cp 128); [lia|].
  destruct (Z.ltb_spec cp 2048); [lia|].
  destruct (Z.ltb_spec cp 65536); [lia|]. bytes.
  rewrite lor_240, !lor_128 by (Z.div_mod_to_equations; lia). reflexivity.
Qed.

(** The decoder between two code points, past the first one. *)
Definition at_rest : decoder :=
  {| code_point := 0; bytes_seen := 0; bytes_needed := 0;
     lower_boundary := 128; upper_boundary := 191; bom_seen := true |}.

Lemma emit_seen d cp : bom_seen d = true → emit_point d cp = (d, utf16 cp).
Proof. destruct d. cbn. intros ->. reflexivity. Qed.

Lemma decode_silent d b d1 rest :
  decode_byte d b = (d1, []) →
  decode_stream d (b :: rest) = decode_stream d1 rest.
Proof.
  intros H. cbn [decode_stream]. rewrite H. cbn [emit_points].
  destruct (decode_stream d1 rest). reflexivity.
Qed.

Lemma decode_emit d b d1 cp rest :
  decode_byte d b = (d1, [cp]) → bom_seen d1 = true →
  decode_stream d (b :: rest)
  = (let '(d3, out) := decode_stream d1 rest in (d3, utf16 cp ++ out)).
Proof.
  intros H Hb. cbn [decode_stream]. rewrite H. cbn [emit_points].
  rewrite (emit_seen _ _ Hb). destruct (decode_stream d1 rest).
  rewrite app_nil_r. reflexivity.
Qed.

Ltac zb :=
  match goal with
  | |- context [?a <=? ?b] =>
      destruct (Z.leb_spec a b); try (exfalso; lia)
  | |- context [?a <? ?b] =>
      destruct (Z.ltb_spec a b); try (exfalso; lia)
  | |- context [?a =? ?b] =>
      destruct (Z.eqb_spec a b); try (exfalso; lia)
  end.

Lemma lead_1 b : 0 ≤ b < 128 → decode_byte at_rest b = (at_rest, [b]).
Proof. intros H. cbn. unfold lead_byte. zb. reflexivity. Qed.

Lemma lead_2 h :
  2 ≤ h < 32 → decode_byte at_rest (192 + h) = (expect at_rest 1 h 128 191, []).
Proof.
  intros H. cbn. unfold lead_byte. repeat (zb; cbn [andb]).
  bytes. replace ((192 + h) mod 32) with h
    by (Z.div_mod_to_equations; lia). reflexivity.
Qed.

Lemma lead_3 h :
  0 ≤ h < 16 →
  decode_byte at_rest (224 + h)
  = (expect at_rest 2 h (if h =? 0 then 160 else 128)
       (if h =? 13 then 159 else 191), []).
Proof.
  intros H. cbn. unfold lead_byte.
  destruct (Z.leb_spec (224 + h) 127); [lia|].
  destruct (Z.leb_spec (224 + h) 223); [lia|]. rewrite andb_false_r.
  destruct (Z.leb_spec 224 (224 + h)); [|lia].
  destruct (Z.leb_spec (224 + h) 239); [|lia]. cbn [andb].
  bytes. replace ((224 + h) mod 16) with h
    by (Z.div_mod_to_equations; lia).
  replace (224 + h =? 224) with (h =? 0) by (repeat zb; reflexivity).
  replace (224 + h =? 237) with (h =? 13) by (repeat zb; reflexivity).
  reflexivity.
Qed.

Lemma lead_4 h :
  0 ≤ h ≤ 4 →
  decode_byte at_rest (240 + h)
  = (expect at_rest 3 h (if h =? 0 then 144 else 128)
       (if h =? 4 then 143 else 191), []).
Proof.
  intros H. cbn. unfold lead_byte.
  destruct (Z.leb_spec (240 + h) 127); [lia|].
  destruct (Z.leb_spec (240 + h) 223); [lia|]. rewrite andb_false_r.
  destruct (Z.leb_spec (240 + h) 239); [lia|]. rewrite andb_false_r.
  destruct (Z.leb_spec 240 (240 + h)); [|lia].
  destruct (Z.leb_spec (240 + h) 244); [|lia]. cbn [andb].
  bytes. replace ((240 + h) mod 8) with h
    by (Z.div_mod_to_equations; lia).
  replace (240 + h =? 240) with (h =? 0) by (repeat zb; reflexivity).
  replace (240 + h =? 244) with (h =? 4) by (repeat zb; reflexivity).
  reflexivity.
Qed.

(** A continuation byte within the bounds the lead byte set. *)
Lemma continuation d l :
  bytes_needed d ≠ 0 → 0 ≤ l < 64 →
  lower_boundary d ≤ 128 + l ≤ upper_boundary d →
  decode_byte d (128 + l)
  = if bytes_seen d + 1 =? bytes_needed d
    then (reset d, [code_point d * 64 + l])
    else ({| code_point := code_point d * 64 + l;
             bytes_seen := bytes_seen d + 1;
             bytes_needed := bytes_needed d;
             lower_boundary := 128; upper_boundary := 191;
             bom_seen := bom_seen d |}, []).
Proof.
  intros Hn Hl Hb. unfold decode_byte.
  destruct (Z.eqb_spec (bytes_needed d) 0); [done|].
  destruct (Z.leb_spec (lower_boundary d) (128 + l)); [|lia].
  destruct (Z.leb_spec (128 + l) (upper_boundary d)); [|lia]. cbn [andb].
  bytes. replace ((128 + l) mod 64) with l
    by (Z.div_mod_to_equations; lia).
  rewrite lor_shifted by lia. reflexivity.
Qed.

(** Unicode scalar values: code points that are not surrogates. *)
Definition scalar (cp : Z) : Prop :=
  0 ≤ cp < 55296 ∨ 57344 ≤ cp < 1114112.

Lemma continuation_last d l rest :
  bytes_needed d ≠ 0 → bytes_seen d + 1 = bytes_needed d →
  0 ≤ l < 64 → lower_boundary d ≤ 128 + l ≤ upper_boundary d →
  bom_seen d = true →
  decode_stream d ((128 + l) :: rest)
  = (let '(d3, out) := decode_stream (reset d) rest in
     (d3, utf16 (code_point d * 64 + l) ++ out)).
Proof.
  intros Hn Hs Hl Hb Hbom. apply decode_emit; [|exact Hbom].
  rewrite continuation by assumption.
  destruct (Z.eqb_spec (bytes_seen d + 1) (bytes_needed d)); [done|lia].
Qed.

Lemma continuation_more d l rest :
  bytes_needed d ≠ 0 → bytes_seen d + 1 ≠ bytes_needed d →
  0 ≤ l < 64 → lower_boundary d ≤ 128 + l ≤ upper_boundary d →
  decode_stream d ((128 + l) :: rest)
  = decode_stream
      {| code_point := code_point d * 64 + l;
         bytes_seen := bytes_seen d + 1;
         bytes_needed := bytes_needed d;
         lower_boundary := 128; upper_boundary := 191;
         bom_seen := bom_seen d |} rest.
Proof.
  intros Hn Hs Hl Hb. apply decode_silent.
  rewrite continuation by assumption.
  destruct (Z.eqb_spec (bytes_seen d + 1) (bytes_needed d)); [lia|done].
Qed.

(** The decoder reads back what the encoder wrote for one scalar value. *)
Lemma decode_scalar cp rest :
  scalar cp →
  decode_stream at_rest (utf8 cp ++ rest)
  = (let '(d, out) := decode_stream at_rest rest in (d, utf16 cp ++ out)).
Proof.
  intros Hs.
  assert (Hcases : 0 ≤ cp < 128 ∨ 128 ≤ cp < 2048
                   ∨ (2048 ≤ cp < 65536 ∧ ¬ 55296 ≤ cp < 57344)
                   ∨ 65536 ≤ cp < 1114112) by (unfold scalar in Hs; lia).
  destruct Hcases as [H|[H|[[H Hns]|H]]].
  - rewrite utf8_1 by exact H. cbn [app].
    apply decode_emit; [apply lead_1; exact H|reflexivity].
  - rewrite utf8_2 by exact H. cbn [app].
    rewrite (decode_silent _ _ _ _ (lead_2 (cp / 64)
               ltac:(Z.div_mod_to_equations; lia))).
    rewrite continuation_last
      by (cbn; first [reflexivity | Z.div_mod_to_equations; lia]).
    cbn [reset expect code_point bytes_seen bytes_needed lower_boundary
           upper_boundary bom_seen at_rest]. fold at_rest. replace (cp / 64 * 64 + cp mod 64) with cp
      by (Z.div_mod_to_equations; lia). reflexivity.
  - rewrite utf8_3 by exact H. cbn [app].
    rewrite (decode_silent _ _ _ _ (lead_3 (cp / 4096)
               ltac:(Z.div_mod_to_equations; lia))).
    rewrite continuation_more
      by (cbn; repeat zb; Z.div_mod_to_equations; lia).
    rewrite continuation_last
      by (cbn; first [reflexivity | Z.div_mod_to_equations; lia]).
    cbn [reset expect code_point bytes_seen bytes_needed lower_boundary
           upper_boundary bom_seen at_rest]. fold at_rest.
    replace ((cp / 4096 * 64 + (cp / 64) mod 64) * 64 + cp mod 64) with cp
      by (Z.div_mod_to_equations; lia). reflexivity.
  - rewrite utf8_4 by exact H. cbn [app].
    rewrite (decode_silent _ _ _ _ (lead_4 (cp / 262144)
               ltac:(Z.div_mod_to_equations; lia))).
    rewrite continuation_more
      by (cbn; repeat zb; Z.div_mod_to_equations; lia).
    rewrite continuation_more by (cbn; Z.div_mod_to_equations; lia).
    rewrite continuation_last
      by (cbn; first [reflexivity | Z.div_mod_to_equations; lia]).
    cbn [reset expect code_point bytes_seen bytes_needed lower_boundary
           upper_boundary bom_seen at_rest]. fold at_rest.
    replace (((cp / 262144 * 64 + (cp / 4096) mod 64) * 64
              + (cp / 64) mod 64) * 64 + cp mod 64) with cp
      by (Z.div_mod_to_equations; lia). reflexivity.
Qed.

(** ** Strings of code units *)

(** A code unit of a JavaScript string. *)
Definition unit16 (c : Z) : Prop := 0 ≤ c < 65536.

(** No surrogate on its own: what [encode] writes without loss. *)
Fixpoint paired (s : list Z) : bool :=
  match s with
  | [] => true
  | c :: rest =>
      if is_high c then
        match rest with
        | c2 :: rest' => is_low c2 && paired rest'
        | [] => false
        end
      else negb (is_low c) && paired rest
  end.

(** A code unit that does not open a surrogate pair. *)
Definition lone (c : Z) (rest : list Z) : Prop :=
  is_high c = false
  ∨ match rest with c2 :: _ => is_low c2 = false | [] => True end.

(** Induction along the way [encode] and [escape] walk a string. *)
Lemma units_ind (P : list Z → Prop) :
  P [] →
  (∀ c c2 rest,
     is_high c = true → is_low c2 = true → P rest → P (c :: c2 :: rest)) →
  (∀ c rest, lone c rest → P rest → P (c :: rest)) →
  ∀ s, P s.
Proof.
  intros Hnil Hpair Hlone s.
  induction s as [s IH] using (well_founded_induction
                                 (well_founded_ltof _ (@length Z))).
  unfold ltof in IH. destruct s as [|c rest]; [exact Hnil|].
  destruct (is_high c) eqn:Hh.
  - destruct rest as [|c2 rest'].
    + apply Hlone; [right; exact I|exact Hnil].
    + destruct (is_low c2) eqn:Hl.
      * apply Hpair; [exact Hh|exact Hl|]. apply IH. cbn. lia.
      * apply Hlone; [right; exact Hl|]. apply IH. cbn. lia.
  - apply Hlone; [left; exact Hh|]. apply IH. cbn. lia.
Qed.

Definition surrogate (c : Z) : bool := is_high c || is_low c.

Lemma encode_pair c c2 rest :
  is_high c = true → is_low c2 = true →
  encode (c :: c2 :: rest)
  = utf8 (65536 + Z.shiftl (c - 55296) 10 + (c2 - 56320)) ++ encode rest.
Proof. intros Hh Hl. cbn [encode]. rewrite Hh, Hl. reflexivity. Qed.

Lemma encode_lone c rest :
  lone c rest →
  encode (c :: rest) = utf8 (if surrogate c then 65533 else c) ++ encode rest.
Proof.
  unfold surrogate. intros [Hh|Hl]; cbn [encode].
  - rewrite Hh. cbn [orb]. destruct (is_low c); reflexivity.
  - destruct (is_high c); cbn [orb]; [|destruct (is_low c); reflexivity].
    destruct rest as [|c2 rest']; [rewrite app_nil_r; reflexivity|].
    rewrite Hl. reflexivity.
Qed.

Lemma escape_pair c c2 rest :
  is_high c = true → is_low c2 = true →
  escape (c :: c2 :: rest) = c :: c2 :: escape rest.
Proof. intros Hh Hl. cbn [escape]. rewrite Hh, Hl. reflexivity. Qed.

Lemma escape_lone c rest :
  lone c rest →
  escape (c :: rest)
  = (if surrogate c then unicode_escape c else escape_unit c) ++ escape rest.
Proof.
  unfold surrogate. intros [Hh|Hl]; cbn [escape].
  - rewrite Hh. cbn [orb]. destruct (is_low c); reflexivity.
  - destruct (is_high c); cbn [orb]; [|destruct (is_low c); reflexivity].
    destruct rest as [|c2 rest']; [rewrite app_nil_r; reflexivity|].
    rewrite Hl. reflexivity.
Qed.

Lemma paired_pair c c2 rest :
  is_high c = true → is_low c2 = true →
  paired (c :: c2 :: rest) = paired rest.
Proof. intros Hh Hl. cbn [paired]. rewrite Hh, Hl. reflexivity. Qed.

Lemma paired_lone c rest :
  lone c rest → paired (c :: rest) = negb (surrogate c) && paired rest.
Proof.
  unfold surrogate. intros [Hh|Hl]; cbn [paired].
  - rewrite Hh. reflexivity.
  - destruct (is_high c); cbn [orb negb andb]; [|reflexivity].
    destruct rest as [|c2 rest']; [reflexivity|]. rewrite Hl. reflexivity.
Qed.

Lemma paired_app a : ∀ b, paired a = true → paired (a ++ b) = paired b.
Proof.
  induction a as [|c c2 rest Hh Hl IH|c rest Hlone IH] using units_ind;
    intros b H.
  - reflexivity.
  - rewrite paired_pair in H by assumption.
    change ((c :: c2 :: rest) ++ b) with (c :: c2 :: (rest ++ b)).
    rewrite paired_pair by assumption. apply IH. exact H.
  - rewrite paired_lone in H by assumption.
    apply andb_true_iff in H as [Hc H].
    change ((c :: rest) ++ b) with (c :: (rest ++ b)).
    assert (Hlone' : lone c (rest ++ b)).
    { unfold surrogate in Hc. apply negb_true_iff, orb_false_iff in Hc.
      left. apply Hc. }
    rewrite paired_lone by exact Hlone'. rewrite Hc. cbn [andb].
    apply IH. exact H.
Qed.

Lemma encode_app a : ∀ b,
  paired a = true → encode (a ++ b) = encode a ++ encode b.
Proof.
  induction a as [|c c2 rest Hh Hl IH|c rest Hlone IH] using units_ind;
    intros b H.
  - reflexivity.
  - rewrite paired_pair in H by assumption.
    change ((c :: c2 :: rest) ++ b) with (c :: c2 :: (rest ++ b)).
    rewrite !encode_pair by assumption. rewrite IH by exact H.
    apply app_assoc.
  - rewrite paired_lone in H by assumption.
    apply andb_true_iff in H as [Hc H].
    change ((c :: rest) ++ b) with (c :: (rest ++ b)).
    assert (Hlone' : lone c (rest ++ b)).
    { unfold surrogate in Hc. apply negb_true_iff, orb_false_iff in Hc.
      left. apply Hc. }
    rewrite (encode_lone c rest), (encode_lone c (rest ++ b)) by assumption.
    rewrite IH by exact H. apply app_assoc.
Qed.

Lemma is_high_range c : is_high c = true ↔ 55296 ≤ c ≤ 56319.
Proof. unfold is_high. rewrite andb_true_iff, !Z.leb_le. reflexivity. Qed.

Lemma is_low_range c : is_low c = true ↔ 56320 ≤ c ≤ 57343.
Proof. unfold is_low. rewrite andb_true_iff, !Z.leb_le. reflexivity. Qed.

Lemma not_surrogate c :
  surrogate c = false ↔ ¬ 55296 ≤ c ≤ 57343.
Proof.
  unfold surrogate. rewrite orb_false_iff.
  pose proof (is_high_range c). pose proof (is_low_range c).
  destruct (is_high c), (is_low c); intuition (try discriminate; try lia).
Qed.

(** [decoder.decode(encoder.encode(s), { stream: true })] past the start
    of the text gives [s] back when no surrogate of [s] is on its own. *)
Lemma decode_encode s : ∀ rest,
  Forall unit16 s → paired s = true →
  decode_stream at_rest (encode s ++ rest)
  = (let '(d, out) := decode_stream at_rest rest in (d, s ++ out)).
Proof.
  induction s as [|c c2 s Hh Hl IH|c s Hlone IH] using units_ind;
    intros rest Hu Hp.
  - cbn. destruct (decode_stream at_rest rest). reflexivity.
  - rewrite paired_pair in Hp by assumption.
    apply Forall_cons in Hu as [_ Hu]. apply Forall_cons in Hu as [_ Hu].
    rewrite encode_pair by assumption. rewrite <- app_assoc.
    apply is_high_range in Hh. apply is_low_range in Hl.
    rewrite decode_scalar.
    2:{ right. rewrite Z.shiftl_mul_pow2 by lia.
        change (2 ^ 10) with 1024. lia. }
    rewrite IH by assumption. destruct (decode_stream at_rest rest) as [d out].
    f_equal. unfold utf16.
    rewrite Z.shiftl_mul_pow2 by lia. change (2 ^ 10) with 1024.
    destruct (Z.ltb_spec (65536 + (c - 55296) * 1024 + (c2 - 56320)) 65536);
      [lia|]. bytes. cbn [app]. f_equal; [|f_equal].
    + Z.div_mod_to_equations. lia.
    + Z.div_mod_to_equations. lia.
  - rewrite paired_lone in Hp by assumption.
    apply andb_true_iff in Hp as [Hc Hp]. apply negb_true_iff in Hc.
    apply Forall_cons in Hu as [Hcu Hu]. unfold unit16 in Hcu.
    rewrite encode_lone by assumption. rewrite Hc, <- app_assoc.
    apply not_surrogate in Hc.
    rewrite decode_scalar by (unfold scalar; lia).
    rewrite IH by assumption. destruct (decode_stream at_rest rest) as [d out].
    unfold utf16. destruct (Z.ltb_spec c 65536); [reflexivity|lia].
Qed.

Lemma emit_first c :
  c ≠ 65279 → emit_point new_TextDecoder c = (at_rest, utf16 c).
Proof.
  intros Hc. unfold emit_point. cbn [bom_seen new_TextDecoder negb andb].
  destruct (Z.eqb_spec c 65279); [done|]. reflexivity.
Qed.

(** The whole text, from a fresh decoder, when it begins with an ASCII
    character (so not with a byte order mark). *)
Lemma decode_chunks_encode c s :
  0 ≤ c < 128 → Forall unit16 s → paired s = true →
  decode_chunks [encode (c :: s)] = c :: s.
Proof.
  intros Hc Hu Hp.
  assert (Hlone : lone c s).
  { left. unfold is_high. apply andb_false_iff. left. apply Z.leb_gt. lia. }
  rewrite encode_lone by exact Hlone.
  assert (Hns : surrogate c = false) by (apply not_surrogate; lia).
  rewrite Hns, utf8_1 by exact Hc.
  unfold decode_chunks. cbn [decode_from app decode_stream].
  unfold decode_byte, lead_byte. cbn [bytes_needed new_TextDecoder].
  cbn [Z.eqb]. destruct (Z.leb_spec c 127); [|lia].
  cbn [emit_points]. rewrite emit_first by lia.
  pose proof (decode_encode s [] Hu Hp) as Hde. rewrite app_nil_r in Hde.
  rewrite Hde. cbn [decode_stream]. unfold utf16.
  destruct (Z.ltb_spec c 65536); [|lia].
  cbn. rewrite !app_nil_r. reflexivity.
Qed.

(** ** JSON strings, quoted and read back *)

Lemma hex_value_digit n : 0 ≤ n < 16 → hex_value (hex_digit n) = Some n.
Proof.
  intros H. unfold hex_digit, hex_value.
  destruct (Z.ltb_spec n 10).
  - destruct (Z.leb_spec 48 (48 + n)); [|lia].
    destruct (Z.leb_spec (48 + n) 57); [|lia]. cbn [andb]. f_equal. lia.
  - destruct (Z.leb_spec 48 (87 + n)); [|lia].
    destruct (Z.leb_spec (87 + n) 57); [lia|]. cbn [andb].
    destruct (Z.leb_spec 97 (87 + n)); [|lia].
    destruct (Z.leb_spec (87 + n) 102); [|lia]. cbn [andb]. f_equal. lia.
Qed.

Lemma parse_unicode_escape c rest acc :
  unit16 c →
  parse_chars (unicode_escape c ++ rest) acc = parse_chars rest (c :: acc).
Proof.
  unfold unit16. intros Hc. unfold unicode_escape. cbn [app parse_chars].
  cbn [Z.eqb Pos.eqb]. unfold hex4. bytes.
  change (2 ^ 8) with 256.
  rewrite !hex_value_digit by (Z.div_mod_to_equations; lia).
  do 2 f_equal. Z.div_mod_to_equations. lia.
Qed.

Lemma parse_plain c rest acc :
  c ≠ 34 → c ≠ 92 → 32 ≤ c →
  parse_chars (c :: rest) acc = parse_chars rest (c :: acc).
Proof.
  intros H1 H2 H3. cbn [parse_chars].
  destruct (Z.eqb_spec c 34); [done|]. destruct (Z.eqb_spec c 92); [done|].
  destruct (Z.ltb_spec c 32); [lia|]. reflexivity.
Qed.

Lemma parse_escape_unit c rest acc :
  unit16 c →
  parse_chars (escape_unit c ++ rest) acc = parse_chars rest (c :: acc).
Proof.
  intros Hc. unfold escape_unit.
  destruct (Z.eqb_spec c 8) as [->|]; [reflexivity|].
  destruct (Z.eqb_spec c 9) as [->|]; [reflexivity|].
  destruct (Z.eqb_spec c 10) as [->|]; [reflexivity|].
  destruct (Z.eqb_spec c 12) as [->|]; [reflexivity|].
  destruct (Z.eqb_spec c 13) as [->|]; [reflexivity|].
  destruct (Z.eqb_spec c 34) as [->|]; [reflexivity|].
  destruct (Z.eqb_spec c 92) as [->|]; [reflexivity|].
  destruct (Z.ltb_spec c 32).
  - apply parse_unicode_escape. exact Hc.
  - apply parse_plain; assumption.
Qed.

(** [JSON.parse] reads a string literal back as the string that
    [JSON.stringify] quoted, whatever its code units. *)
Lemma parse_escape s : ∀ rest acc,
  Forall unit16 s →
  parse_chars (escape s ++ 34 :: rest) acc = Some (rev acc ++ s, rest).
Proof.
  induction s as [|c c2 s Hh Hl IH|c s Hlone IH] using units_ind;
    intros rest acc Hu.
  - cbn. rewrite app_nil_r. reflexivity.
  - apply Forall_cons in Hu as [_ Hu]. apply Forall_cons in Hu as [_ Hu].
    rewrite escape_pair by assumption. cbn [app].
    apply is_high_range in Hh. apply is_low_range in Hl.
    rewrite !parse_plain by lia. rewrite IH by exact Hu.
    cbn [rev]. rewrite <- !app_assoc. reflexivity.
  - apply Forall_cons in Hu as [Hc Hu].
    rewrite escape_lone by assumption. rewrite <- app_assoc.
    destruct (surrogate c).
    + rewrite parse_unicode_escape by exact Hc. rewrite IH by exact Hu.
      cbn [rev]. rewrite <- app_assoc. reflexivity.
    + rewrite parse_escape_unit by exact Hc. rewrite IH by exact Hu.
      cbn [rev]. rewrite <- app_assoc. reflexivity.
Qed.

(** ** What [JSON.stringify] writes *)

(** Text that [encode] and the decoder carry unchanged and that holds no
    line feed. *)
Definition clean (s : list Z) : Prop :=
  Forall unit16 s ∧ paired s = true ∧ 10 ∉ s.

Lemma clean_nil : clean [].
Proof. split; [constructor|]. split; [reflexivity|]. apply not_elem_of_nil. Qed.

Lemma clean_app a b : clean a → clean b → clean (a ++ b).
Proof.
  intros (Ha1 & Ha2 & Ha3) (Hb1 & Hb2 & Hb3). split; [|split].
  - apply Forall_app. done.
  - rewrite paired_app by exact Ha2. exact Hb2.
  - rewrite elem_of_app. tauto.
Qed.

Lemma clean_plain c : unit16 c → surrogate c = false → c ≠ 10 → clean [c].
Proof.
  intros Hu Hs Hc. split; [|split].
  - constructor; [exact Hu|constructor].
  - unfold surrogate in Hs. apply orb_false_iff in Hs as [Hh Hl].
    cbn. rewrite Hh, Hl. reflexivity.
  - rewrite list_elem_of_singleton. congruence.
Qed.

Lemma clean_cons c s :
  unit16 c → surrogate c = false → c ≠ 10 → clean s → clean (c :: s).
Proof. intros. apply (clean_app [c]); [apply clean_plain|]; assumption. Qed.

Lemma clean_pair c c2 :
  is_high c = true → is_low c2 = true → clean [c; c2].
Proof.
  intros Hh Hl. split; [|split].
  - apply is_high_range in Hh. apply is_low_range in Hl.
    constructor; [unfold unit16; lia|].
    constructor; [unfold unit16; lia|constructor].
  - cbn. rewrite Hh, Hl. reflexivity.
  - apply is_high_range in Hh. apply is_low_range in Hl.
    rewrite !elem_of_cons, elem_of_nil. lia.
Qed.

Lemma hex_digit_plain n :
  0 ≤ n < 16 →
  unit16 (hex_digit n) ∧ surrogate (hex_digit n) = false ∧ hex_digit n ≠ 10.
Proof.
  intros H. unfold hex_digit. destruct (Z.ltb_spec n 10);
    (split; [unfold unit16; lia|]); (split; [apply not_surrogate; lia|lia]).
Qed.

Lemma clean_unicode_escape c : unit16 c → clean (unicode_escape c).
Proof.
  unfold unit16. intros Hc. unfold unicode_escape. bytes.
  change (2 ^ 8) with 256.
  apply clean_cons; [unfold unit16; lia|reflexivity|lia|].
  apply clean_cons; [unfold unit16; lia|reflexivity|lia|].
  repeat (apply clean_cons;
          [apply hex_digit_plain; Z.div_mod_to_equations; lia
          |apply hex_digit_plain; Z.div_mod_to_equations; lia
          |apply hex_digit_plain; Z.div_mod_to_equations; lia|]).
  apply clean_nil.
Qed.

Lemma clean_escape_unit c :
  unit16 c → surrogate c = false → clean (escape_unit c).
Proof.
  intros Hc Hs. unfold escape_unit.
  repeat match goal with
  | |- context [c =? ?k] =>
      destruct (Z.eqb_spec c k);
      [repeat (apply clean_cons;
               [unfold unit16; lia|reflexivity|lia|]); apply clean_nil|]
  end.
  destruct (Z.ltb_spec c 32).
  - apply clean_unicode_escape. exact Hc.
  - apply clean_plain; assumption.
Qed.

Lemma clean_escape s : Forall unit16 s → clean (escape s).
Proof.
  induction s as [|c c2 s Hh Hl IH|c s Hlone IH] using units_ind; intros Hu.
  - apply clean_nil.
  - apply Forall_cons in Hu as [_ Hu]. apply Forall_cons in Hu as [_ Hu].
    rewrite escape_pair by assumption.
    apply (clean_app [c; c2]); [apply clean_pair; assumption|auto].
  - apply Forall_cons in Hu as [Hc Hu].
    rewrite escape_lone by assumption. apply clean_app; [|auto].
    destruct (surrogate c) eqn:Hs.
    + apply clean_unicode_escape. exact Hc.
    + apply clean_escape_unit; assumption.
Qed.

Lemma clean_quote s : Forall unit16 s → clean (quote s).
Proof.
  intros Hu. unfold quote.
  apply clean_cons; [unfold unit16; lia|reflexivity|lia|].
  apply clean_app; [apply clean_escape; exact Hu|].
  apply clean_plain; [unfold unit16; lia|reflexivity|lia].
Qed.

(** The fields of an object: two strings each. *)
Definition units (kv : list Z * list Z) : Prop :=
  Forall unit16 (fst kv) ∧ Forall unit16 (snd kv).

Lemma clean_stringify_fields fields :
  Forall units fields → clean (stringify_fields fields).
Proof.
  induction fields as [|[k v] fields IH]; intros Hf; [apply clean_nil|].
  apply Forall_cons in Hf as [[Hk Hv] Hf]. cbn [fst snd] in Hk, Hv.
  assert (Hone : clean (quote k ++ 58 :: quote v)).
  { apply clean_app; [apply clean_quote; exact Hk|].
    apply clean_cons; [unfold unit16; lia|reflexivity|lia|].
    apply clean_quote; exact Hv. }
  destruct fields as [|kv fields]; [exact Hone|].
  change (stringify_fields ((k, v) :: kv :: fields))
    with (quote k ++ 58 :: quote v ++ 44 :: stringify_fields (kv :: fields)).
  apply clean_app; [apply clean_quote; exact Hk|].
  apply clean_cons; [unfold unit16; lia|reflexivity|lia|].
  apply clean_app; [apply clean_quote; exact Hv|].
  apply clean_cons; [unfold unit16; lia|reflexivity|lia|].
  apply IH. exact Hf.
Qed.

Lemma clean_stringify fields :
  Forall units fields → clean (stringify_fields fields ++ [125]).
Proof.
  intros Hf. apply clean_app; [apply clean_stringify_fields; exact Hf|].
  apply clean_plain; [unfold unit16; lia|reflexivity|lia].
Qed.

(** ** No line feed in the bytes *)

Lemma utf8_no_newline cp : 0 ≤ cp < 1114112 → cp ≠ 10 → 10 ∉ utf8 cp.
Proof.
  intros H Hc.
  assert (Hcases : 0 ≤ cp < 128 ∨ 128 ≤ cp < 2048 ∨ 2048 ≤ cp < 65536
                   ∨ 65536 ≤ cp < 1114112) by lia.
  destruct Hcases as [H1|[H2|[H3|H4]]].
  - rewrite utf8_1 by exact H1. rewrite list_elem_of_singleton. congruence.
  - rewrite utf8_2 by exact H2. rewrite !elem_of_cons, elem_of_nil.
    Z.div_mod_to_equations. lia.
  - rewrite utf8_3 by exact H3. rewrite !elem_of_cons, elem_of_nil.
    Z.div_mod_to_equations. lia.
  - rewrite utf8_4 by exact H4. rewrite !elem_of_cons, elem_of_nil.
    Z.div_mod_to_equations. lia.
Qed.

Lemma encode_no_newline s : Forall unit16 s → 10 ∉ s → 10 ∉ encode s.
Proof.
  induction s as [|c c2 s Hh Hl IH|c s Hlone IH] using units_ind;
    intros Hu Hn.
  - apply not_elem_of_nil.
  - apply Forall_cons in Hu as [_ Hu]. apply Forall_cons in Hu as [_ Hu].
    rewrite encode_pair by assumption. rewrite elem_of_app.
    apply is_high_range in Hh. apply is_low_range in Hl.
    intros [Hin|Hin].
    + revert Hin. apply utf8_no_newline;
        rewrite Z.shiftl_mul_pow2 by lia; change (2 ^ 10) with 1024; lia.
    + revert Hin. apply IH; [exact Hu|].
      rewrite !not_elem_of_cons in Hn. tauto.
  - apply Forall_cons in Hu as [Hc Hu]. unfold unit16 in Hc.
    rewrite encode_lone by assumption. rewrite elem_of_app.
    rewrite not_elem_of_cons in Hn. destruct Hn as [Hc10 Hn].
    intros [Hin|Hin].
    + revert Hin. destruct (surrogate c); apply utf8_no_newline; lia.
    + revert Hin. apply IH; assumption.
Qed.

(** ** Objects of strings, written and parsed *)

(** The object [JSON.parse] builds from the fields in the order they were
    written; a repeated key keeps its first place and its last value. *)
Definition object_of (fields : list (list Z * list Z)) : value :=
  Obj (fold_left (λ acc kv, set_field (fst kv) (Str (snd kv)) acc) fields []).

Lemma parse_value_string fuel rest :
  parse_value (S fuel) (34 :: rest)
  = match parse_chars rest [] with
    | Some (str, rest1) => Parsed (Str str) rest1
    | None => Malformed
    end.
Proof. reflexivity. Qed.

Lemma parse_value_object fuel rest :
  parse_value (S fuel) (123 :: rest)
  = match skip_space rest with
    | [] => Malformed
    | c1 :: rest1 =>
        if c1 =? 125 then Parsed (Obj []) rest1
        else parse_members fuel rest []
    end.
Proof. reflexivity. Qed.

Lemma parse_members_key fuel rest acc :
  parse_members (S fuel) (34 :: rest) acc
  = match parse_chars rest [] with
    | Some (k, rest1) =>
        match skip_space rest1 with
        | [] => Malformed
        | c2 :: rest2 =>
            if c2 =? 58 then
              match parse_value fuel rest2 with
              | Parsed v rest3 =>
                  match skip_space rest3 with
                  | [] => Malformed
                  | c4 :: rest4 =>
                      if c4 =? 44 then
                        parse_members fuel rest4 (set_field k v acc)
                      else if c4 =? 125 then
                        Parsed (Obj (set_field k v acc)) rest4
                      else Malformed
                  end
              | Malformed => Malformed
              | Exhausted => Exhausted
              end
            else Malformed
        end
    | None => Malformed
    end.
Proof. reflexivity. Qed.

Lemma parse_quoted fuel s rest :
  Forall unit16 s →
  parse_value (S fuel) (quote s ++ rest) = Parsed (Str s) rest.
Proof.
  intros Hu. unfold quote. cbn [app]. rewrite parse_value_string.
  rewrite <- app_assoc. cbn [app].
  rewrite parse_escape by exact Hu. reflexivity.
Qed.

Lemma stringify_fields_cons k v fields :
  stringify_fields ((k, v) :: fields)
  = quote k ++ 58 :: quote v
    ++ match fields with [] => [] | _ => 44 :: stringify_fields fields end.
Proof. destruct fields; cbn; rewrite ?app_nil_r; reflexivity. Qed.

Lemma fields_text k v fields rest :
  stringify_fields ((k, v) :: fields) ++ 125 :: rest
  = 34 :: escape k ++ 34 :: 58 :: quote v
    ++ match fields with
       | [] => 125 :: rest
       | _ => 44 :: stringify_fields fields ++ 125 :: rest
       end.
Proof.
  rewrite stringify_fields_cons. unfold quote at 1.
  destruct fields; cbn [app]; rewrite <- ?app_assoc; cbn [app];
    rewrite <- ?app_assoc; reflexivity.
Qed.

Lemma parse_members_fields fields : ∀ fuel acc rest,
  fields ≠ [] → (length fields < fuel)%nat → Forall units fields →
  parse_members fuel (stringify_fields fields ++ 125 :: rest) acc
  = Parsed
      (Obj (fold_left (λ acc kv, set_field (fst kv) (Str (snd kv)) acc)
              fields acc)) rest.
Proof.
  induction fields as [|[k v] fields IH]; intros fuel acc rest Hne Hf Hu;
    [done|].
  apply Forall_cons in Hu as [[Hk Hv] Hu]. cbn [fst snd] in Hk, Hv.
  destruct fuel as [|fuel]; [cbn in Hf; lia|].
  destruct fuel as [|fuel]; [cbn in Hf; lia|].
  rewrite fields_text, parse_members_key.
  rewrite parse_escape by exact Hk. cbn [rev app].
  change (skip_space (58 :: ?x)) with (58 :: x). cbn [Z.eqb Pos.eqb].
  rewrite parse_quoted by exact Hv.
  destruct fields as [|kv fields].
  - change (skip_space (125 :: ?x)) with (125 :: x).
    cbn [Z.eqb Pos.eqb fold_left fst snd]. reflexivity.
  - change (skip_space (44 :: ?x)) with (44 :: x).
    cbn [Z.eqb Pos.eqb].
    rewrite IH; [reflexivity|done|cbn in Hf |- *; lia|exact Hu].
Qed.

Lemma stringify_fields_length fields :
  (length fields ≤ length (stringify_fields fields))%nat.
Proof.
  induction fields as [|[k v] fields IH]; [cbn; lia|].
  rewrite stringify_fields_cons. unfold quote.
  destruct fields as [|kv fields]; cbn [length app] in *;
    rewrite ?length_app; cbn [length]; rewrite ?length_app; cbn [length];
    lia.
Qed.

(** [JSON.parse(JSON.stringify(o))] for an object of strings. *)
Lemma parse_stringify fields :
  Forall units fields →
  JSON_parse (stringify_strings fields) = Some (object_of fields).
Proof.
  intros Hu. unfold JSON_parse, stringify_strings, object_of.
  pose proof (stringify_fields_length fields) as Hlen.
  set (fuel := (2 * length (123%Z :: stringify_fields fields ++ [125%Z]))%nat).
  assert (Hfuel : (length fields < fuel)%nat).
  { subst fuel. cbn [length]. rewrite length_app. cbn [length]. lia. }
  clearbody fuel. rewrite parse_value_object.
  destruct fields as [|[k v] fields].
  - reflexivity.
  - change (stringify_fields ((k, v) :: fields) ++ [125])
      with (stringify_fields ((k, v) :: fields) ++ 125 :: []).
    rewrite fields_text at 1.
    change (skip_space (34 :: ?x)) with (34 :: x). cbn [Z.eqb Pos.eqb].
    rewrite parse_members_fields; [reflexivity|done|exact Hfuel|exact Hu].
Qed.

(** ** The header line *)

Lemma js_units s : Forall unit16 (js s).
Proof.
  induction s as [|c s IH]; [constructor|]. cbn [js].
  constructor; [|exact IH]. unfold unit16.
  pose proof (nat_ascii_bounded c). lia.
Qed.

Lemma clean_text fields :
  Forall units fields → clean (stringify_strings fields).
Proof.
  intros Hu. unfold stringify_strings.
  apply clean_cons; [unfold unit16; lia|reflexivity|lia|].
  apply clean_stringify. exact Hu.
Qed.

(** [encoder.encode(JSON.stringify(o) + '\n')] for an object of strings is
    the bytes of the JSON text, none of them a line feed, and one line
    feed. *)
Lemma header_line fields :
  Forall units fields →
  encode (stringify_strings fields ++ [10])
  = encode (stringify_strings fields) ++ [10]
  ∧ (10 ∉ encode (stringify_strings fields)).
Proof.
  intros Hu. destruct (clean_text fields Hu) as (H1 & H2 & H3). split.
  - rewrite encode_app by exact H2. reflexivity.
  - apply encode_no_newline; assumption.
Qed.

(** Decoding the bytes of that text, in whatever pieces they come, and
    parsing the result gives the object back. *)
Lemma header_text_parsed fields texts :
  Forall units fields →
  concat texts = encode (stringify_strings fields) →
  JSON_parse (decode_chunks texts) = Some (object_of fields).
Proof.
  intros Hu Hc. rewrite ConversationProofs.decode_chunks_concat, Hc.
  destruct (clean_stringify fields Hu) as (H1 & H2 & _).
  unfold stringify_strings at 1.
  rewrite decode_chunks_encode by (first [lia|assumption]).
  apply parse_stringify. exact Hu.
Qed.

End WireProofs.


(* ===================================================================== *)
(** * The routes and the store, end to end                                *)
(* ===================================================================== *)

Module ProtocolProofs.
Import Js Conversation ConversationProofs WireProofs.
#[local] Open Scope task_scope.
#[local] Arguments js : simpl never.
#[local] Set Warnings "-clear-no-such-hyp".

Lemma or_else_Str s : or_else (Str s) (Str []) = Str s.
Proof. destruct s; reflexivity. Qed.

Lemma units_pair k v : Forall unit16 v → units (js k, v).
Proof. intros Hv. split; [apply js_units|exact Hv]. Qed.

(** A stream that begins with the header line of [/process-audio] for the
    reply [text] to [transcript], cut in any way: phase 1 of the client
    reads the two strings back and leaves the rest of the stream. *)
Lemma Header_of_line chks fail text transcript payload :
  Forall unit16 text → Forall unit16 transcript →
  concat chks
  = encode (stringify_strings
              [(js "text", text); (js "transcript", transcript)] ++ [10])
    ++ payload →
  ∃ first reader',
    Header {| chunks := chks; failure := fail |}
      (Str transcript) (Str text) first reader'
    ∧ handed first reader' = payload
    ∧ failure reader' = fail.
Proof.
  intros Ht Hr Hcat.
  set (fields := [(js "text", text); (js "transcript", transcript)]) in *.
  assert (Hu : Forall units fields).
  { constructor; [apply units_pair; exact Ht|].
    constructor; [apply units_pair; exact Hr|constructor]. }
  destruct (header_line fields Hu) as [Hline Hnl].
  rewrite Hline, <- app_assoc in Hcat. cbn [app] in Hcat.
  destruct (scan_first_line chks fail _ payload Hcat Hnl)
    as (texts & first & reader' & Hscan & Htexts & Hpay & Hfail).
  exists first, reader'. split; [|split; [exact Hpay|exact Hfail]].
  exists texts, (object_of fields), (Str transcript), (Str text).
  split; [exact Hscan|].
  split; [apply header_text_parsed; assumption|].
  split; [reflexivity|]. split; [reflexivity|].
  rewrite !or_else_Str. done.
Qed.

(** ** [/process-audio], read by the client *)

(** The reply put in the header: the collected deltas, or the apology. *)
Definition reply (deltas : list (option (list Z))) : list Z :=
  match Api.collect deltas with
  | [] => Api.fallback_reply
  | t => t
  end.

Definition tts_bytes (tts : option Body) : list Z :=
  match tts with Some b => concat (chunks b) | None => [] end.

Definition tts_failure (tts : option Body) : option thrown :=
  match tts with Some b => failure b | None => None end.

(** The strings the OpenAI client hands over are strings. *)
Definition calls_units (ai : Api.ProcessCalls) : Prop :=
  (∀ t, Api.p_transcription ai = Resolved t → Forall unit16 t)
  ∧ (∀ deltas e, Api.p_completion ai = Resolved (deltas, e) →
       Forall unit16 (Api.collect deltas)).

Lemma reply_units deltas :
  Forall unit16 (Api.collect deltas) → Forall unit16 (reply deltas).
Proof.
  intros H. unfold reply. destruct (Api.collect deltas); [|exact H].
  apply js_units.
Qed.

(** What a stream of [/process-audio] is made of. *)
Lemma process_audio_stream ai body :
  Api.process_audio ai = Api.StreamResponse body →
  ∃ transcript,
    Api.p_transcription ai = Resolved transcript
    ∧ ((trim transcript = [] ∧ body = blank_body)
       ∨ (trim transcript ≠ []
          ∧ ∃ deltas tts,
              Api.p_completion ai = Resolved (deltas, None)
              ∧ Api.p_speech ai = Resolved tts
              ∧ body
                = Api.responseStream
                    (encode (stringify_strings
                               [(js "text", reply deltas);
                                (js "transcript", transcript)] ++ [10]))
                    tts (Api.p_taken ai))).
Proof.
  unfold Api.process_audio, Api.caught.
  destruct (Api.p_formData ai) as [formData|]; [|discriminate].
  destruct (Api.entry_falsy _); [discriminate|].
  destruct (Api.previousMessages _) as [previous|]; [|discriminate].
  destruct (Api.p_transcription ai) as [transcript|]; [|discriminate].
  intros H. exists transcript. split; [reflexivity|].
  destruct (trim transcript) eqn:Htrim.
  - left. split; [reflexivity|]. injection H as <-. reflexivity.
  - right. split; [discriminate|].
    destruct (Api.map_messages previous); [|discriminate].
    destruct (Api.p_completion ai) as [[deltas [e|]]|]; try discriminate.
    destruct (Api.p_speech ai) as [tts|]; [|discriminate].
    injection H as <-. exists deltas, tts. done.
Qed.

(** The stream fails exactly when the speech body does; when it does not,
    the stream is the text line and then the bytes of the speech. *)
Lemma responseStream_bytes line tts taken :
  failure (Api.responseStream line tts taken) = tts_failure tts
  ∧ (tts_failure tts = None →
     concat (chunks (Api.responseStream line tts taken))
     = line ++ tts_bytes tts).
Proof.
  destruct tts as [[cs [e|]]|]; cbn; rewrite ?app_nil_r; done.
Qed.

(** When the speech body fails, the consumer of the stream has the chunks
    it had taken by then, and the failure. A consumer that had not begun
    has nothing, not even the text line. *)
Lemma responseStream_cut line cs e taken :
  Api.responseStream line (Some {| chunks := cs; failure := Some e |}) taken
  = {| chunks := firstn taken (line :: cs); failure := Some e |}
  ∧ Api.responseStream line (Some {| chunks := cs; failure := Some e |}) 0
    = {| chunks := []; failure := Some e |}.
Proof. split; reflexivity. Qed.

(** A stream of [/process-audio] for a transcript with something in it,
    sent whole, as phase 1 of the client reads it. *)
Lemma spoken_stream_Header ai sent chks transcript :
  Api.process_audio ai = Api.StreamResponse sent →
  calls_units ai →
  failure sent = None →
  concat chks = concat (chunks sent) →
  Api.p_transcription ai = Resolved transcript →
  trim transcript ≠ [] →
  ∃ deltas tts first reader',
    Api.p_completion ai = Resolved (deltas, None)
    ∧ Api.p_speech ai = Resolved tts
    ∧ tts_failure tts = None
    ∧ Header {| chunks := chks; failure := None |}
        (Str transcript) (Str (reply deltas)) first reader'
    ∧ handed first reader' = tts_bytes tts
    ∧ failure reader' = None.
Proof.
  intros Hs [Hut Hud] Hwhole Hcat Htr Hspoken.
  destruct (process_audio_stream ai sent Hs)
    as (t & Htr' & [[Hblank _]|(_ & deltas & tts & Hc & Hsp & ->)]);
    rewrite Htr in Htr'; injection Htr' as <-; [done|].
  destruct (responseStream_bytes
              (encode (stringify_strings
                         [(js "text", reply deltas);
                          (js "transcript", transcript)] ++ [10])) tts
              (Api.p_taken ai))
    as [Hfail Hbytes].
  rewrite Hfail in Hwhole. rewrite (Hbytes Hwhole) in Hcat.
  destruct (Header_of_line chks None (reply deltas) transcript
              (tts_bytes tts)) as (first & reader' & Hh & Hp & Hf).
  { apply reply_units. eapply Hud. exact Hc. }
  { apply Hut. exact Htr. }
  { exact Hcat. }
  exists deltas, tts, first, reader'. done.
Qed.

(** Every stream of [/process-audio] that does not fail (the speech body
    was read to its end), when all of its bytes arrive, however the network
    cuts them: phase 1 of the client reads the strings the route put in the
    header, followed by the bytes of the speech: nothing for a blank
    transcription, else the transcript itself and the reply. (A stream
    whose speech body fails is cut short, see [responseStream_cut], and
    what arrives of it is for the client any stream that fails.) *)
Theorem reply_stream_read_back ai body chks :
  Api.process_audio ai = Api.StreamResponse body →
  calls_units ai →
  failure body = None →
  concat chks = concat (chunks body) →
  ∃ transcript first reader',
    Api.p_transcription ai = Resolved transcript
    ∧ ((trim transcript = []
        ∧ Header {| chunks := chks; failure := None |}
            (Str []) (Str []) first reader'
        ∧ handed first reader' = [] ∧ failure reader' = None)
       ∨ (trim transcript ≠ []
          ∧ ∃ deltas tts,
              Api.p_completion ai = Resolved (deltas, None)
              ∧ Api.p_speech ai = Resolved tts
              ∧ tts_failure tts = None
              ∧ Header {| chunks := chks; failure := None |}
                  (Str transcript) (Str (reply deltas)) first reader'
              ∧ handed first reader' = tts_bytes tts
              ∧ failure reader' = None)).
Proof.
  intros Hs Hu Hwhole Hcat.
  destruct (process_audio_stream ai body Hs) as (transcript & Htr & Hcase).
  destruct (trim transcript) as [|c rest] eqn:Htrim.
  - destruct Hcase as [[_ ->]|[Hspoken _]]; [|done].
    destruct (Header_of_line chks None [] [] [] ltac:(constructor)
                ltac:(constructor)) as (first & reader' & Hh & Hp & Hf).
    { rewrite Hcat. cbn. rewrite !app_nil_r. reflexivity. }
    exists transcript, first, reader'. split; [exact Htr|]. left. done.
  - assert (Hspoken : trim transcript ≠ []) by (rewrite Htrim; discriminate).
    destruct (spoken_stream_Header ai body chks transcript Hs Hu Hwhole Hcat
                Htr Hspoken)
      as (deltas & tts & first & reader' & Hc & Hsp & Hok & Hh & Hp & Hf).
    exists transcript, first, reader'. split; [exact Htr|]. right.
    split; [exact Hspoken|]. exists deltas, tts. done.
Qed.

(** ** A whole turn on a stream of the route *)

(** What a turn with something in its transcript appends and plays. *)
Lemma turn_played reader ts responseText first reader'
    audioBlob s0 tr sf out response :
  Header reader (Str ts) responseText first reader' → trim ts ≠ [] →
  isProcessing s0 = false →
  Runs (processUserAudio audioBlob s0) tr (sf, out) →
  fetched tr = Some (Resolved response) →
  ok response = true → body response = Some reader →
  (∃ pre u1 d1 u2 d2 supported post,
     tr = pre ++ Ent (resumed s0 pre) RandomUUID u1
              :: Ent (resumed s0 pre) NewDate d1
              :: Ent (with_user (resumed s0 pre) u1 ts d1) RandomUUID u2
              :: Ent (with_user (resumed s0 pre) u1 ts d1) NewDate d2
              :: Ent (at_play (resumed s0 pre) u1 ts d1 u2 responseText d2)
                   MediaSourceSupported supported
              :: post
     ∧ played pre = []
     ∧ Forall (λ en, is_player en = false) pre)
  ∧ (∃ more, handed first reader' = played tr ++ more)
  ∧ (Forall (λ en, is_console en = false) tr →
     played tr = handed first reader').
Proof.
  intros Hh Hts Hp H Hf Hok Hbody.
  destruct (spoken_turn _ _ _ _ _ _ _ _ _ _ _ Hp H Hf Hok Hbody Hh Hts)
    as (pre & u1 & d1 & u2 & d2 & trp & sp & cp & Hplay & -> & Hnp & Hcon
        & Hpl & _).
  destruct (Runs_playStreamingAudio _ _ _ _ _ _ Hplay) as [[more Hmore] Hall].
  assert (Htail : played
            (trp ++ match cp with
                    | Normal _ => []
                    | Throw err =>
                        [Ent sp (ConsoleError "Processing error:" err) tt]
                    end) = played trp).
  { rewrite played_app. destruct cp; cbn; apply app_nil_r. }
  split; [|split].
  - unfold playStreamingAudio in Hplay. cbn in Hplay.
    destruct Hplay as (supported & trp' & -> & _).
    exists pre, u1, d1, u2, d2, supported. eexists.
    split; [cbn [app]; reflexivity|]. done.
  - exists more. rewrite played_app, Hpl. cbn [app played].
    rewrite Htail. exact Hmore.
  - intros Hall'. rewrite played_app, Hpl. cbn [app played]. rewrite Htail.
    apply Forall_app in Hall' as [_ Hall'].
    do 4 apply Forall_cons in Hall' as [_ Hall'].
    apply Forall_app in Hall' as [Htrp Hend].
    destruct cp as [a|err].
    + eapply Hall; [reflexivity|exact Htrp].
    + apply Forall_cons in Hend as [Hend _]. discriminate.
Qed.

(** End to end. The route streamed a reply to a transcript with something
    in it, the stream did not fail, and all of its bytes reach the client,
    cut in any way, in a turn: the store gets the user message with the
    transcript of the route and then the assistant message with its reply,
    before the player is entered; the player is handed bytes of the speech
    only, in order, and all of them when the turn wrote nothing to the
    console. *)
Theorem turn_carries_reply ai sent chks transcript
    audioBlob s0 tr sf out response :
  Api.process_audio ai = Api.StreamResponse sent →
  calls_units ai →
  failure sent = None →
  concat chks = concat (chunks sent) →
  Api.p_transcription ai = Resolved transcript → trim transcript ≠ [] →
  isProcessing s0 = false →
  Runs (processUserAudio audioBlob s0) tr (sf, out) →
  fetched tr = Some (Resolved response) →
  ok response = true →
  body response = Some {| chunks := chks; failure := None |} →
  ∃ deltas tts,
    Api.p_completion ai = Resolved (deltas, None)
    ∧ Api.p_speech ai = Resolved tts
    ∧ (∃ pre u1 d1 u2 d2 supported post,
         tr = pre ++ Ent (resumed s0 pre) RandomUUID u1
                  :: Ent (resumed s0 pre) NewDate d1
                  :: Ent (with_user (resumed s0 pre) u1 transcript d1)
                       RandomUUID u2
                  :: Ent (with_user (resumed s0 pre) u1 transcript d1)
                       NewDate d2
                  :: Ent (at_play (resumed s0 pre) u1 transcript d1 u2
                            (Str (reply deltas)) d2)
                       MediaSourceSupported supported
                  :: post
         ∧ played pre = []
         ∧ Forall (λ en, is_player en = false) pre)
    ∧ (∃ more, tts_bytes tts = played tr ++ more)
    ∧ (Forall (λ en, is_console en = false) tr → played tr = tts_bytes tts).
Proof.
  intros Hs Hu Hwhole Hcat Htr Hspoken Hp H Hf Hok Hbody.
  destruct (spoken_stream_Header ai sent chks transcript Hs Hu Hwhole Hcat
              Htr Hspoken)
    as (deltas & tts & first & reader' & Hc & Hsp & _ & Hh & Hpay & _).
  exists deltas, tts. split; [exact Hc|]. split; [exact Hsp|].
  rewrite <- Hpay.
  exact (turn_played _ _ _ _ _ _ _ _ _ _ _ Hh Hspoken Hp H Hf Hok Hbody).
Qed.

(** A recording answered with a short reply and three bytes of speech. *)
Definition fine_request : Api.ProcessCalls :=
  {| Api.p_formData :=
       Resolved {| Api.audio := Api.FileEntry [1; 2; 3];
                   Api.messages := Api.Field (js "[]") |};
     Api.p_transcription := Resolved (js "I feel fine");
     Api.p_completion :=
       Resolved ([Some (js "That is "); None; Some (js "good.")], None);
     Api.p_speech :=
       Resolved (Some {| chunks := [[1; 2]; [10]]; failure := None |});
     Api.p_taken := 0 |}.

Definition fine_body : Body :=
  match Api.process_audio fine_request with
  | Api.StreamResponse b => b
  | _ => {| chunks := []; failure := None |}
  end.

(** The same bytes, cut inside the reply, inside the transcript and inside
    the speech. *)
Definition fine_chunks : list (list Z) :=
  let bytes := concat (chunks fine_body) in
  [firstn 7 bytes; firstn 33 (skipn 7 bytes); firstn 13 (skipn 40 bytes);
   skipn 53 bytes].

Lemma fine_units : calls_units fine_request.
Proof.
  split.
  - intros t [= <-]. apply js_units.
  - intros deltas e [= <- <-]. cbn. rewrite app_nil_r.
    apply Forall_app. split; apply js_units.
Qed.

Lemma reply_stream_read_back_witness :
  ∃ transcript first reader',
    Api.p_transcription fine_request = Resolved transcript
    ∧ ((trim transcript = []
        ∧ Header {| chunks := fine_chunks; failure := None |}
            (Str []) (Str []) first reader'
        ∧ handed first reader' = [] ∧ failure reader' = None)
       ∨ (trim transcript ≠ []
          ∧ ∃ deltas tts,
              Api.p_completion fine_request = Resolved (deltas, None)
              ∧ Api.p_speech fine_request = Resolved tts
              ∧ tts_failure tts = None
              ∧ Header {| chunks := fine_chunks; failure := None |}
                  (Str transcript) (Str (reply deltas)) first reader'
              ∧ handed first reader' = tts_bytes tts
              ∧ failure reader' = None)).
Proof.
  apply (reply_stream_read_back fine_request fine_body fine_chunks).
  - vm_compute. reflexivity.
  - exact fine_units.
  - reflexivity.
  - vm_compute. reflexivity.
Defined.

Definition fine_response : Fetched :=
  {| ok := true; json := Rejected SyntaxError;
     body := Some {| chunks := fine_chunks; failure := None |} |}.

Definition fine_run : list Entry * (Store * Completion unit) :=
  drive (browser (Resolved fine_response) true)
        (processUserAudio [1; 2; 3] calm).

Lemma turn_carries_reply_witness :
  ∃ deltas tts,
    Api.p_completion fine_request = Resolved (deltas, None)
    ∧ Api.p_speech fine_request = Resolved tts
    ∧ (∃ pre u1 d1 u2 d2 supported post,
         fst fine_run
         = pre ++ Ent (resumed calm pre) RandomUUID u1
               :: Ent (resumed calm pre) NewDate d1
               :: Ent (with_user (resumed calm pre) u1 (js "I feel fine") d1)
                    RandomUUID u2
               :: Ent (with_user (resumed calm pre) u1 (js "I feel fine") d1)
                    NewDate d2
               :: Ent (at_play (resumed calm pre) u1 (js "I feel fine") d1 u2
                         (Str (reply deltas)) d2)
                    MediaSourceSupported supported
               :: post
         ∧ played pre = []
         ∧ Forall (λ en, is_player en = false) pre)
    ∧ (∃ more, tts_bytes tts = played (fst fine_run) ++ more)
    ∧ (Forall (λ en, is_console en = false) (fst fine_run) →
       played (fst fine_run) = tts_bytes tts).
Proof.
  apply (turn_carries_reply fine_request fine_body fine_chunks
           (js "I feel fine") [1; 2; 3] calm (fst fine_run)
           (fst (snd fine_run)) (snd (snd fine_run)) fine_response).
  - vm_compute. reflexivity.
  - exact fine_units.
  - reflexivity.
  - vm_compute. reflexivity.
  - reflexivity.
  - vm_compute. discriminate.
  - reflexivity.
  - apply Runs_driven.
  - vm_compute. reflexivity.
  - reflexivity.
  - reflexivity.
Defined.

(** In that run the player was handed the three bytes of the speech. *)
Lemma fine_run_played : played (fst fine_run) = [1; 2; 10].
Proof. vm_compute. reflexivity. Qed.

(** ** [/greeting], read by the client *)

Lemma trim_start_head s c l : trim_start s = c :: l → is_space c = false.
Proof.
  induction s as [|b s IH]; cbn; [discriminate|].
  destruct (is_space b) eqn:Hb; [exact IH|]. intros [= <- <-]. exact Hb.
Qed.

Lemma trim_start_fixed c l : is_space c = false → trim_start (c :: l) = c :: l.
Proof. intros H. cbn. rewrite H. reflexivity. Qed.

Lemma trim_start_snoc l c :
  is_space c = false → ∃ b, trim_start (l ++ [c]) = b ++ [c].
Proof.
  intros Hc. induction l as [|a l IH]; cbn.
  - rewrite Hc. exists []. reflexivity.
  - destruct (is_space a); [exact IH|]. exists (a :: l). reflexivity.
Qed.

(** [s.trim().trim()] is [s.trim()]. *)
Lemma trim_idempotent s : trim (trim s) = trim s.
Proof.
  unfold trim. destruct (trim_start s) as [|c a] eqn:Ha; [reflexivity|].
  pose proof (trim_start_head _ _ _ Ha) as Hc.
  cbn [rev]. destruct (trim_start_snoc (rev a) c Hc) as [b Hb].
  remember (trim_start (rev a ++ [c])) as B eqn:HB.
  assert (Hfix : trim_start B = B).
  { destruct B as [|d t]; [reflexivity|]. apply trim_start_fixed.
    apply (trim_start_head (rev a ++ [c]) d t). symmetry. exact HB. }
  assert (Hrev : rev B = c :: rev b).
  { rewrite Hb, rev_app_distr. reflexivity. }
  rewrite Hrev. rewrite trim_start_fixed by exact Hc.
  rewrite <- Hrev, rev_involutive, Hfix. reflexivity.
Qed.

(** The text [/greeting] puts in its header. *)
Definition greeting_text (content : option (list Z)) : list Z :=
  match content with
  | Some s => match trim s with [] => Api.fallback_greeting | t => t end
  | None => Api.fallback_greeting
  end.

Lemma greeting_text_worded content : trim (greeting_text content) ≠ [].
Proof.
  unfold greeting_text. destruct content as [s|]; [|vm_compute; discriminate].
  destruct (trim s) eqn:Ht; [vm_compute; discriminate|].
  rewrite <- Ht, trim_idempotent, Ht. discriminate.
Qed.

Lemma trim_units s : Forall unit16 s → Forall unit16 (trim s).
Proof.
  assert (Hts : ∀ l, Forall unit16 l → Forall unit16 (trim_start l)).
  { induction l as [|c l IH]; cbn; [done|]. intros H.
    destruct (is_space c); [|exact H]. apply IH.
    apply Forall_cons in H as [_ H]. exact H. }
  intros H. unfold trim. apply Forall_rev, Hts, Forall_rev, Hts. exact H.
Qed.

Lemma greeting_text_units content :
  (∀ s, content = Some s → Forall unit16 s) →
  Forall unit16 (greeting_text content).
Proof.
  intros H. unfold greeting_text. destruct content as [s|]; [|apply js_units].
  destruct (trim s) eqn:Ht; [apply js_units|]. rewrite <- Ht.
  apply trim_units, H. reflexivity.
Qed.

(** What a stream of [/greeting] is made of. *)
Lemma greeting_stream ai sent :
  Api.greeting ai = Api.StreamResponse sent →
  ∃ content tts,
    Api.g_completion ai = Resolved content
    ∧ Api.g_speech ai = Resolved tts
    ∧ sent
      = Api.responseStream
          (encode (stringify_strings [(js "text", greeting_text content)]
                   ++ [10])) tts (Api.g_taken ai).
Proof.
  unfold Api.greeting, Api.caught.
  destruct (Api.g_completion ai) as [content|]; [|discriminate].
  destruct (Api.g_speech ai) as [tts|]; [|discriminate].
  intros [= <-]. exists content, tts. done.
Qed.

(** The header of the greeting, read by phase 1 of [requestGreeting]. *)
Lemma greeting_of_line chks fail text payload :
  Forall unit16 text →
  concat chks
  = encode (stringify_strings [(js "text", text)] ++ [10]) ++ payload →
  ∃ texts first reader',
    scan chks fail [] = Normal (texts, first, reader')
    ∧ JSON_parse (decode_chunks texts) = Some (Obj [(js "text", Str text)])
    ∧ handed first reader' = payload
    ∧ failure reader' = fail.
Proof.
  intros Ht Hcat.
  set (fields := [(js "text", text)]) in *.
  assert (Hu : Forall units fields).
  { constructor; [apply units_pair; exact Ht|constructor]. }
  destruct (header_line fields Hu) as [Hline Hnl].
  rewrite Hline, <- app_assoc in Hcat. cbn [app] in Hcat.
  destruct (scan_first_line chks fail _ payload Hcat Hnl)
    as (texts & first & reader' & Hscan & Htexts & Hpay & Hfail).
  exists texts, first, reader'. split; [exact Hscan|].
  split; [|split; [exact Hpay|exact Hfail]].
  rewrite (header_text_parsed fields texts Hu Htexts). reflexivity.
Qed.

(** What [requestGreeting] does once the header is parsed. *)
Definition greet (responseText : value) (firstAudioChunk : option (list Z))
    (reader : Body) : M unit :=
  worded <- trimmed_nonempty responseText ;;
  (if worded : bool then addMessage assistant responseText else ret tt) ;;
  modify (set_avatarState speaking) ;;
  playStreamingAudio reader firstAudioChunk.

Lemma greetingAttempt_header s tr sf out response reader texts parsed x
    first reader' :
  Runs (greetingAttempt s) tr (sf, out) →
  fetched tr = Some (Resolved response) →
  ok response = true → body response = Some reader →
  scan (chunks reader) (failure reader) [] = Normal (texts, first, reader') →
  JSON_parse (decode_chunks texts) = Some parsed →
  get parsed (js "text") = Some x →
  ∃ s1 tr_r tr2,
    tr = Ent s (Fetch "/api/caresma/greeting" None []) (Resolved response)
         :: Ent s (Interleave s) s1 :: tr_r ++ tr2
    ∧ held s1 tr_r ∧ Forall (λ en, is_wait en = true) tr_r
    ∧ Runs (greet (or_else x (Str [])) first reader' (resumed s1 tr_r))
           tr2 (sf, out).
Proof.
  intros H Hf Hok Hbody Hscan Hparse Hx.
  unfold greetingAttempt in H. cbn in H.
  destruct H as (ans & tr1 & -> & s1 & tr2 & -> & H).
  cbn in Hf. injection Hf as ->. rewrite Hok, Hbody in H. cbn [negb] in H.
  apply Runs_bind in H as (tr_r & s2 & c & Hr & H).
  apply Runs_readTextLine_from in Hr as (-> & Hheld & -> & Hwait).
  rewrite Hscan in H. destruct H as (tr3 & H & ->).
  unfold parseTextLine, field_or_empty in H. cbn in H.
  rewrite Hparse in H. cbn in H. rewrite Hx in H. cbn in H.
  exists s1, tr_r, tr3. done.
Qed.

(** A run of [requestGreeting]: its [try] block, the [catch] when the
    block threw, the [finally]. *)
Lemma requestGreeting_run s0 tr sf out :
  Runs (requestGreeting s0) tr (sf, out) →
  out = Normal tt
  ∧ ∃ tr1 s1 c, Runs (greetingAttempt s0) tr1 (s1, c) ∧
      match c with
      | Normal _ => tr = tr1 ∧ sf = set_avatarState (settle s1) s1
      | Throw err =>
          ∃ uuid now,
            tr = tr1 ++ [Ent s1 (ConsoleError "Greeting error:" err) tt;
                         Ent (set_error
                                (Some (message_or
                                         "Could not start conversation" err))
                                s1) RandomUUID uuid;
                         Ent (set_error
                                (Some (message_or
                                         "Could not start conversation" err))
                                s1) NewDate now]
      end.
Proof.
  intros H. unfold requestGreeting, backToListening in H.
  apply Runs_try_finally_modify in H as (s2 & H & ->).
  apply Runs_try_catch in H as (tr1 & s1 & c & H1 & H).
  destruct c as [[]|err].
  - destruct H as (-> & -> & ->). split; [done|].
    exists tr1, s1, (Normal tt). done.
  - destruct H as (tr2 & H & ->). cbn in H.
    destruct H as ([] & tr3 & -> & uuid & tr4 & -> & now & tr5 & -> & ->
                   & [= -> ->]).
    split; [done|]. exists tr1, s1, (Throw err). split; [exact H1|].
    exists uuid, now. reflexivity.
Qed.

(** The store in which the player is entered after the greeting [text]. *)
Definition greeted (s : Store) (uuid text : list Z) (now : Z) : Store :=
  set_avatarState speaking
    (set_messages (messages s ++ [message uuid assistant (Str text) now]) s).

(** End to end. The route streamed a greeting, the stream did not fail,
    and all of its bytes reach [requestGreeting], cut in any way: the text
    of the header has something in it, the store gets one assistant message
    with that text before the player is entered, and the player is handed
    bytes of the speech only, in order. *)
Theorem greeting_reaches_store ai sent chks s0 tr sf out response :
  Api.greeting ai = Api.StreamResponse sent →
  (∀ s, Api.g_completion ai = Resolved (Some s) → Forall unit16 s) →
  failure sent = None →
  concat chks = concat (chunks sent) →
  Runs (requestGreeting s0) tr (sf, out) →
  fetched tr = Some (Resolved response) →
  ok response = true →
  body response = Some {| chunks := chks; failure := None |} →
  ∃ content tts,
    Api.g_completion ai = Resolved content
    ∧ Api.g_speech ai = Resolved tts
    ∧ tts_failure tts = None
    ∧ trim (greeting_text content) ≠ []
    ∧ (∃ pre u d supported post,
         tr = pre ++ Ent (resumed s0 pre) RandomUUID u
                  :: Ent (resumed s0 pre) NewDate d
                  :: Ent (greeted (resumed s0 pre) u (greeting_text content) d)
                       MediaSourceSupported supported
                  :: post
         ∧ played pre = []
         ∧ Forall (λ en, is_player en = false) pre)
    ∧ (∃ more, tts_bytes tts = played tr ++ more)
    ∧ out = Normal tt.
Proof.
  intros Hs Hu Hwhole Hcat H Hf Hok Hbody.
  destruct (greeting_stream ai sent Hs) as (content & tts & Hc & Hsp & ->).
  exists content, tts. split; [exact Hc|]. split; [exact Hsp|].
  pose proof (greeting_text_worded content) as Hw.
  destruct (responseStream_bytes
              (encode (stringify_strings [(js "text", greeting_text content)]
                       ++ [10])) tts (Api.g_taken ai)) as [Hfail Hbytes].
  rewrite Hfail in Hwhole. rewrite (Hbytes Hwhole) in Hcat.
  split; [exact Hwhole|]. split; [exact Hw|].
  destruct (greeting_of_line chks None (greeting_text content)
              (tts_bytes tts)) as (texts & first & reader' & Hscan & Hparse
                                   & Hpay & _).
  { apply greeting_text_units. intros s ->. apply Hu. exact Hc. }
  { exact Hcat. }
  apply requestGreeting_run in H as (-> & tr1 & s1 & c & H & Hc1).
  assert (Hf1 : fetched tr1 = Some (Resolved response)).
  { destruct c; [destruct Hc1 as [-> _]; exact Hf|].
    destruct Hc1 as (uuid & now & ->). rewrite fetched_app in Hf.
    destruct (fetched tr1); [exact Hf|discriminate]. }
  destruct (greetingAttempt_header _ _ _ _ _ _ _ _ (Str (greeting_text content))
              _ _ H Hf1 Hok Hbody Hscan Hparse eq_refl)
    as (s2 & tr_r & tr2 & -> & Hheld & Hwait & Hg).
  rewrite or_else_Str in Hg.
  unfold greet, trimmed_nonempty in Hg. cbn -[playStreamingAudio] in Hg.
  destruct (trim (greeting_text content)) eqn:Htrim; [done|].
  cbn -[playStreamingAudio] in Hg.
  destruct Hg as (u & tr3 & -> & d & tr4 & -> & Hplay).
  set (pre := Ent s0 (Fetch "/api/caresma/greeting" None [])
                (Resolved response)
              :: Ent s0 (Interleave s0) s2 :: tr_r).
  assert (Hres : resumed s0 pre = resumed s2 tr_r) by reflexivity.
  assert (Hwp : Forall (λ en, is_wait en = true) (skipn 1 pre))
    by (repeat constructor; exact Hwait).
  destruct (wait_facts _ Hwp) as (Hnp & Hpl & _ & _).
  destruct (Runs_playStreamingAudio _ _ _ _ _ _ Hplay) as [[more Hmore] _].
  rewrite Hpay in Hmore.
  assert (Hplayed : played tr = played tr4).
  { destruct c as [[]|err].
    - destruct Hc1 as [-> _]. cbn [played]. rewrite played_app.
      cbn in Hpl. rewrite Hpl. reflexivity.
    - destruct Hc1 as (uuid & now & ->). cbn [played app].
      rewrite !played_app. cbn in Hpl. rewrite Hpl. cbn.
      rewrite app_nil_r. reflexivity. }
  split; [|split; [exists more; rewrite Hplayed; exact Hmore|reflexivity]].
  unfold playStreamingAudio in Hplay. cbn in Hplay.
  destruct Hplay as (supported & trp & -> & _).
  exists pre, u, d, supported. rewrite Hres.
  assert (Hst : greeted (resumed s2 tr_r) u (greeting_text content) d
                = set_avatarState speaking
                    (set_messages
                       (messages (resumed s2 tr_r)
                        ++ [{| id := u; role := assistant;
                               content := Str (greeting_text content);
                               timestamp := d |}]) (resumed s2 tr_r)))
    by reflexivity.
  rewrite Hst. clear Hst.
  destruct c as [[]|err].
  - destruct Hc1 as [-> _]. eexists. split.
    + subst pre. cbn [app]. rewrite <- ?app_assoc. cbn [app]. reflexivity.
    + split; [exact Hpl|]. constructor; [reflexivity|]. exact Hnp.
  - destruct Hc1 as (uuid & now & ->). eexists. split.
    + subst pre. cbn [app]. rewrite <- ?app_assoc. cbn [app]. reflexivity.
    + split; [exact Hpl|]. constructor; [reflexivity|]. exact Hnp.
Qed.

(** A greeting with white space around it and two bytes of speech, read
    through the fallback player. *)
Definition hello_request : Api.GreetingCalls :=
  {| Api.g_completion := Resolved (Some (js "  Hello there. "));
     Api.g_speech :=
       Resolved (Some {| chunks := [[7]; [8]]; failure := None |});
     Api.g_taken := 0 |}.

Definition hello_body : Body :=
  match Api.greeting hello_request with
  | Api.StreamResponse b => b
  | _ => {| chunks := []; failure := None |}
  end.

Definition hello_chunks : list (list Z) :=
  let bytes := concat (chunks hello_body) in
  [firstn 12 bytes; skipn 12 bytes].

Definition hello_response : Fetched :=
  {| ok := true; json := Rejected SyntaxError;
     body := Some {| chunks := hello_chunks; failure := None |} |}.

Definition hello_run : list Entry * (Store * Completion unit) :=
  drive (browser (Resolved hello_response) false) (requestGreeting starting).

Lemma greeting_reaches_store_witness :
  ∃ content tts,
    Api.g_completion hello_request = Resolved content
    ∧ Api.g_speech hello_request = Resolved tts
    ∧ tts_failure tts = None
    ∧ trim (greeting_text content) ≠ []
    ∧ (∃ pre u d supported post,
         fst hello_run
         = pre ++ Ent (resumed starting pre) RandomUUID u
               :: Ent (resumed starting pre) NewDate d
               :: Ent (greeted (resumed starting pre) u
                         (greeting_text content) d)
                    MediaSourceSupported supported
               :: post
         ∧ played pre = []
         ∧ Forall (λ en, is_player en = false) pre)
    ∧ (∃ more, tts_bytes tts = played (fst hello_run) ++ more)
    ∧ snd (snd hello_run) = Normal tt.
Proof.
  apply (greeting_reaches_store hello_request hello_body hello_chunks
           starting (fst hello_run) (fst (snd hello_run))
           (snd (snd hello_run)) hello_response).
  - vm_compute. reflexivity.
  - intros s [= <-]. apply js_units.
  - reflexivity.
  - vm_compute. reflexivity.
  - apply Runs_driven.
  - vm_compute. reflexivity.
  - reflexivity.
  - reflexivity.
Defined.

(** In that run the store ends with the trimmed greeting alone, listening,
    and the player got the two bytes. *)
Lemma hello_run_store :
  map content (messages (fst (snd hello_run))) = [Str (js "Hello there.")]
  ∧ avatarState (fst (snd hello_run)) = listening
  ∧ played (fst hello_run) = [7; 8].
Proof. vm_compute. repeat split. Qed.

(** ** How a turn ends *)

(** The [try] block of [processUserAudio] completes only through one of
    its two [avatarState = isSessionActive ? 'listening' : 'idle']. *)
Lemma processAttempt_normal audioBlob s tr s1 a :
  Runs (processAttempt audioBlob s) tr (s1, Normal a) →
  avatarState s1 = settle s1.
Proof.
  intros H. unfold processAttempt in H. cbn in H.
  destruct H as (ans & tr1 & -> & s' & tr2 & -> & H).
  destruct ans as [response|e]; [|cbn in H; destruct H as [_ [=]]].
  destruct (ok response); cbn [negb] in H.
  - destruct (body response) as [reader|];
      [|cbn in H; destruct H as [_ [=]]].
    apply Runs_bind in H as (tr_r & s2 & c & Hr & H).
    destruct c as [[[texts first] reader']|e]; [|destruct H as (_ & _ & [=])].
    destruct H as (tr3 & H & ->).
    unfold parseTextLine, field_or_empty in H.
    destruct (JSON_parse (decode_chunks texts)) as [parsed|];
      [|cbn in H; destruct H as [_ [=]]].
    cbn in H.
    destruct (get parsed (js "transcript")) as [t|];
      [|cbn in H; destruct H as [_ [=]]].
    cbn in H.
    destruct (get parsed (js "text")) as [x|];
      [|cbn in H; destruct H as [_ [=]]].
    cbn in H.
    destruct (or_else t (Str [])) as [| | | |ts| |];
      try (cbn in H; destruct H as [_ [=]]).
    cbn -[playStreamingAudio] in H.
    destruct (trim ts); cbn -[playStreamingAudio] in H.
    + destruct H as [_ [= -> _]]. destruct s2. reflexivity.
    + destruct H as (u1 & tr4 & -> & d1 & tr5 & -> & u2 & tr6 & -> & d2 & tr7
                     & -> & H).
      apply Runs_bind in H as (trp & sp & cp & _ & H).
      destruct cp as [[]|e]; [|destruct H as (_ & _ & [=])].
      destruct H as (tr8 & [_ [= -> _]] & _). destruct sp. reflexivity.
  - cbn in H. destruct H as ([] & tr3 & -> & s3 & tr4 & -> & H).
    destruct (json response) as [data|e]; [|cbn in H; destruct H as [_ [=]]].
    destruct (get data (js "error")); cbn in H; destruct H as [_ [=]].
Qed.

(** However a turn goes (a reply, a blank transcript, a failure of the
    request, of the header or of the playback) [processUserAudio] returns
    normally, with [isProcessing] off and the avatar [listening] when the
    session is active, [idle] when it is not: never left [thinking] or
    [speaking]. *)
Theorem processUserAudio_settles audioBlob s0 tr sf out :
  isProcessing s0 = false →
  Runs (processUserAudio audioBlob s0) tr (sf, out) →
  out = Normal tt
  ∧ isProcessing sf = false
  ∧ avatarState sf = (if isSessionActive sf then listening else idle).
Proof.
  intros Hp H.
  apply processUserAudio_run in H as (-> & tr1 & s1 & c & H & Hc); [|exact Hp].
  split; [reflexivity|]. destruct c as [a|err].
  - destruct Hc as [_ ->]. apply processAttempt_normal in H.
    destruct s1. cbn in *. split; [reflexivity|exact H].
  - destruct Hc as [_ ->]. destruct s1. cbn. split; reflexivity.
Qed.

Lemma processUserAudio_settles_witness :
  snd (snd wire_run) = Normal tt
  ∧ isProcessing (fst (snd wire_run)) = false
  ∧ avatarState (fst (snd wire_run))
    = (if isSessionActive (fst (snd wire_run)) then listening else idle).
Proof.
  apply (processUserAudio_settles [1; 2; 3] calm (fst wire_run)).
  - reflexivity.
  - apply Runs_driven.
Defined.

(** ** A request that fails *)

(** What [processUserAudio] throws on a response that is not ok: the
    rejection of [response.json()], a TypeError when the body is [null] or
    [undefined], else an [Error] with [data.error || 'Processing failed']. *)
Definition refusal (response : Fetched) : thrown :=
  match json response with
  | Rejected e => e
  | Resolved data =>
      match get data (js "error") with
      | Some v => new_Error (or_else v (Str (js "Processing failed")))
      | None => TypeError
      end
  end.

(** What the answer of [fetch] makes the turn throw before it reads the
    stream, if anything: the rejection of [fetch], the refusal of a response
    that is not ok, the missing body of one that is. *)
Definition request_error (answer : result Fetched) : option thrown :=
  match answer with
  | Rejected e => Some e
  | Resolved response =>
      if ok response then
        match body response with
        | None => Some (new_Error (Str (js "No response body")))
        | Some _ => None
        end
      else Some (refusal response)
  end.

(** A request that fails before the stream is read (the network is down,
    the response is not ok, or it has no body): the turn appends no message
    and never enters the player; its last act on the browser is to log the
    error, and it leaves the message of the error in [error]. For a reply
    [{ error: message, ... }] of the routes with a message that is not
    empty, that is the message the server sent. *)
Theorem failed_request_recorded audioBlob s0 tr sf out answer e :
  isProcessing s0 = false →
  Runs (processUserAudio audioBlob s0) tr (sf, out) →
  fetched tr = Some answer →
  request_error answer = Some e →
  Forall (λ en, is_player en = false) tr
  ∧ Forall (λ p, messages (snd p) = messages (fst p)) (own_steps s0 tr sf)
  ∧ error sf = Some (message_or "An error occurred" e)
  ∧ (∀ response m rest,
       answer = Resolved response → ok response = false →
       json response = Resolved (Obj ((js "error", Str m) :: rest)) →
       m ≠ [] → error sf = Some (Text m))
  ∧ (∃ s1, last tr = Some (Ent s1 (ConsoleError "Processing error:" e) tt)).
Proof.
  intros Hp H Hf He.
  apply processUserAudio_run in H as (-> & tr1 & s1 & c & H & Hc); [|exact Hp].
  unfold processAttempt in H. cbn in H.
  destruct H as (ans & tr2 & -> & s2 & tr3 & -> & H).
  assert (ans = answer) as ->.
  { destruct c; [destruct Hc as [-> _]|destruct Hc as [-> _]];
      cbn in Hf; congruence. }
  assert (Hthrow : tr3 = [] ∧ s1 = s2 ∧ c = Throw e
                   ∨ ∃ response,
                       answer = Resolved response ∧ ok response = false
                       ∧ e = refusal response
                       ∧ tr3 = [Ent s2 (ResponseJson response) tt;
                                Ent s2 (Interleave s2) s1]
                       ∧ c = Throw e).
  { destruct answer as [response|e']; cbn in He.
    - destruct (ok response) eqn:Hok; cbn in H.
      + destruct (body response); [discriminate|]. injection He as <-.
        cbn in H. destruct H as [-> [= -> ->]]. left. done.
      + injection He as <-. right. exists response.
        destruct H as ([] & tr4 & -> & s3 & tr5 & -> & H).
        unfold refusal. destruct (json response) as [data|e'].
        * destruct (get data (js "error")); cbn in H;
            destruct H as [-> [= -> ->]]; done.
        * cbn in H. destruct H as [-> [= -> ->]]. done.
    - injection He as <-. cbn in H. destruct H as [-> [= -> ->]]. left. done. }
  assert (Herr : ∀ s, error
                   (set_isProcessing false
                      (set_avatarState (settle s)
                         (set_error (Some (message_or "An error occurred" e))
                            s)))
                 = Some (message_or "An error occurred" e))
    by (intros s; destruct s; reflexivity).
  destruct Hthrow as [(-> & -> & ->)|(response & -> & Hok & -> & -> & ->)];
    destruct Hc as [-> ->]; rewrite Herr.
  - split; [repeat constructor|]. split; [|split; [reflexivity|split]].
    + cbn. repeat constructor; destruct s0, s2; reflexivity.
    + intros response m rest -> Hok Hj Hm. cbn in He. rewrite Hok in He.
      injection He as <-. unfold refusal. rewrite Hj.
      destruct m; [done|]. reflexivity.
    + exists s2. reflexivity.
  - split; [repeat constructor|]. split; [|split; [reflexivity|split]].
    + cbn. repeat constructor; destruct s0, s1; reflexivity.
    + intros response' m rest [= <-] _ Hj Hm. unfold refusal. rewrite Hj.
      destruct m; [done|]. reflexivity.
    + exists s1. reflexivity.
Qed.

Definition refused_response : Fetched :=
  {| ok := false;
     json := Resolved (Obj [(js "error", Str (js "No audio file provided"))]);
     body := None |}.

Definition refused_run : list Entry * (Store * Completion unit) :=
  drive (browser (Resolved refused_response) true)
        (processUserAudio [1; 2; 3] calm).

Lemma failed_request_recorded_witness :
  Forall (λ en, is_player en = false) (fst refused_run)
  ∧ error (fst (snd refused_run)) = Some (Text (js "No audio file provided")).
Proof.
  destruct (failed_request_recorded [1; 2; 3] calm (fst refused_run)
              (fst (snd refused_run)) (snd (snd refused_run))
              (Resolved refused_response) (refusal refused_response))
    as (H1 & _ & _ & H4 & _).
  - reflexivity.
  - apply Runs_driven.
  - vm_compute. reflexivity.
  - reflexivity.
  - split; [exact H1|].
    apply (H4 refused_response _ []); [reflexivity..|discriminate].
Defined.

(** ** A header that cannot be used *)

(** What the turn throws between the response and the first message, if
    anything: the failure of a stream that ends before its header line, the
    SyntaxError of [JSON.parse], the TypeError of reading a property of
    [null], or that of a truthy [transcript] without [trim]. *)
Definition header_error (reader : Body) : option thrown :=
  match scan (chunks reader) (failure reader) [] with
  | Throw e => Some e
  | Normal (texts, _, _) =>
      match JSON_parse (decode_chunks texts) with
      | None => Some SyntaxError
      | Some parsed =>
          match get parsed (js "transcript"), get parsed (js "text") with
          | Some t, Some _ =>
              match or_else t (Str []) with
              | Str _ => None
              | _ => Some TypeError
              end
          | _, _ => Some TypeError
          end
      end
  end.

(** A response whose header cannot be used: the turn appends no message and
    never enters the player; it only waits for the stream, logs the error
    and leaves its message in [error]. *)
Theorem unusable_header_recorded audioBlob s0 tr sf out response reader e :
  isProcessing s0 = false →
  Runs (processUserAudio audioBlob s0) tr (sf, out) →
  fetched tr = Some (Resolved response) →
  ok response = true → body response = Some reader →
  header_error reader = Some e →
  Forall (λ en, is_player en = false) tr
  ∧ played tr = []
  ∧ Forall (λ p, messages (snd p) = messages (fst p)) (own_steps s0 tr sf)
  ∧ error sf = Some (message_or "An error occurred" e)
  ∧ (∃ s1, last tr = Some (Ent s1 (ConsoleError "Processing error:" e) tt)).
Proof.
  intros Hp H Hf Hok Hbody He.
  apply processUserAudio_run in H as (-> & tr1 & s1 & c & H & Hc); [|exact Hp].
  unfold processAttempt in H. cbn in H.
  destruct H as (ans & tr2 & -> & s2 & tr3 & -> & H).
  assert (ans = Resolved response) as ->.
  { destruct c; [destruct Hc as [-> _]|destruct Hc as [-> _]];
      cbn in Hf; congruence. }
  rewrite Hok, Hbody in H. cbn [negb] in H.
  apply Runs_bind in H as (tr_r & s3 & c3 & Hr & H).
  unfold readTextLine in Hr.
  apply Runs_readTextLine_from in Hr as (-> & Hheld & -> & Hwait).
  assert (Hthrow : tr3 = tr_r ∧ s1 = resumed s2 tr_r ∧ c = Throw e).
  { unfold header_error in He.
    destruct (scan (chunks reader) (failure reader) [])
      as [[[texts first] reader']|e0].
    - destruct H as (tr4 & H & ->).
      unfold parseTextLine, field_or_empty, trimmed_nonempty in H.
      cbn in H.
      destruct (JSON_parse (decode_chunks texts)) as [parsed|]; cbn in H.
      + destruct (get parsed (js "transcript")) as [t|]; cbn in H.
        * destruct (get parsed (js "text")) as [x|]; cbn in H.
          -- destruct (or_else t (Str [])); try discriminate;
               injection He as <-; cbn in H; destruct H as [-> [= -> ->]];
               rewrite app_nil_r; done.
          -- injection He as <-. destruct H as [-> [= -> ->]].
             rewrite app_nil_r. done.
        * injection He as <-. destruct H as [-> [= -> ->]].
          rewrite app_nil_r. done.
      + injection He as <-. destruct H as [-> [= -> ->]].
        rewrite app_nil_r. done.
    - injection He as <-. destruct H as (-> & -> & ->). done. }
  destruct Hthrow as (-> & -> & ->). destruct Hc as [-> ->].
  destruct (wait_facts _ Hwait) as (Hnp & Hpl & _ & _).
  split; [|split; [|split; [|split]]].
  - constructor; [reflexivity|]. constructor; [reflexivity|].
    apply Forall_app. split; [exact Hnp|repeat constructor].
  - cbn. rewrite played_app, Hpl. reflexivity.
  - cbn [app own_steps]. constructor; [destruct s0; reflexivity|].
    constructor; [reflexivity|].
    apply own_steps_held.
    + apply held_app. split; [exact Hheld|]. cbn. done.
    + reflexivity.
    + rewrite resumed_app. cbn. destruct (resumed s2 tr_r); reflexivity.
  - destruct (resumed s2 tr_r); reflexivity.
  - exists (resumed s2 tr_r). cbn [app]. rewrite !last_cons, last_snoc.
    reflexivity.
Qed.

(** A proxy answered 200 with a page instead of the stream. *)
Definition page_response : Fetched :=
  {| ok := true; json := Rejected SyntaxError;
     body := Some {| chunks := [encode (js "<html>"); encode (js "</html>")];
                     failure := None |} |}.

Definition page_run : list Entry * (Store * Completion unit) :=
  drive (browser (Resolved page_response) true)
        (processUserAudio [1; 2; 3] calm).

Lemma unusable_header_recorded_witness :
  played (fst page_run) = []
  ∧ error (fst (snd page_run)) = Some (Engine "SyntaxError").
Proof.
  destruct (unusable_header_recorded [1; 2; 3] calm (fst page_run)
              (fst (snd page_run)) (snd (snd page_run)) page_response
              {| chunks := [encode (js "<html>"); encode (js "</html>")];
                 failure := None |}
              SyntaxError) as (_ & H2 & _ & H4 & _).
  - reflexivity.
  - apply Runs_driven.
  - vm_compute. reflexivity.
  - reflexivity.
  - reflexivity.
  - vm_compute. reflexivity.
  - split; [exact H2|exact H4].
Defined.

(** Numbers are tested as the doubles the engine holds. A header whose
    transcript is the number [n], with the text [hi]. *)
Definition number_header (n : string) : list Z :=
  [123] ++ quote (js "transcript") ++ [58] ++ js n ++ [44]
  ++ quote (js "text") ++ [58] ++ quote (js "hi") ++ [125; 10].

Definition number_reader (n : string) : Body :=
  {| chunks := [encode (number_header n)]; failure := None |}.

Definition number_run (n : string)
  : list Entry * (Store * Completion unit) :=
  drive (browser (Resolved {| ok := true; json := Rejected SyntaxError;
                              body := Some (number_reader n) |}) true)
        (processUserAudio [1; 2; 3] calm).

(** [1e-400] is zero as a double, so falsy: that header is a blank
    transcript, not an unusable header, and the turn ends with nothing
    logged, no message and [error] as it was. [1e-300] is a double other
    than zero, and its header is unusable. *)
Lemma tiny_number_is_blank :
  header_error (number_reader "1e-400") = None
  ∧ header_error (number_reader "1e-300") = Some TypeError
  ∧ error (fst (snd (number_run "1e-400"))) = None
  ∧ forallb (λ en, negb (is_console en)) (fst (number_run "1e-400")) = true
  ∧ messages (fst (snd (number_run "1e-400"))) = messages calm
  ∧ error (fst (snd (number_run "1e-300"))) = Some (Engine "TypeError").
Proof. vm_compute. repeat split. Qed.

(** ** Any header of strings *)

(** An object without a repeated key is parsed back with its keys in
    order. *)
Lemma object_of_distinct fields :
  NoDup (map fst fields) →
  object_of fields = Obj (map (λ kv, (fst kv, Str (snd kv))) fields).
Proof.
  unfold object_of. intros Hnd.
  enough (H : ∀ acc,
            (∀ k, k ∈ map fst fields → k ∉ map fst acc) →
            fold_left (λ acc kv, set_field (fst kv) (Str (snd kv)) acc)
              fields acc
            = acc ++ map (λ kv, (fst kv, Str (snd kv))) fields).
  { rewrite H; [reflexivity|]. intros k _. apply not_elem_of_nil. }
  induction fields as [|[k v] fields IH]; intros acc Hacc.
  - cbn. rewrite app_nil_r. reflexivity.
  - apply NoDup_cons in Hnd as [Hk Hnd]. cbn [fold_left map fst snd].
    assert (Hset : set_field k (Str v) acc = acc ++ [(k, Str v)]).
    { assert (Hka : k ∉ map fst acc) by (apply Hacc; cbn; left).
      clear -Hka. induction acc as [|[k' v'] acc IHa]; [reflexivity|].
      cbn in Hka |- *. apply not_elem_of_cons in Hka as [Hne Hka].
      unfold jsstring_eqb. rewrite bool_decide_eq_false_2 by congruence.
      rewrite IHa by exact Hka. reflexivity. }
    rewrite Hset, (IH Hnd); [rewrite <- app_assoc; reflexivity|].
    intros k' Hk'. rewrite map_app, elem_of_app. cbn.
    intros [Hin|Hin].
    + apply (Hacc k'); [cbn; right; exact Hk'|exact Hin].
    + apply list_elem_of_singleton in Hin. subst k'. done.
Qed.

(** The wire protocol for any header: the server writes
    [encoder.encode(JSON.stringify(o) + '\n')] for an object [o] of strings
    (any UTF-16 code units: quotes, control characters, line feeds, pairs
    and lone surrogates) and then any bytes. However the network cuts the
    stream, the delimiter loop of the client completes, the text it
    collected parses to an object with the keys and the strings of [o], and
    the bytes after the line are what is left for the player. *)
Theorem header_survives_wire fields chks fail payload :
  Forall units fields →
  NoDup (map fst fields) →
  concat chks = encode (stringify_strings fields ++ [10]) ++ payload →
  ∃ texts first reader',
    (∀ s tr sf out,
       Runs (readTextLine {| chunks := chks; failure := fail |} s) tr (sf, out) →
       out = Normal (texts, first, reader'))
    ∧ (∀ s, parseTextLine texts s
            = Ret (s, Normal (Obj (map (λ kv, (fst kv, Str (snd kv)))
                                       fields))))
    ∧ handed first reader' = payload
    ∧ failure reader' = fail.
Proof.
  intros Hu Hnd Hcat.
  destruct (header_line fields Hu) as [Hline Hnl].
  rewrite Hline, <- app_assoc in Hcat. cbn [app] in Hcat.
  destruct (scan_first_line chks fail _ payload Hcat Hnl)
    as (texts & first & reader' & Hscan & Htexts & Hpay & Hfail).
  exists texts, first, reader'.
  split; [|split; [|split; [exact Hpay|exact Hfail]]].
  - intros s tr sf out H. unfold readTextLine in H. cbn [chunks failure] in H.
    apply Runs_readTextLine_from in H as (-> & _). exact Hscan.
  - intros s. unfold parseTextLine.
    rewrite (header_text_parsed fields texts Hu Htexts).
    rewrite object_of_distinct by exact Hnd. reflexivity.
Qed.

(** A header with a quote, a line feed, an accented letter, a pair and a
    lone surrogate, cut inside the pair. *)
Definition odd_fields : list (list Z * list Z) :=
  [(js "text", [104; 34; 10; 233; 55357; 56832; 56832]);
   (js "transcript", js "yo")].

Definition odd_chunks : list (list Z) :=
  let line := encode (stringify_strings odd_fields ++ [10]) in
  [firstn 20 line; skipn 20 line ++ [255; 10]; [7]].

Lemma header_survives_wire_witness :
  ∃ texts first reader',
    (∀ s tr sf out,
       Runs (readTextLine {| chunks := odd_chunks; failure := None |} s)
            tr (sf, out) →
       out = Normal (texts, first, reader'))
    ∧ (∀ s, parseTextLine texts s
            = Ret (s, Normal (Obj (map (λ kv, (fst kv, Str (snd kv)))
                                       odd_fields))))
    ∧ handed first reader' = [255; 10; 7]
    ∧ failure reader' = None.
Proof.
  apply (header_survives_wire odd_fields odd_chunks None [255; 10; 7]).
  - repeat constructor; cbn; lia.
  - apply (bool_decide_unpack _). vm_compute. reflexivity.
  - vm_compute. reflexivity.
Defined.

End ProtocolProofs.

(* ===================================================================== *)
(** * The players, when the audio fails                                   *)
(* ===================================================================== *)

Module PlayerProofs.
Import Js Conversation ConversationProofs WireProofs ProtocolProofs.
#[local] Open Scope task_scope.
#[local] Arguments js : simpl never.
#[local] Set Warnings "-clear-no-such-hyp".

(** ** A reply whose audio fails *)

(** The answer of the capability probe of the run. *)
Fixpoint probed (tr : list Entry) : option bool :=
  match tr with
  | [] => None
  | Ent _ e x :: rest =>
      match e in E X return X → option bool with
      | MediaSourceSupported => λ r, Some r
      | _ => λ _, probed rest
      end x
  end.

(** How the element of [playAudioBlob] stopped. *)
Fixpoint playback (tr : list Entry) : option Stopped :=
  match tr with
  | [] => None
  | Ent _ e x :: rest =>
      match e in E X return X → option Stopped with
      | Playback _ => λ r, Some r
      | _ => λ _, playback rest
      end x
  end.

(** An entry that is not a rejected [appendBuffer]. *)
Definition append_ok (en : Entry) : bool :=
  match en with
  | Ent _ e x =>
      match e in E X return X → bool with
      | AppendBuffer _ _ =>
          λ r, match r with Resolved _ => true | Rejected _ => false end
      | _ => λ _, true
      end x
  end.

(** What the run passed to [console.warn] and to [console.error]. *)
Fixpoint warned (tr : list Entry) : list thrown :=
  match tr with
  | [] => []
  | Ent _ e _ :: rest =>
      match e with
      | ConsoleWarn _ err => err :: warned rest
      | _ => warned rest
      end
  end.

Fixpoint logged (tr : list Entry) : list thrown :=
  match tr with
  | [] => []
  | Ent _ e _ :: rest =>
      match e with
      | ConsoleError _ err => err :: logged rest
      | _ => logged rest
      end
  end.

Lemma probed_app tr1 tr2 :
  probed (tr1 ++ tr2)
  = match probed tr1 with Some b => Some b | None => probed tr2 end.
Proof.
  induction tr1 as [|[X s e x] tr1 IH]; [reflexivity|].
  destruct e; cbn; done.
Qed.

Lemma playback_app tr1 tr2 :
  playback (tr1 ++ tr2)
  = match playback tr1 with Some b => Some b | None => playback tr2 end.
Proof.
  induction tr1 as [|[X s e x] tr1 IH]; [reflexivity|].
  destruct e; cbn; done.
Qed.

Lemma warned_app tr1 tr2 : warned (tr1 ++ tr2) = warned tr1 ++ warned tr2.
Proof.
  induction tr1 as [|[X s e x] tr1 IH]; [reflexivity|].
  destruct e; cbn; rewrite ?IH; done.
Qed.

Lemma logged_app tr1 tr2 : logged (tr1 ++ tr2) = logged tr1 ++ logged tr2.
Proof.
  induction tr1 as [|[X s e x] tr1 IH]; [reflexivity|].
  destruct e; cbn; rewrite ?IH; done.
Qed.

Lemma no_player tr :
  Forall (λ en, is_player en = false) tr →
  probed tr = None ∧ playback tr = None ∧ warned tr = [].
Proof.
  induction 1 as [|[X s e x] tr H _ (IH1 & IH2 & IH3)]; [done|].
  destruct e; try discriminate; cbn; done.
Qed.

Lemma no_console tr :
  Forall (λ en, is_console en = false) tr → warned tr = [] ∧ logged tr = [].
Proof.
  induction 1 as [|[X s e x] tr H _ (IH1 & IH2)]; [done|].
  destruct e; try discriminate; cbn; done.
Qed.

(** *** The blob player *)

Lemma Runs_readAll_outcome rest fail : ∀ acc s tr sf c,
  Runs (readAll rest fail acc s) tr (sf, c) →
  c = match fail with
      | Some e => Throw e
      | None => Normal (acc ++ rest)
      end.
Proof.
  induction rest as [|value rest IH]; intros acc s tr sf c H.
  - cbn [readAll] in H. apply Runs_bind in H as (tr1 & s1 & c1 & H1 & H).
    apply Runs_read in H1 as [-> ->]. cbn [chunks failure] in H.
    destruct fail as [e|].
    + destruct H as (-> & -> & ->). reflexivity.
    + destruct H as (tr2 & H & ->). cbn in H. destruct H as [-> [= -> ->]].
      rewrite app_nil_r. reflexivity.
  - cbn [readAll] in H. apply Runs_bind in H as (tr1 & s1 & c1 & H1 & H).
    apply Runs_read in H1 as [-> ->]. cbn [chunks failure] in H.
    destruct H as (tr2 & H & ->). apply IH in H as ->.
    destruct fail; [reflexivity|]. rewrite <- app_assoc. reflexivity.
Qed.

(** [playWithBlob] on a stream that fails: the failure is thrown before any
    element is made. On a stream that ends and an element that fires
    [error]: the element was given every byte, is let go, and the task
    throws [Audio playback failed]. *)
Lemma Runs_playWithBlob_failing reader first s tr sf c :
  Runs (playWithBlob reader first s) tr (sf, c) →
  match failure reader with
  | Some e => c = Throw e ∧ played tr = [] ∧ playback tr = None
  | None =>
      playback tr = Some ErrorEvent →
      c = Throw (new_Error (Str (js "Audio playback failed")))
      ∧ played tr = handed first reader ∧ currentAudio sf = None
  end.
Proof.
  unfold playWithBlob. intros H.
  apply Runs_bind in H as (tr1 & s1 & c1 & H1 & H).
  pose proof (Runs_readAll_outcome _ _ _ _ _ _ _ H1) as Hout.
  apply Runs_readAll in H1 as [Hw _].
  destruct (wait_facts _ Hw) as (Hnp & Hpl & _ & _).
  destruct (no_player _ Hnp) as (_ & Hpb & _).
  destruct (failure reader) as [e|] eqn:Hfail; subst c1.
  - destruct H as (-> & -> & ->). done.
  - destruct H as (tr2 & H & ->). rewrite playback_app, Hpb, played_app, Hpl.
    cbn [app]. intros Hstop.
    assert (Hall : concat
                     (match nonempty first with
                      | Some c => [c]
                      | None => []
                      end ++ chunks reader)
                   = handed first reader).
    { unfold handed. rewrite <- nonempty_default, concat_app.
      destruct (nonempty first); cbn; rewrite ?app_nil_r; reflexivity. }
    destruct (match nonempty first with Some c => [c] | None => [] end
              ++ chunks reader) as [|c0 all] eqn:Hchunks.
    + cbn in H. destruct H as [-> _]. discriminate.
    + rewrite <- Hall. clear Hall Hchunks.
      unfold playAudioBlob, releaseCurrent in H. cbn in H.
      assert (Hrun : ∃ pre s2 audio s3 s4 post,
                tr2 = pre ++ Ent s2 (NewAudio (Some (c0 ++ concat all))) audio
                          :: Ent s3 (Play audio) tt
                          :: Ent s3 (Playback audio) ErrorEvent
                          :: Ent s3 (Interleave s3) s4 :: post
                ∧ played pre = [] ∧ playback pre = None
                ∧ Runs ((call RevokeObjectURL;;
                         modify (set_currentAudio None);;
                         throw (new_Error (Str (js "Audio playback failed"))))
                          s4) post (sf, c)).
      { destruct (currentAudio s1) as [old|]; cbn in H.
        - destruct H as ([] & ? & -> & audio & ? & -> & [] & ? & -> & stopped
                         & ? & -> & s4 & post & -> & H).
          cbn in Hstop. injection Hstop as ->.
          eexists [_], _, audio, _, s4, post. done.
        - destruct H as (audio & ? & -> & [] & ? & -> & stopped
                         & ? & -> & s4 & post & -> & H).
          cbn in Hstop. injection Hstop as ->.
          eexists [], _, audio, _, s4, post. done. }
      clear H.
      destruct Hrun as (pre & s2 & audio & s3 & s4 & post & -> & Hpre & _ & H).
      cbn in H. destruct H as ([] & ? & -> & -> & [= -> ->]).
      rewrite played_app, Hpre. cbn. rewrite app_nil_r.
      split; [reflexivity|]. split; [reflexivity|]. destruct s4; reflexivity.
Qed.

(** *** The MediaSource player *)

Lemma Runs_appendAll_ok ms rest fail : ∀ s tr sf c,
  Runs (appendAll ms rest fail s) tr (sf, c) →
  Forall (λ en, append_ok en = true) tr →
  played tr = concat rest
  ∧ c = match fail with Some e => Throw e | None => Normal tt end.
Proof.
  induction rest as [|value rest IH]; intros s tr sf c H Hok.
  - cbn [appendAll] in H. apply Runs_bind in H as (tr1 & s1 & c1 & H1 & H).
    apply Runs_read in H1 as [-> ->]. cbn [chunks failure] in H.
    destruct fail as [e|].
    + destruct H as (-> & -> & ->). done.
    + destruct H as (tr2 & H & ->). cbn in H. destruct H as [-> [= -> ->]].
      done.
  - cbn [appendAll] in H. apply Runs_bind in H as (tr1 & s1 & c1 & H1 & H).
    apply Runs_read in H1 as [-> ->]. cbn [chunks failure] in H.
    destruct H as (tr2 & H & ->).
    apply Runs_bind in H as (tr3 & s3 & c3 & H3 & H).
    unfold appendBuffer in H3. cbn in H3.
    destruct H3 as (ans & tr4 & -> & s4 & tr5 & -> & H3).
    destruct ans as [[]|e]; cbn in H3; destruct H3 as [-> [= -> ->]].
    + destruct H as (tr6 & H & ->).
      apply IH in H as [Hp ->].
      * cbn. rewrite Hp. done.
      * rewrite ?Forall_app, ?Forall_cons in Hok. destruct_and!. assumption.
    + destruct H as (-> & _).
      rewrite ?Forall_app, ?Forall_cons in Hok. destruct_and!. done.
Qed.

Lemma Runs_waitForEnd_quiet s tr sf c :
  Runs (waitForEnd s) tr (sf, c) →
  c = Normal tt ∧ warned tr = [] ∧ logged tr = [].
Proof.
  unfold waitForEnd. cbn. destruct (currentAudio s) as [audio|]; cbn.
  - intros (ended & ? & -> & H). destruct ended; cbn in H.
    + destruct H as ([] & ? & -> & -> & [= _ ->]). done.
    + destruct H as ([] & ? & -> & s1 & ? & -> & [] & ? & -> & -> & [= _ ->]).
      done.
  - intros ([] & ? & -> & -> & [= _ ->]). done.
Qed.

(** What [playWithMediaSource] runs once the source is open. *)
Definition streamInto (mediaSource : nat) (reader : Body)
    (firstChunk : option (list Z)) : M unit :=
  match nonempty firstChunk with
  | Some c => appendBuffer mediaSource c
  | None => ret tt
  end ;;
  s <- get_store ;;
  match currentAudio s with
  | Some a => call (Play a)
  | None => throw TypeError
  end ;;
  try_catch
    (appendAll mediaSource (chunks reader) (failure reader))
    (fun e =>
       call (ConsoleWarn "MediaSource streaming error, audio may still play:" e)) ;;
  isOpen <- call (ReadyStateOpen mediaSource) ;;
  (if isOpen : bool then call (EndOfStream mediaSource) else ret tt) ;;
  waitForEnd.

Lemma playWithMediaSource_opened reader first s tr sf c :
  Runs (playWithMediaSource reader first s) tr (sf, c) →
  ∃ ms pre tr1 s1,
    tr = pre ++ tr1 ∧ played pre = []
    ∧ Forall (λ en, is_console en = false) pre
    ∧ Runs (streamInto ms reader first s1) tr1 (sf, c).
Proof.
  intros H. unfold playWithMediaSource, releaseCurrent in H.
  cbn -[appendAll appendBuffer waitForEnd try_catch] in H.
  destruct H as (ms & tr0 & -> & H).
  destruct (currentAudio s) as [old|];
    cbn -[appendAll appendBuffer waitForEnd try_catch] in H.
  - destruct H as ([] & ? & -> & audio & ? & -> & [] & ? & -> & [] & ?
                   & -> & s1 & ? & -> & [] & tr1 & -> & H).
    eexists ms, [_; _; _; _; _; _; _], tr1, s1.
    split; [reflexivity|]. split; [reflexivity|].
    split; [repeat constructor|exact H].
  - destruct H as (audio & ? & -> & [] & ? & -> & [] & ?
                   & -> & s1 & ? & -> & [] & tr1 & -> & H).
    eexists ms, [_; _; _; _; _; _], tr1, s1.
    split; [reflexivity|]. split; [reflexivity|].
    split; [repeat constructor|exact H].
Qed.

(** [playWithMediaSource] when no [appendBuffer] is rejected: a stream that
    fails is warned about and the task still returns, after the element was
    given every chunk; the task throws only when the element was taken away
    before [play()]. *)
Lemma Runs_playWithMediaSource_ok reader first s tr sf c :
  Runs (playWithMediaSource reader first s) tr (sf, c) →
  Forall (λ en, append_ok en = true) tr →
  logged tr = []
  ∧ ((c = Normal tt ∧ played tr = handed first reader
      ∧ warned tr = match failure reader with Some e => [e] | None => [] end)
     ∨ (c = Throw TypeError ∧ played tr = default [] first ∧ warned tr = [])).
Proof.
  intros H Hok. unfold handed. rewrite <- nonempty_default.
  apply playWithMediaSource_opened in H
    as (ms & pre & tr1 & s1 & -> & Hpre & Hcpre & H).
  apply Forall_app in Hok as [_ Hok].
  destruct (no_console _ Hcpre) as [Hwpre Hlpre].
  rewrite played_app, warned_app, logged_app, Hpre, Hwpre, Hlpre. cbn [app].
  clear Hpre Hwpre Hlpre Hcpre.
  unfold streamInto in H.
  apply Runs_bind in H as (tr2 & s2 & c2 & Hfirst & H).
  assert (Hf : c2 = Normal tt
               ∧ played tr2
                 = match nonempty first with Some c => c | None => [] end
               ∧ warned tr2 = [] ∧ logged tr2 = []).
  { destruct (nonempty first) as [chunk|].
    - unfold appendBuffer in Hfirst. cbn in Hfirst.
      destruct Hfirst as (ans & ? & -> & s' & ? & -> & Hfirst).
      destruct ans as [[]|e]; cbn in Hfirst;
        destruct Hfirst as [-> [= -> ->]].
      + cbn. rewrite app_nil_r. done.
      + destruct H as (-> & _).
        rewrite ?Forall_app, ?Forall_cons in Hok. destruct_and!. done.
    - cbn in Hfirst. destruct Hfirst as [-> [= -> ->]]. done. }
  destruct Hf as (-> & Hf & Hwf & Hlf). destruct H as (tr3 & H & ->).
  apply Forall_app in Hok as [_ Hok].
  rewrite played_app, warned_app, logged_app, Hf, Hwf, Hlf. cbn [app].
  clear Hf Hwf Hlf Hfirst.
  (* play() *)
  cbn -[appendAll waitForEnd try_catch] in H.
  destruct (currentAudio s2) as [a|].
  2:{ cbn in H. destruct H as (-> & [= -> ->]). cbn. rewrite app_nil_r.
      split; [done|]. right. done. }
  cbn -[appendAll waitForEnd try_catch] in H.
  destruct H as ([] & tr4 & -> & H). cbn [played warned logged].
  apply Forall_cons in Hok as [_ Hok].
  (* the rest of the stream *)
  apply Runs_bind in H as (tr5 & s5 & c5 & Happ & H).
  apply Runs_try_catch in Happ as (tr6 & s6 & c6 & Happ & Hcatch).
  assert (Hok6 : Forall (λ en, append_ok en = true) tr6).
  { destruct c6 as [[]|e].
    - destruct Hcatch as (-> & _). destruct c5; [|destruct H as (-> & _); done].
      destruct H as (? & _ & ->). apply Forall_app in Hok as [Hok _]. done.
    - destruct Hcatch as (tr7 & _ & ->).
      destruct c5; [destruct H as (? & _ & ->)|destruct H as (-> & _)];
        rewrite ?Forall_app in Hok; destruct_and!; done. }
  pose proof (Runs_appendAll _ _ _ _ _ _ _ Happ) as (_ & _ & Hcon).
  destruct (no_console _ Hcon) as [Hw6 Hl6].
  apply Runs_appendAll_ok in Happ as [Hp6 ->]; [|exact Hok6].
  assert (Hrest : ∀ s tr,
            Runs ((isOpen <- call (ReadyStateOpen ms);;
                   (if isOpen : bool then call (EndOfStream ms) else ret ());;
                   waitForEnd) s) tr (sf, c) →
            c = Normal tt ∧ played tr = [] ∧ warned tr = []
            ∧ logged tr = []).
  { intros s' tr' H'. cbn -[waitForEnd] in H'.
    destruct H' as (isOpen & tr8 & -> & H').
    destruct isOpen; cbn -[waitForEnd] in H'.
    - destruct H' as ([] & tr9 & -> & H').
      pose proof (Runs_waitForEnd _ _ _ _ H').
      apply Runs_waitForEnd_quiet in H' as (-> & ? & ?). done.
    - pose proof (Runs_waitForEnd _ _ _ _ H').
      apply Runs_waitForEnd_quiet in H' as (-> & ? & ?). done. }
  destruct (failure reader) as [e|].
  - destruct Hcatch as (tr7 & Hwarn & ->). cbn in Hwarn.
    destruct Hwarn as ([] & ? & -> & -> & [= -> ->]).
    destruct H as (tr8 & H & ->). apply Hrest in H as (-> & Hp8 & Hw8 & Hl8).
    rewrite !played_app, !warned_app, !logged_app, Hp6, Hw6, Hp8, Hw8, Hl6, Hl8.
    cbn. rewrite !app_nil_r. split; [done|]. left. done.
  - destruct Hcatch as (-> & -> & ->).
    destruct H as (tr8 & H & ->). apply Hrest in H as (-> & Hp8 & Hw8 & Hl8).
    rewrite !played_app, !warned_app, !logged_app, Hp6, Hw6, Hp8, Hw8, Hl6, Hl8.
    rewrite !app_nil_r. split; [done|]. left. done.
Qed.

(** *** The turn around the player *)

(** [spoken_turn] with the store the turn leaves: the [catch] records the
    error of a player that threw, then both ways settle the avatar and the
    [finally] clears [isProcessing]. *)
Lemma spoken_turn_store audioBlob s0 tr sf out response reader
    responseText first reader' ts :
  isProcessing s0 = false →
  Runs (processUserAudio audioBlob s0) tr (sf, out) →
  fetched tr = Some (Resolved response) →
  ok response = true → body response = Some reader →
  Header reader (Str ts) responseText first reader' →
  trim ts ≠ [] →
  ∃ pre mid sa trp sp cp,
    Runs (playStreamingAudio reader' first sa) trp (sp, cp)
    ∧ tr = pre ++ mid ++ trp
           ++ match cp with
              | Normal _ => []
              | Throw err =>
                  [Ent sp (ConsoleError "Processing error:" err) tt]
              end
    ∧ Forall (λ en, is_player en = false) (pre ++ mid)
    ∧ Forall (λ en, is_console en = false) (pre ++ mid)
    ∧ played (pre ++ mid) = []
    ∧ sf = match cp with
           | Normal _ => set_isProcessing false (set_avatarState (settle sp) sp)
           | Throw err =>
               set_isProcessing false
                 (set_avatarState (settle sp)
                    (set_error (Some (message_or "An error occurred" err)) sp))
           end.
Proof.
  intros Hp H Hf Hok Hbody Hh Hts.
  apply processUserAudio_run in H as (-> & tr1 & s1 & c & H & Hc); [|exact Hp].
  assert (Hf1 : fetched tr1 = Some (Resolved response)).
  { destruct c; [destruct Hc as [-> _]; exact Hf|].
    destruct Hc as [-> _]. rewrite fetched_app in Hf.
    destruct (fetched tr1); [exact Hf|discriminate]. }
  destruct (processAttempt_header _ _ _ _ _ _ _ _ _ _ _ H Hf1 Hok Hbody Hh)
    as (s2 & tr_r & tr2 & history & -> & Hheld & Hwait & Hr).
  unfold respond, trimmed_nonempty in Hr.
  cbn -[playStreamingAudio] in Hr.
  destruct (trim ts) eqn:Htrim; [done|]. cbn -[playStreamingAudio] in Hr.
  destruct Hr as (u1 & tr3 & -> & d1 & tr4 & -> & u2 & tr5 & -> & d2 & tr6
                  & -> & Hr).
  apply Runs_bind in Hr as (trp & sp & cp & Hplay & Hr).
  destruct (wait_facts _ Hwait) as (Hnp & Hpl & _ & Hnc).
  eexists (_ :: _ :: tr_r), [_; _; _; _], _, trp, sp, cp.
  split; [exact Hplay|].
  split; [|split; [|split; [|split]]].
  - destruct cp as [[]|err].
    + destruct Hr as (tr7 & [-> [= -> ->]] & ->). destruct Hc as [-> _].
      cbn. rewrite <- ?app_assoc. cbn. rewrite ?app_nil_r. reflexivity.
    + destruct Hr as (-> & -> & ->). destruct Hc as [-> _].
      cbn. rewrite <- ?app_assoc. reflexivity.
  - cbn. constructor; [reflexivity|]. constructor; [reflexivity|].
    apply Forall_app. split; [exact Hnp|repeat constructor].
  - cbn. constructor; [reflexivity|]. constructor; [reflexivity|].
    apply Forall_app. split; [exact Hnc|repeat constructor].
  - cbn. rewrite played_app, Hpl. reflexivity.
  - destruct cp as [[]|err].
    + destruct Hr as (tr7 & [-> [= -> ->]] & ->). destruct Hc as [_ ->].
      destruct sp; reflexivity.
    + destruct Hr as (-> & -> & ->). destruct Hc as [_ ->]. reflexivity.
Qed.

(** A reply stream that fails after its header, played through a blob:
    the turn gives the player nothing and makes no element; the [catch]
    logs the failure of the stream and leaves its message in [error]. *)
Theorem blob_stream_failure_recorded audioBlob s0 tr sf out response reader
    responseText first reader' ts e :
  isProcessing s0 = false →
  Runs (processUserAudio audioBlob s0) tr (sf, out) →
  fetched tr = Some (Resolved response) →
  ok response = true → body response = Some reader →
  Header reader (Str ts) responseText first reader' →
  trim ts ≠ [] →
  probed tr = Some false →
  failure reader' = Some e →
  played tr = [] ∧ playback tr = None ∧ warned tr = [] ∧ logged tr = [e]
  ∧ error sf = Some (message_or "An error occurred" e).
Proof.
  intros Hp H Hf Hok Hbody Hh Hts Hprobe Hfail.
  destruct (spoken_turn_store _ _ _ _ _ _ _ _ _ _ _ Hp H Hf Hok Hbody Hh Hts)
    as (pre & mid & sa & trp & sp & cp & Hplay & -> & Hnp & Hnc & Hpl & ->).
  rewrite app_assoc in Hprobe |- *.
  destruct (no_player _ Hnp) as (Hpr & Hpb & Hw).
  destruct (no_console _ Hnc) as [_ Hlog].
  rewrite probed_app, Hpr in Hprobe.
  rewrite played_app, playback_app, warned_app, logged_app, Hpl, Hpb, Hw, Hlog.
  cbn [app]. clear Hpr Hpb Hw Hlog Hpl Hnp Hnc.
  unfold playStreamingAudio in Hplay. cbn -[playWithMediaSource playWithBlob] in Hplay.
  destruct Hplay as (supported & trq & -> & Hplay).
  cbn in Hprobe. injection Hprobe as ->.
  pose proof (Runs_playWithBlob _ _ _ _ _ _ Hplay) as (_ & _ & Hcon).
  destruct (no_console _ Hcon) as [Hw Hlog].
  apply Runs_playWithBlob_failing in Hplay. rewrite Hfail in Hplay.
  destruct Hplay as (-> & Hpl & Hpb).
  cbn [app played playback warned logged].
  rewrite played_app, playback_app, warned_app, logged_app, Hpl, Hpb, Hw, Hlog.
  cbn. split; [done|]. split; [done|]. split; [done|]. split; [done|].
  destruct sp; reflexivity.
Qed.

(** A reply played through a blob whose element fires [error]: the element
    was given every byte of the audio, it is let go, and the [catch] leaves
    [Audio playback failed] in [error]. *)
Theorem blob_playback_error_recorded audioBlob s0 tr sf out response reader
    responseText first reader' ts :
  isProcessing s0 = false →
  Runs (processUserAudio audioBlob s0) tr (sf, out) →
  fetched tr = Some (Resolved response) →
  ok response = true → body response = Some reader →
  Header reader (Str ts) responseText first reader' →
  trim ts ≠ [] →
  probed tr = Some false →
  playback tr = Some ErrorEvent →
  failure reader' = None
  ∧ played tr = handed first reader'
  ∧ logged tr = [new_Error (Str (js "Audio playback failed"))]
  ∧ error sf = Some (Text (js "Audio playback failed"))
  ∧ currentAudio sf = None.
Proof.
  intros Hp H Hf Hok Hbody Hh Hts Hprobe Hstop.
  destruct (spoken_turn_store _ _ _ _ _ _ _ _ _ _ _ Hp H Hf Hok Hbody Hh Hts)
    as (pre & mid & sa & trp & sp & cp & Hplay & -> & Hnp & Hnc & Hpl & ->).
  rewrite app_assoc in Hprobe, Hstop |- *.
  destruct (no_player _ Hnp) as (Hpr & Hpb & Hw).
  destruct (no_console _ Hnc) as [_ Hlog].
  rewrite probed_app, Hpr in Hprobe. rewrite playback_app, Hpb in Hstop.
  rewrite played_app, logged_app, Hpl, Hlog.
  cbn [app]. clear Hpr Hpb Hw Hlog Hpl Hnp Hnc.
  unfold playStreamingAudio in Hplay. cbn -[playWithMediaSource playWithBlob] in Hplay.
  destruct Hplay as (supported & trq & -> & Hplay).
  cbn in Hprobe. injection Hprobe as ->.
  pose proof (Runs_playWithBlob _ _ _ _ _ _ Hplay) as (_ & _ & Hcon).
  destruct (no_console _ Hcon) as [_ Hlog].
  apply Runs_playWithBlob_failing in Hplay.
  cbn [app playback] in Hstop. rewrite playback_app in Hstop.
  destruct (failure reader') as [e|].
  { destruct Hplay as (-> & _ & Hpb). rewrite Hpb in Hstop. discriminate. }
  assert (Hstop' : playback trq = Some ErrorEvent).
  { destruct (playback trq); [exact Hstop|]. destruct cp; discriminate. }
  destruct (Hplay Hstop') as (-> & Hpl & Hcur).
  cbn [app played logged]. rewrite played_app, logged_app, Hpl, Hlog.
  cbn. rewrite app_nil_r. split; [done|]. split; [done|]. split; [done|].
  destruct sp; cbn in Hcur |- *. done.
Qed.

(** A reply stream that fails after its header, played through MediaSource
    with no [appendBuffer] rejected: the element is given every chunk of the
    audio, the failure is only warned about and the [catch] of the turn logs
    nothing. The one other way out is an element taken away before
    [play()], a TypeError that the [catch] records. *)
Theorem media_source_stream_failure_warned audioBlob s0 tr sf out response
    reader responseText first reader' ts e :
  isProcessing s0 = false →
  Runs (processUserAudio audioBlob s0) tr (sf, out) →
  fetched tr = Some (Resolved response) →
  ok response = true → body response = Some reader →
  Header reader (Str ts) responseText first reader' →
  trim ts ≠ [] →
  probed tr = Some true →
  failure reader' = Some e →
  Forall (λ en, append_ok en = true) tr →
  (played tr = handed first reader' ∧ warned tr = [e] ∧ logged tr = [])
  ∨ (played tr = default [] first ∧ warned tr = []
     ∧ logged tr = [TypeError]
     ∧ error sf = Some (Engine "TypeError")).
Proof.
  intros Hp H Hf Hok Hbody Hh Hts Hprobe Hfail Happ.
  destruct (spoken_turn_store _ _ _ _ _ _ _ _ _ _ _ Hp H Hf Hok Hbody Hh Hts)
    as (pre & mid & sa & trp & sp & cp & Hplay & -> & Hnp & Hnc & Hpl & ->).
  rewrite app_assoc in Hprobe, Happ |- *.
  destruct (no_player _ Hnp) as (Hpr & Hpb & Hw).
  destruct (no_console _ Hnc) as [_ Hlog].
  rewrite probed_app, Hpr in Hprobe.
  rewrite played_app, warned_app, logged_app, Hpl, Hw, Hlog.
  cbn [app]. clear Hpr Hpb Hw Hlog Hpl Hnp Hnc.
  apply Forall_app in Happ as [_ Happ]. apply Forall_app in Happ as [Happ _].
  unfold playStreamingAudio in Hplay. cbn -[playWithMediaSource playWithBlob] in Hplay.
  destruct Hplay as (supported & trq & -> & Hplay).
  cbn in Hprobe. injection Hprobe as ->.
  apply Forall_cons in Happ as [_ Happ].
  apply Runs_playWithMediaSource_ok in Hplay; [|exact Happ].
  rewrite Hfail in Hplay.
  cbn [app played warned logged]. rewrite played_app, warned_app, logged_app.
  destruct Hplay as (Hlog & [(-> & Hpl & Hw)|(-> & Hpl & Hw)]);
    rewrite Hpl, Hw, Hlog.
  - left. cbn. rewrite !app_nil_r. done.
  - right. cbn. rewrite !app_nil_r. destruct sp; done.
Qed.

(** *** Runs with failing audio *)

(** The response of [wire_response] on a connection that is lost after the
    last chunk that arrived. *)
Definition cut_response : Fetched :=
  {| ok := true; json := Rejected SyntaxError;
     body := Some {| chunks := wire_chunks; failure := Some offline |} |}.

Definition cut_run (supported : bool)
  : list Entry * (Store * Completion unit) :=
  drive (browser (Resolved cut_response) supported)
        (processUserAudio [1; 2; 3] calm).

(** The browser of [browser], with elements that fire [error]. *)
Definition failing_element (response : result Fetched) (X : Type) (e : E X)
  : X :=
  match e in E X return X → X with
  | Playback _ => λ _, ErrorEvent
  | _ => λ x, x
  end (browser response false X e).

Definition unplayable_run : list Entry * (Store * Completion unit) :=
  drive (failing_element (Resolved wire_response))
        (processUserAudio [1; 2; 3] calm).

Lemma cut_Header :
  Header {| chunks := wire_chunks; failure := Some offline |}
         (Str (js "yo")) (Str (js "hi")) None
         {| chunks := [[255; 0]; [10; 7]]; failure := Some offline |}.
Proof.
  apply (wire_Header _
           (firstn 3 wire_chunks
            ++ [[114; 105; 112; 116; 34; 58; 34; 121; 111; 34; 125]]));
    vm_compute; reflexivity.
Qed.

Lemma blob_stream_failure_recorded_witness :
  played (fst (cut_run false)) = []
  ∧ playback (fst (cut_run false)) = None
  ∧ warned (fst (cut_run false)) = []
  ∧ logged (fst (cut_run false)) = [offline]
  ∧ error (fst (snd (cut_run false))) = Some (Text (js "Failed to fetch")).
Proof.
  apply (blob_stream_failure_recorded [1; 2; 3] calm (fst (cut_run false))
           (fst (snd (cut_run false))) (snd (snd (cut_run false)))
           cut_response {| chunks := wire_chunks; failure := Some offline |}
           (Str (js "hi")) None
           {| chunks := [[255; 0]; [10; 7]]; failure := Some offline |}
           (js "yo") offline).
  - reflexivity.
  - apply Runs_driven.
  - vm_compute. reflexivity.
  - reflexivity.
  - reflexivity.
  - exact cut_Header.
  - exact yo_spoken.
  - vm_compute. reflexivity.
  - reflexivity.
Defined.

Lemma blob_playback_error_recorded_witness :
  played (fst unplayable_run) = [255; 0; 10; 7]
  ∧ error (fst (snd unplayable_run))
    = Some (Text (js "Audio playback failed"))
  ∧ currentAudio (fst (snd unplayable_run)) = None.
Proof.
  destruct (blob_playback_error_recorded [1; 2; 3] calm (fst unplayable_run)
              (fst (snd unplayable_run)) (snd (snd unplayable_run))
              wire_response {| chunks := wire_chunks; failure := None |}
              (Str (js "hi")) None
              {| chunks := [[255; 0]; [10; 7]]; failure := None |}
              (js "yo")) as (_ & Hpl & _ & Herr & Hcur).
  - reflexivity.
  - apply Runs_driven.
  - vm_compute. reflexivity.
  - reflexivity.
  - reflexivity.
  - apply (wire_Header _
             (firstn 3 wire_chunks
              ++ [[114; 105; 112; 116; 34; 58; 34; 121; 111; 34; 125]]));
      vm_compute; reflexivity.
  - exact yo_spoken.
  - vm_compute. reflexivity.
  - vm_compute. reflexivity.
  - split; [exact Hpl|]. split; [exact Herr|exact Hcur].
Defined.

Lemma media_source_stream_failure_warned_witness :
  played (fst (cut_run true)) = [255; 0; 10; 7]
  ∧ warned (fst (cut_run true)) = [offline]
  ∧ logged (fst (cut_run true)) = [].
Proof.
  destruct (media_source_stream_failure_warned [1; 2; 3] calm
              (fst (cut_run true)) (fst (snd (cut_run true)))
              (snd (snd (cut_run true))) cut_response
              {| chunks := wire_chunks; failure := Some offline |}
              (Str (js "hi")) None
              {| chunks := [[255; 0]; [10; 7]]; failure := Some offline |}
              (js "yo") offline) as [H|(_ & _ & H & _)].
  - reflexivity.
  - apply Runs_driven.
  - vm_compute. reflexivity.
  - reflexivity.
  - reflexivity.
  - exact cut_Header.
  - exact yo_spoken.
  - vm_compute. reflexivity.
  - reflexivity.
  - vm_compute. repeat constructor.
  - exact H.
  - vm_compute in H. discriminate.
Defined.

End PlayerProofs.

(* ===================================================================== *)
(** * The turn detector, beyond the claims                                *)
(* ===================================================================== *)

Module RecorderProofs.
Import VoiceRecorder VoiceRecorderProofs.

(** ** When silence is declared *)

Section Detector.

Variables (r a : nat) (T0 : Z) (out0 : list Blob).
Hypothesis T0_nonneg : 0 ≤ T0.

(** A frame that reaches the threshold. *)
Definition loud_frame (e : Z * Event) : Prop :=
  match snd e with
  | EvFrame dataArray =>
      Qle_bool SILENCE_THRESHOLD (audio_level dataArray) = true
  | _ => False
  end.

(** What the two detector variables say of the events [tr] of the turn so
    far: [hasSpeechStarted] is set only after a loud frame, and
    [silenceStart] holds the clock of a frame past the warmup since which
    every frame stayed below the threshold. *)
Definition Heard (tr : list (Z * Event)) (hs : bool) (ss : option Z) : Prop :=
  (hs = true → Exists loud_frame tr)
  ∧ (∀ x, ss = Some x →
       WARMUP_PERIOD < x - T0
       ∧ ∃ tr1 da tr2,
           tr = tr1 ++ (x, EvFrame da) :: tr2
           ∧ Forall below_threshold ((x, EvFrame da) :: tr2)).

Lemma Heard_data tr hs ss t' r' data :
  Heard tr hs ss → Heard (tr ++ [(t', EvData r' data)]) hs ss.
Proof.
  intros [Hhs Hss]. split.
  - intros H. apply Exists_app. left. auto.
  - intros x Hx. destruct (Hss x Hx) as (Hw & tr1 & da & tr2 & -> & Hq).
    split; [exact Hw|]. exists tr1, da, (tr2 ++ [(t', EvData r' data)]).
    split; [rewrite <- app_assoc; reflexivity|].
    rewrite app_comm_cons. apply Forall_app. split; [exact Hq|].
    repeat constructor.
Qed.

(** A frame that does not declare silence keeps the reading. *)
Lemma Heard_frame tr hs ss t' d hs' ss' :
  (∀ x, ss = Some x → 0 < x) →
  Heard tr hs ss →
  vad T0 hs ss t' d = Some (hs', ss') →
  Heard (tr ++ [(t', EvFrame d)]) hs' ss'.
Proof.
  intros Hpos [Hhs Hss] Hvad. unfold vad, Qlt_bool in Hvad.
  destruct (Qle_bool SILENCE_THRESHOLD (audio_level d)) eqn:Hloud.
  - assert (hs' = true ∧ ss' = None) as [-> ->].
    { cbn in Hvad. repeat case_match; simplify_eq; done. }
    split; [|discriminate]. intros _. apply Exists_app. right.
    constructor. exact Hloud.
  - assert (Hkeep : ∀ x, ss = Some x →
              WARMUP_PERIOD < x - T0
              ∧ ∃ tr1 da tr2,
                  tr ++ [(t', EvFrame d)] = tr1 ++ (x, EvFrame da) :: tr2
                  ∧ Forall below_threshold ((x, EvFrame da) :: tr2)).
    { intros x Hx. destruct (Hss x Hx) as (Hw & tr1 & da & tr2 & -> & Hq).
      split; [exact Hw|]. exists tr1, da, (tr2 ++ [(t', EvFrame d)]).
      split; [rewrite <- app_assoc; reflexivity|].
      rewrite app_comm_cons. apply Forall_app. split; [exact Hq|].
      constructor; [exact Hloud|constructor]. }
    assert (Hnew : ss' = Some t' → WARMUP_PERIOD < t' - T0 →
              ∀ x, ss' = Some x →
                WARMUP_PERIOD < x - T0
                ∧ ∃ tr1 da tr2,
                    tr ++ [(t', EvFrame d)] = tr1 ++ (x, EvFrame da) :: tr2
                    ∧ Forall below_threshold ((x, EvFrame da) :: tr2)).
    { intros -> Hw x [= <-]. split; [exact Hw|]. exists tr, d, [].
      split; [reflexivity|]. constructor; [exact Hloud|constructor]. }
    cbn [negb] in Hvad.
    destruct (hs && (t' - T0 >? WARMUP_PERIOD) && (t' - T0 >? MIN_RECORDING_MS))
      eqn:Hcond.
    + apply andb_prop in Hcond as [Hcond _].
      apply andb_prop in Hcond as [-> Hw]. apply Z.gtb_lt in Hw.
      assert (Hex : Exists loud_frame (tr ++ [(t', EvFrame d)]))
        by (apply Exists_app; left; auto).
      destruct ss as [x|].
      * destruct (x =? 0) eqn:Hx0.
        { apply Z.eqb_eq in Hx0. specialize (Hpos x eq_refl). lia. }
        destruct (t' - x >? SILENCE_TIMEOUT); [discriminate|].
        injection Hvad as <- <-. split; [auto|exact Hkeep].
      * injection Hvad as <- <-. split; [auto|]. apply Hnew; [reflexivity|lia].
    + injection Hvad as <- <-. split; [|exact Hkeep].
      intros H. apply Exists_app. left. auto.
Qed.

(** A frame that declares silence. *)
Lemma Heard_declares tr hs ss tb db :
  Heard tr hs ss →
  vad T0 hs ss tb db = None →
  WARMUP_PERIOD < tb - T0
  ∧ below_threshold (tb, EvFrame db)
  ∧ Exists loud_frame tr
  ∧ ∃ tr1 ta da tr2,
      tr = tr1 ++ (ta, EvFrame da) :: tr2
      ∧ WARMUP_PERIOD < ta - T0
      ∧ SILENCE_TIMEOUT < tb - ta
      ∧ Forall below_threshold ((ta, EvFrame da) :: tr2).
Proof.
  intros [Hhs Hss] Hvad. unfold vad, Qlt_bool in Hvad.
  destruct (Qle_bool SILENCE_THRESHOLD (audio_level db)) eqn:Hloud.
  { cbn in Hvad. repeat case_match; discriminate. }
  cbn [negb] in Hvad.
  destruct (hs && (tb - T0 >? WARMUP_PERIOD) && (tb - T0 >? MIN_RECORDING_MS))
    eqn:Hcond; [|discriminate].
  apply andb_prop in Hcond as [Hcond _].
  apply andb_prop in Hcond as [-> Hw]. apply Z.gtb_lt in Hw.
  destruct ss as [x|]; [|discriminate].
  destruct (x =? 0); [discriminate|].
  destruct (tb - x >? SILENCE_TIMEOUT) eqn:Hlong; [|discriminate].
  apply Z.gtb_lt in Hlong.
  destruct (Hss x eq_refl) as (Hwx & tr1 & da & tr2 & -> & Hq).
  split; [lia|]. split; [exact Hloud|]. split; [auto|].
  exists tr1, x, da, tr2. done.
Qed.

(** While the turn listens, the detector variables keep their reading of
    the events seen. *)
Lemma run_Heard tr : ∀ pre t cs s,
  ordered t tr → Forall (vad_event r) tr →
  Listening r a T0 out0 t cs s →
  Heard pre (hasSpeechStarted s) (silenceStart s) →
  isListening (run s tr) = true →
  ∃ cs', Listening r a T0 out0 (end_time t tr) cs' (run s tr)
         ∧ Heard (pre ++ tr) (hasSpeechStarted (run s tr))
                 (silenceStart (run s tr)).
Proof.
  induction tr as [|e tr IH]; intros pre t cs s Ho Hv HL HH Hon.
  - exists cs. rewrite app_nil_r. done.
  - destruct Ho as [Hle Ho]. apply Forall_cons in Hv as [He Hv].
    cbn [run fold_left] in Hon |- *. cbn [end_time].
    replace (pre ++ e :: tr) with ((pre ++ [e]) ++ tr)
      by (rewrite <- app_assoc; reflexivity).
    destruct e as [t' [| d | r' data | | | |]]; cbn in He; try done.
    + pose proof (step_frame_Listening r a T0 out0 T0_nonneg t t' cs s d
                    Hle HL) as H.
      destruct (vad T0 (hasSpeechStarted s) (silenceStart s) t' d)
        as [[hs' ss']|] eqn:Hvad.
      * destruct H as (HL' & Hhs & Hss).
        apply (IH (pre ++ [(t', EvFrame d)]) t' cs); try done.
        rewrite Hhs, Hss. apply (Heard_frame pre (hasSpeechStarted s) (silenceStart s) t' d hs' ss');
          try done.
        intros x Hx. destruct HL as (_ & _ & _ & _ & _ & _ & _ & _ & _ & Hp).
        apply Hp in Hx. lia.
      * apply (run_Declared r a out0 tr _ _ Hv) in H.
        destruct H as (Hoff & _). unfold run in Hoff. congruence.
    + subst r'.
      destruct (step_data_Listening r a T0 out0 t t' cs s data Hle HL)
        as (HL' & Hhs & Hss).
      apply (IH (pre ++ [(t', EvData r data)]) t' _ _ Ho Hv HL'); [|exact Hon].
      rewrite Hhs, Hss. apply Heard_data, HH.
Qed.

(** In a fresh turn, the frame that ends the listening comes after the
    warmup and is below the threshold; some earlier frame reached the
    threshold; and since some frame past the warmup, more than
    [SILENCE_TIMEOUT] before, every frame stayed below the threshold. *)
Theorem silence_declared_soundly s tr tb db :
  FreshTurn r a T0 out0 s →
  ordered T0 (tr ++ [(tb, EvFrame db)]) →
  Forall (vad_event r) tr →
  isListening (run s tr) = true →
  isListening (run s (tr ++ [(tb, EvFrame db)])) = false →
  WARMUP_PERIOD < tb - T0
  ∧ below_threshold (tb, EvFrame db)
  ∧ Exists loud_frame tr
  ∧ ∃ tr1 ta da tr2,
      tr = tr1 ++ (ta, EvFrame da) :: tr2
      ∧ WARMUP_PERIOD < ta - T0
      ∧ SILENCE_TIMEOUT < tb - ta
      ∧ Forall below_threshold ((ta, EvFrame da) :: tr2).
Proof.
  intros (HL & Hhs & Hss) Ho Hv Hon Hoff.
  apply ordered_app in Ho as [Ho Hlast]. destruct Hlast as [Hlast _].
  cbn [fst] in Hlast.
  assert (H0 : Heard [] (hasSpeechStarted s) (silenceStart s)).
  { rewrite Hhs, Hss. split; discriminate. }
  destruct (run_Heard tr [] T0 [] s Ho Hv HL H0 Hon) as (cs' & HL' & HH).
  cbn [app] in HH. rewrite run_app in Hoff. cbn [run fold_left] in Hoff.
  pose proof (step_frame_Listening r a T0 out0 T0_nonneg _ tb cs' _ db
                Hlast HL') as H.
  destruct (vad T0 _ _ tb db) as [[hs' ss']|] eqn:Hvad.
  - destruct H as ((Hlis & _) & _). unfold run in *. congruence.
  - apply (Heard_declares tr _ _ tb db HH Hvad).
Qed.

End Detector.

(** Speech at 1100, silence from 2600 on, declared by the frame at 4700. *)
Lemma silence_declared_soundly_witness :
  WARMUP_PERIOD < 4700 - 1005
  ∧ below_threshold (4700, EvFrame hush)
  ∧ Exists loud_frame [(1100, EvFrame loud); (2600, EvFrame hush)]
  ∧ ∃ tr1 ta da tr2,
      [(1100, EvFrame loud); (2600, EvFrame hush)]
      = tr1 ++ (ta, EvFrame da) :: tr2
      ∧ WARMUP_PERIOD < ta - 1005
      ∧ SILENCE_TIMEOUT < 4700 - ta
      ∧ Forall below_threshold ((ta, EvFrame da) :: tr2).
Proof.
  apply (silence_declared_soundly 5 4 1005 [] ltac:(lia) started
           [(1100, EvFrame loud); (2600, EvFrame hush)] 4700 hush).
  - exact started_fresh.
  - cbn. lia.
  - repeat constructor.
  - vm_compute. reflexivity.
  - vm_compute. reflexivity.
Defined.

(** ** A turn that is interrupted *)

Section Interrupted.

Variables (r a : nat) (T0 : Z) (out0 : list Blob).

(** The page pauses the recorder ([paused] while the session is active),
    ends the session, the component is destroyed, or the recorder of the
    turn reports an error. *)
Definition interrupt (ev : Event) : Prop :=
  match ev with
  | EvProps true true | EvProps false _ | EvDestroy => True
  | EvRecError r' => r' = r
  | _ => False
  end.

(** The turn no longer listens and the handler of its recorder is not the
    one that sends: the empty one of a discarded turn, or none at all after
    an error. *)
Definition Discarded (s : VR) : Prop :=
  isListening s = false
  ∧ (∃ st h q, recorders s !! r = Some {| rec_state := st;
                                          rec_onstop := h;
                                          rec_stopQueued := q |}
               ∧ ∀ a' b, h ≠ OnStopSend a' b)
  ∧ completions s = out0.

Lemma Discarded_fields s s' :
  isListening s' = isListening s → recorders s' = recorders s →
  completions s' = completions s →
  Discarded s → Discarded s'.
Proof. intros H1 H2 H3 H. unfold Discarded. rewrite H1, H2, H3. exact H. Qed.

Lemma stopTurn_Discarded s :
  mediaRecorder s = Some r →
  recorders s !! r = Some {| rec_state := Recording;
                             rec_onstop := OnStopUnset;
                             rec_stopQueued := false |} →
  completions s = out0 →
  Discarded (stopTurn false s).
Proof.
  intros H2 H3 H9. destruct s. vr_eval. subst. vr_cases; simplify_eq;
    (split; [reflexivity|]); (split; [|exact H9]);
    vr_eval; rewrite ?lookup_insert_eq; eauto 10.
Qed.

Lemma teardownSession_Discarded s :
  mediaRecorder s = Some r →
  recorders s !! r = Some {| rec_state := Recording;
                             rec_onstop := OnStopUnset;
                             rec_stopQueued := false |} →
  completions s = out0 →
  Discarded (teardownSession s).
Proof.
  intros H2 H3 H9. destruct s. vr_eval. subst. vr_cases; simplify_eq;
    (split; [reflexivity|]);
    (split; [vr_eval; rewrite ?lookup_insert_eq; eauto 10|]);
    unfold completions in *; vr_eval; rewrite ?omap_app, ?app_nil_r;
    exact H9.
Qed.

Lemma interrupt_Discarded t cs s now ev :
  Listening r a T0 out0 t cs s → interrupt ev → Discarded (step s (now, ev)).
Proof.
  intros (H1 & H2 & H3 & _ & _ & _ & _ & _ & H9 & _) Hev.
  destruct ev as [[|] [|]| | | | r' | |]; cbn in Hev; try done; cbn [step];
    [unfold effect..| |].
  - replace (sessionActive (set_paused true (set_sessionActive true s)))
      with true by (destruct s; reflexivity).
    replace (paused (set_paused true (set_sessionActive true s)))
      with true by (destruct s; reflexivity).
    cbn [andb negb].
    replace (isListening
               (set_awaitingResponse false
                  (set_paused true (set_sessionActive true s))))
      with true by (destruct s; cbn in H1 |- *; congruence).
    apply stopTurn_Discarded; destruct s; assumption.
  - replace (sessionActive (set_paused true (set_sessionActive false s)))
      with false by (destruct s; reflexivity).
    cbn [andb]. apply teardownSession_Discarded; destruct s; assumption.
  - replace (sessionActive (set_paused false (set_sessionActive false s)))
      with false by (destruct s; reflexivity).
    cbn [andb]. apply teardownSession_Discarded; destruct s; assumption.
  - subst r'. rewrite H3. unfold onerror.
    split; [destruct s; reflexivity|]. split.
    + exists Recording, OnStopUnset, false. split; [destruct s; exact H3|done].
    + destruct s; unfold completions in *; vr_eval.
      rewrite omap_app, app_nil_r. exact H9.
  - apply teardownSession_Discarded; assumption.
Qed.

Lemma updateLevel_idle now d s :
  isListening s = false → updateLevel now d s = s.
Proof.
  intros H. unfold updateLevel. rewrite H. destruct (analyser s); reflexivity.
Qed.

(** With the turn not listening, a frame only clears callbacks. *)
Lemma run_frame_idle now d s :
  isListening s = false →
  ∃ fs, run_frame now d s = set_frames fs s.
Proof.
  unfold run_frame. generalize (frames s) as batch. intros batch. revert s.
  induction batch as [|id batch IH]; intros s H.
  - exists (frames s). destruct s; reflexivity.
  - cbn [fold_left]. case_bool_decide.
    + rewrite updateLevel_idle by (destruct s; exact H).
      destruct (IH (set_frames (filter (λ i, i ≠ id) (frames s)) s))
        as [fs ->]; [destruct s; exact H|].
      exists fs. destruct s; reflexivity.
    + apply IH, H.
Qed.

Lemma step_Discarded s e :
  turn_event r e → Discarded s → Discarded (step s e).
Proof.
  intros He HD. pose proof HD as (H1 & (st & h & q & H2 & Hh) & H3).
  destruct e as [now [| d | r' data | r' | | |]]; cbn in He; try done;
    cbn [step].
  - destruct (run_frame_idle now d s H1) as [fs ->].
    apply (Discarded_fields s); [destruct s; reflexivity..|exact HD].
  - subst r'. rewrite H2. unfold ondataavailable. case_match; [|exact HD].
    apply (Discarded_fields s); [destruct s; reflexivity..|exact HD].
  - subst r'. rewrite H2. cbn [rec_stopQueued rec_onstop rec_state].
    destruct q; [|exact HD].
    assert (Hstop : ∀ s', onstop h s' = s').
    { intros s'. destruct h as [| |a' b]; try reflexivity.
      destruct (Hh a' b eq_refl). }
    rewrite Hstop.
    split; [destruct s; exact H1|]. split; [|destruct s; exact H3].
    exists st, h, false. split; [|exact Hh].
    destruct s; cbn. apply lookup_insert_eq.
Qed.

(** A turn that is paused, or whose session ends, or whose component is
    destroyed, or whose recorder reports an error, hands nothing to
    [onRecordingComplete]: neither at the interruption nor when frames and
    the chunks and the stop event of its recorder arrive afterwards, and it
    does not listen again in that time. Speech heard and chunks recorded
    before make no difference. *)
Theorem interrupted_turn_discarded t cs s now ev tr :
  Listening r a T0 out0 t cs s →
  interrupt ev →
  Forall (turn_event r) tr →
  completions (run s ((now, ev) :: tr)) = out0
  ∧ isListening (run s ((now, ev) :: tr)) = false.
Proof.
  intros HL Hev Htr. cbn [run fold_left].
  pose proof (interrupt_Discarded t cs s now ev HL Hev) as HD.
  revert HD. generalize (step s (now, ev)) as s'. clear HL.
  induction tr as [|e tr IH]; intros s' HD.
  - destruct HD as (H1 & _ & H3). done.
  - apply Forall_cons in Htr as [He Htr]. cbn [fold_left].
    apply (IH Htr). apply step_Discarded; assumption.
Qed.

End Interrupted.

(** The first turn of [started] after speech and a chunk. *)
Definition speaking_turn : VR :=
  run started [(1100, EvFrame loud); (1200, EvData 5%nat [1; 2])].

Lemma speaking_turn_Listening :
  Listening 5 4 1005 [] 1200 [[1; 2]] speaking_turn.
Proof.
  repeat split; try (vm_compute; reflexivity).
  - eexists. vm_compute. reflexivity.
  - eexists. vm_compute. reflexivity.
  - vm_compute in H. discriminate.
  - vm_compute in H. discriminate.
Qed.

Lemma interrupted_turn_discarded_witness :
  completions
    (run speaking_turn
       [(1300, EvProps true true); (1301, EvData 5%nat [3]);
        (1302, EvStop 5%nat)]) = []
  ∧ isListening
      (run speaking_turn
         [(1300, EvProps true true); (1301, EvData 5%nat [3]);
          (1302, EvStop 5%nat)]) = false.
Proof.
  apply (interrupted_turn_discarded 5 4 1005 [] 1200 [[1; 2]] speaking_turn
           1300 (EvProps true true)
           [(1301, EvData 5%nat [3]); (1302, EvStop 5%nat)]).
  - exact speaking_turn_Listening.
  - exact I.
  - repeat constructor.
Defined.

(** ** Ending the session *)

(** The session ends or the component is destroyed. *)
Definition ends (ev : Event) : Prop :=
  match ev with
  | EvProps false _ | EvDestroy => True
  | _ => False
  end.

Lemma step_ends s now ev :
  ends ev →
  ∃ s0, step s (now, ev) = teardownSession s0
        ∧ stream s0 = stream s ∧ audioContext s0 = audioContext s
        ∧ emitted s0 = emitted s ∧ micPending s0 = micPending s
        ∧ mediaRecorder s0 = mediaRecorder s ∧ recorders s0 = recorders s.
Proof.
  destruct ev as [[|] p| | | | | |]; cbn; try done; intros _.
  - exists (set_paused p (set_sessionActive false s)). unfold effect.
    replace (sessionActive (set_paused p (set_sessionActive false s)))
      with false by (destruct s; reflexivity).
    destruct s; done.
  - exists s. done.
Qed.

Lemma teardownSession_released s :
  stream (teardownSession s) = None
  ∧ audioContext (teardownSession s) = None
  ∧ mediaRecorder (teardownSession s) = None
  ∧ isListening (teardownSession s) = false
  ∧ recorder_active (teardownSession s) = None
  ∧ micPending (teardownSession s) = micPending s
  ∧ emitted (teardownSession s)
    = emitted s
      ++ match audioContext s with Some c => [ContextClosed c] | None => [] end
      ++ match stream s with Some m => [TracksStopped m] | None => [] end.
Proof.
  destruct s. vr_cases; simplify_eq; rewrite <- ?app_assoc, ?app_nil_r; done.
Qed.

(** The variables [teardownSession] resets, as it leaves them. *)
Definition torn_down (s : VR) : Prop :=
  (∀ n, animationFrame s ≠ Some (S n))
  ∧ isListening s = false ∧ audioLevel s = 0%Q ∧ silenceStart s = None
  ∧ isSendingSilence s = false ∧ hasSpeechStarted s = false
  ∧ awaitingResponse s = false ∧ startingTurn s = false
  ∧ mediaRecorder s = None ∧ audioContext s = None ∧ stream s = None.

Lemma teardownSession_torn_down s : torn_down (teardownSession s).
Proof.
  destruct s. unfold torn_down. vr_cases; simplify_eq; repeat split; congruence.
Qed.

Lemma torn_down_fixed s : torn_down s → teardownSession s = s.
Proof.
  intros (H1 & H2 & H3 & H4 & H5 & H6 & H7 & H8 & H9 & H10 & H11).
  destruct s. vr_eval. subst.
  destruct animationFrame0 as [[|n]|]; [reflexivity| |reflexivity].
  destruct (H1 n eq_refl).
Qed.

Lemma teardownSession_idempotent s :
  teardownSession (teardownSession s) = teardownSession s.
Proof. apply torn_down_fixed, teardownSession_torn_down. Qed.

(** The recorder objects after a teardown: the one [mediaRecorder] names
    is stopped, if it records; no other is touched. *)
Lemma teardownSession_recorders s :
  recorders (teardownSession s)
  = match recorder_active s with
    | Some r =>
        <[ r := {| rec_state := Inactive; rec_onstop := OnStopDiscard;
                   rec_stopQueued := true |} ]> (recorders s)
    | None => recorders s
    end.
Proof. destruct s. vr_cases; simplify_eq; reflexivity. Qed.

Lemma recorder_active_named s r :
  recorder_active s = Some r ↔
  mediaRecorder s = Some r
  ∧ rec_state <$> recorders s !! r = Some Recording.
Proof.
  unfold recorder_active.
  destruct (mediaRecorder s) as [r0|]; [|split; [done|intros [? _]; done]].
  destruct (recorders s !! r0) as [[[|] h q]|] eqn:Hr.
  - split; [done|]. intros [[= ->] H]. rewrite Hr in H. done.
  - split; [intros [= ->]; rewrite Hr; done|intros [[= ->] _]; done].
  - split; [done|]. intros [[= ->] H]. rewrite Hr in H. done.
Qed.

(** A recorder that records after a teardown did so before, and was not
    the one [mediaRecorder] named. *)
Lemma teardownSession_left_recording s r :
  rec_state <$> recorders (teardownSession s) !! r = Some Recording →
  rec_state <$> recorders s !! r = Some Recording
  ∧ mediaRecorder s ≠ Some r.
Proof.
  rewrite teardownSession_recorders.
  destruct (recorder_active s) as [r0|] eqn:Ha.
  - apply recorder_active_named in Ha as [Hm _].
    destruct (decide (r0 = r)) as [->|Hne].
    + rewrite lookup_insert_eq. done.
    + rewrite lookup_insert_ne by exact Hne. intros H. split; [exact H|].
      congruence.
  - intros H. split; [exact H|]. intros Hm.
    assert (recorder_active s = Some r) by (apply recorder_active_named; done).
    congruence.
Qed.

(** When the session ends, or the component is destroyed: the audio context
    and the stream that the variables name are closed and stopped, each
    once if it was there, and the variables are cleared; the recorder that
    [mediaRecorder] names no longer records; a recorder that still records
    afterwards is one that recorded before and that [mediaRecorder] did not
    name (teardown acts on what the variables name, and reaches no recorder,
    stream or context of an earlier start that they name no more); and a
    second teardown (the destroy hook after the effect) changes nothing. *)
Theorem session_end_releases s now ev now' :
  ends ev →
  stream (step s (now, ev)) = None
  ∧ audioContext (step s (now, ev)) = None
  ∧ mediaRecorder (step s (now, ev)) = None
  ∧ isListening (step s (now, ev)) = false
  ∧ emitted (step s (now, ev))
    = emitted s
      ++ match audioContext s with Some c => [ContextClosed c] | None => [] end
      ++ match stream s with Some m => [TracksStopped m] | None => [] end
  ∧ (∀ r, mediaRecorder s = Some r →
          rec_state <$> recorders (step s (now, ev)) !! r ≠ Some Recording)
  ∧ (∀ r, rec_state <$> recorders (step s (now, ev)) !! r = Some Recording →
          rec_state <$> recorders s !! r = Some Recording
          ∧ mediaRecorder s ≠ Some r)
  ∧ step (step s (now, ev)) (now', EvDestroy) = step s (now, ev).
Proof.
  intros Hev.
  destruct (step_ends s now ev Hev)
    as (s0 & -> & H1 & H2 & H3 & _ & Hm & Hr).
  destruct (teardownSession_released s0) as (? & ? & ? & ? & _ & _ & He).
  rewrite He, H1, H2, H3. cbn [step].
  rewrite teardownSession_idempotent. rewrite <- Hm, <- Hr.
  split_and!; try done.
  - intros r Hn Hrec.
    apply teardownSession_left_recording in Hrec as [_ Hrec]. done.
  - intros r Hrec. apply teardownSession_left_recording. exact Hrec.
Qed.

Lemma session_end_releases_witness :
  emitted (step speaking_turn (1300, EvProps false false))
  = emitted speaking_turn ++ [ContextClosed 2] ++ [TracksStopped 1]
  ∧ stream (step speaking_turn (1300, EvProps false false)) = None
  ∧ rec_state
      <$> recorders (step speaking_turn (1300, EvProps false false)) !! 5%nat
    ≠ Some Recording.
Proof.
  destruct (session_end_releases speaking_turn 1300 (EvProps false false)
              1400 I) as (H1 & _ & _ & _ & H5 & H6 & _).
  split; [exact H5|]. split; [exact H1|].
  apply H6. vm_compute. reflexivity.
Defined.

(** After the double start, the end of the session stops the second
    recorder and releases the second stream and context; the first
    recorder goes on recording, and the first stream and context are never
    released. *)
Lemma double_start_outlives_session :
  let s := run init (double_start ++ [(2000, EvProps false false)]) in
  rec_state <$> recorders s !! 5%nat = Some Recording
  ∧ rec_state <$> recorders s !! 11%nat = Some Inactive
  ∧ mediaRecorder s = None ∧ stream s = None ∧ audioContext s = None
  ∧ emitted s = [SessionReady; SessionReady; ContextClosed 8; TracksStopped 7].
Proof. vm_compute. repeat split. Qed.

(** ** A microphone granted late *)

(** The parked [startTurn] resumes on a grant: whatever happened while it
    waited, it keeps the stream and starts a recorder. *)
Lemma startTurn_resume_granted now s :
  isListening (startTurn_resume now MicGranted s) = true
  ∧ stream (startTurn_resume now MicGranted s) = Some (nextId s)
  ∧ sessionActive (startTurn_resume now MicGranted s) = sessionActive s
  ∧ recorder_active (startTurn_resume now MicGranted s)
    = Some (S (S (S (S (nextId s))))).
Proof.
  destruct s. unfold startTurn_resume, acquireMic_settled, startTurn_record,
    startLevelMonitoring, requestFrame, recorder_active.
  vr_eval. rewrite lookup_insert_eq. vr_eval. done.
Qed.

(** Events that are neither a change of the props nor the destruction. *)
Definition plain_event (e : Z * Event) : Prop :=
  match snd e with
  | EvProps _ _ | EvDestroy => False
  | _ => True
  end.

Lemma stream_updateLevel now d s : stream (updateLevel now d s) = stream s.
Proof. destruct s. vr_cases; reflexivity. Qed.

Lemma stream_run_frame now d s : stream (run_frame now d s) = stream s.
Proof.
  unfold run_frame. generalize (frames s) as batch. intros batch. revert s.
  induction batch as [|id batch IH]; intros s; [reflexivity|].
  cbn [fold_left]. rewrite IH. case_bool_decide; [|reflexivity].
  rewrite stream_updateLevel. destruct s; reflexivity.
Qed.

(** Only the teardown lets go of the stream. *)
Lemma step_keeps_stream s e :
  plain_event e → is_Some (stream s) → is_Some (stream (step s e)).
Proof.
  destruct e as [now [| d | r data | r | r | o |]]; cbn; try done; intros _ H.
  - rewrite stream_run_frame. exact H.
  - case_match; [|exact H]. destruct s; vr_cases; exact H.
  - repeat case_match; try exact H. destruct s; vr_cases; exact H.
  - case_match; [|exact H]. destruct s; vr_cases; exact H.
  - destruct (micPending s); [exact H|].
    destruct s, o; vr_cases; first [exact H|eauto].
Qed.

(** A session that ends, or a component that is destroyed, while
    [getUserMedia] is still pending: the teardown does not cancel the parked
    [startTurn]. When the grant arrives the component takes the stream and
    starts recording, and no later frame, recorder event or microphone
    outcome releases the stream. *)
Theorem late_grant_keeps_microphone s n now ev now' tr :
  micPending s = S n →
  ends ev →
  Forall plain_event tr →
  isListening (run s [(now, ev); (now', EvMic MicGranted)]) = true
  ∧ is_Some (recorder_active (run s [(now, ev); (now', EvMic MicGranted)]))
  ∧ sessionActive (run s [(now, ev); (now', EvMic MicGranted)])
    = match ev with EvProps active _ => active | _ => sessionActive s end
  ∧ is_Some (stream (run s ((now, ev) :: (now', EvMic MicGranted) :: tr))).
Proof.
  intros Hpend Hev Htr. cbn [run fold_left].
  assert (Hp : micPending (step s (now, ev)) = S n).
  { destruct (step_ends s now ev Hev) as (s0 & -> & _ & _ & _ & Hm & _).
    destruct (teardownSession_released s0) as (_ & _ & _ & _ & _ & Hm' & _).
    congruence. }
  assert (Ha : sessionActive (step s (now, ev))
               = match ev with
                 | EvProps active _ => active
                 | _ => sessionActive s
                 end).
  { destruct ev as [[|] p| | | | | |]; cbn in Hev |- *; try done.
    - unfold effect.
      replace (sessionActive (set_paused p (set_sessionActive false s)))
        with false by (destruct s; reflexivity).
      cbn [andb]. destruct s; vr_cases; reflexivity.
    - destruct s; vr_cases; reflexivity. }
  revert Hp Ha. generalize (step s (now, ev)) as s1. intros s1 Hp Ha.
  cbn [step]. rewrite Hp.
  destruct (startTurn_resume_granted now' (set_micPending n s1))
    as (H1 & H2 & H3 & H4).
  split; [exact H1|]. split; [rewrite H4; eauto|].
  split; [rewrite H3, <- Ha; destruct s1; reflexivity|].
  assert (H : is_Some (stream (startTurn_resume now' MicGranted
                                 (set_micPending n s1))))
    by (rewrite H2; eauto).
  revert H. generalize (startTurn_resume now' MicGranted (set_micPending n s1)).
  induction tr as [|e tr IH]; intros s2 H; [exact H|].
  apply Forall_cons in Htr as [He Htr]. cbn [fold_left].
  apply (IH Htr). apply step_keeps_stream; assumption.
Qed.

(** The session of [init] is started and ended before the browser answers
    the request for the microphone. *)
Lemma late_grant_keeps_microphone_witness :
  isListening
    (run (run init [(1000, EvProps true false)])
       [(1001, EvProps false false); (1005, EvMic MicGranted)]) = true
  ∧ sessionActive
      (run (run init [(1000, EvProps true false)])
         [(1001, EvProps false false); (1005, EvMic MicGranted)]) = false
  ∧ is_Some
      (stream
         (run (run init [(1000, EvProps true false)])
            [(1001, EvProps false false); (1005, EvMic MicGranted);
             (1100, EvFrame loud); (9000, EvFrame hush)])).
Proof.
  destruct (late_grant_keeps_microphone
              (run init [(1000, EvProps true false)]) 0 1001
              (EvProps false false) 1005
              [(1100, EvFrame loud); (9000, EvFrame hush)])
    as (H1 & _ & H3 & H4).
  - reflexivity.
  - exact I.
  - repeat constructor.
  - split; [exact H1|]. split; [exact H3|exact H4].
Defined.

(** ** The next turn starts before the stop event *)

Section Restart.

Variables (r a : nat) (out0 : list Blob).

Definition is_data (e : Z * Event) : Prop :=
  match snd e with
  | EvData _ _ => True
  | _ => False
  end.

(** Silence was declared for the turn of [r], and a later turn writes to
    another array. *)
Definition Superseded (cs : list Blob) (s : VR) : Prop :=
  recorders s !! r = Some {| rec_state := Inactive;
                             rec_onstop := OnStopSend a true;
                             rec_stopQueued := true |}
  ∧ audioChunks s ≠ a
  ∧ arrays s !! a = Some cs
  ∧ completions s = out0.

Lemma restart_Superseded cs s t1 t2 :
  Declared r a out0 cs s →
  is_Some (stream s) → is_Some (analyser s) → startingTurn s = false →
  (r < nextId s)%nat → (a < nextId s)%nat →
  FreshTurn (S (nextId s)) (nextId s) t2 out0
    (run s [(t1, EvProps true true); (t2, EvProps true false)])
  ∧ Superseded cs
      (run s [(t1, EvProps true true); (t2, EvProps true false)]).
Proof.
  intros (H1 & H2 & H3 & H4 & H5 & H6) [m Hm] [n Hn] Hst Hr Ha.
  destruct s. cbn [run fold_left step].
  unfold FreshTurn, Listening, Superseded, completions in *.
  vr_eval. subst. unfold effect, startTurn. vr_eval.
  unfold startTurn_record, startLevelMonitoring, requestFrame.
  vr_eval. rewrite !lookup_insert_eq, !lookup_insert_ne by lia.
  repeat split; eauto; try done; lia.
Qed.

Lemma step_data_Superseded cs s e :
  is_data e → Superseded cs s → Superseded cs (step s e).
Proof.
  destruct e as [now [| | r' data | | | |]]; cbn; try done.
  intros _ (H1 & H2 & H3 & H4). case_match; [|done].
  unfold ondataavailable. case_match; [|done].
  destruct s; unfold Superseded, completions in *; vr_eval.
  rewrite lookup_alter_ne by done. done.
Qed.

(** The comment of [stopTurn]: the captured chunks survive the next
    [startTurn]. After silence was declared, the page pauses the recorder
    and resumes it before the stop event of the old recorder is delivered.
    The new turn is a fresh one (own recorder, own array, detector reset,
    clock restarted); the stop event still hands over the chunks of the old
    turn, exactly those it held when the new turn began: a chunk that
    arrives later, from either recorder, is not among them. *)
Theorem completion_survives_restart cs s t1 t2 tr t3 :
  Declared r a out0 cs s →
  is_Some (stream s) → is_Some (analyser s) → startingTurn s = false →
  (r < nextId s)%nat → (a < nextId s)%nat →
  Forall is_data tr →
  FreshTurn (S (nextId s)) (nextId s) t2 out0
    (run s [(t1, EvProps true true); (t2, EvProps true false)])
  ∧ completions
      (run s ((t1, EvProps true true) :: (t2, EvProps true false)
              :: tr ++ [(t3, EvStop r)]))
    = out0 ++ (if 0 <? Z.of_nat (length cs) then [concat cs] else []).
Proof.
  intros HD Hm Hn Hst Hr Ha Htr.
  destruct (restart_Superseded cs s t1 t2 HD Hm Hn Hst Hr Ha) as (H1 & HS).
  split; [exact H1|].
  change ((t1, EvProps true true) :: (t2, EvProps true false)
          :: tr ++ [(t3, EvStop r)])
    with ([(t1, EvProps true true); (t2, EvProps true false)]
          ++ tr ++ [(t3, EvStop r)]).
  rewrite !run_app. revert HS.
  generalize (run s [(t1, EvProps true true); (t2, EvProps true false)]).
  clear H1 HD Hm Hn Hst Hr Ha.
  induction tr as [|e tr IH]; intros s1 HS.
  - destruct HS as (H1 & H2 & H3 & H4). cbn [run fold_left step].
    rewrite H1. cbn [rec_stopQueued rec_onstop rec_state onstop].
    destruct s1; unfold completions in *; vr_eval. rewrite H3. vr_eval.
    rewrite andb_true_r. destruct (0 <? Z.of_nat (length cs)).
    + vr_eval. rewrite omap_app, H4. reflexivity.
    + rewrite app_nil_r. exact H4.
  - apply Forall_cons in Htr as [He Htr]. cbn [run fold_left].
    apply (IH Htr). apply step_data_Superseded; assumption.
Qed.

End Restart.

(** The first turn of [started], with silence declared at 4700. *)
Definition declared_turn : VR :=
  run started [(1100, EvFrame loud); (1200, EvData 5%nat [1; 2]);
               (2600, EvFrame hush); (4700, EvFrame hush)].

(** The last chunk of the old recorder arrives after the restart and is
    not part of the blob. *)
Lemma completion_survives_restart_witness :
  completions
    (run declared_turn
       [(4800, EvProps true true); (4900, EvProps true false);
        (4901, EvData 5%nat [9]); (4902, EvStop 5%nat)])
  = [[1; 2]].
Proof.
  destruct (completion_survives_restart 5 4 [] [[1; 2]] declared_turn
              4800 4900 [(4901, EvData 5%nat [9])] 4902) as (_ & H).
  - repeat split; vm_compute; reflexivity.
  - eexists. vm_compute. reflexivity.
  - eexists. vm_compute. reflexivity.
  - reflexivity.
  - vm_compute. lia.
  - vm_compute. lia.
  - repeat constructor.
  - exact H.
Defined.

(** ** The level shown *)

(** Frames carry what [getByteFrequencyData] writes: bytes. *)
Definition byte_frame (e : Z * Event) : Prop :=
  match snd e with
  | EvFrame dataArray => Forall (λ b, 0 ≤ b ≤ 255) dataArray
  | _ => True
  end.

Definition Level (s : VR) : Prop :=
  (0 <= audioLevel s)%Q ∧ (audioLevel s <= 100)%Q.

Lemma sum_nonneg d : Forall (λ b, 0 ≤ b ≤ 255) d → 0 ≤ fold_right Z.add 0 d.
Proof. induction 1; cbn; lia. Qed.

Lemma audio_level_range d :
  Forall (λ b, 0 ≤ b ≤ 255) d →
  (0 <= audio_level d)%Q ∧ (audio_level d <= 100)%Q.
Proof.
  intros Hd. unfold audio_level. split; [|apply Q.le_min_l].
  apply Q.min_glb; [discriminate|].
  apply Qmult_le_0_compat; [|discriminate].
  apply Qmult_le_0_compat; [|discriminate].
  apply Qmult_le_0_compat.
  - unfold Qle. cbn. pose proof (sum_nonneg d Hd). lia.
  - apply Qinv_le_0_compat. unfold Qle. cbn. lia.
Qed.

Lemma Level_fields s s' :
  audioLevel s' = audioLevel s ∨ audioLevel s' = 0%Q → Level s → Level s'.
Proof.
  unfold Level. intros [->| ->] H; [exact H|]. split; discriminate.
Qed.

Lemma Level_stopTurn b s : Level (stopTurn b s).
Proof.
  apply (Level_fields (set_audioLevel 0%Q s));
    [|split; destruct s; discriminate].
  left. destruct s. vr_cases; reflexivity.
Qed.

Lemma Level_teardownSession s : Level (teardownSession s).
Proof.
  apply (Level_fields (set_audioLevel 0%Q s));
    [|split; destruct s; discriminate].
  left. destruct s. vr_cases; reflexivity.
Qed.

Lemma Level_updateLevel now d s :
  Forall (λ b, 0 ≤ b ≤ 255) d → Level s → Level (updateLevel now d s).
Proof.
  intros Hd HL. pose proof (audio_level_range d Hd) as Hr.
  destruct s. unfold Level in *. vr_cases; first [exact HL|exact Hr|split; discriminate].
Qed.

Lemma Level_run_frame now d s :
  Forall (λ b, 0 ≤ b ≤ 255) d → Level s → Level (run_frame now d s).
Proof.
  intros Hd. unfold run_frame. generalize (frames s) as batch.
  intros batch. revert s. induction batch as [|id batch IH]; intros s HL.
  - exact HL.
  - cbn [fold_left]. apply IH. case_bool_decide; [|exact HL].
    apply Level_updateLevel; [exact Hd|].
    apply (Level_fields s); [left; destruct s; reflexivity|exact HL].
Qed.

Lemma Level_step s e : byte_frame e → Level s → Level (step s e).
Proof.
  destruct e as [now [active isPaused| d | r data | r | r | o |]];
    unfold byte_frame; cbn [snd step]; intros He HL.
  - unfold effect. repeat case_match;
      first [apply Level_stopTurn | apply Level_teardownSession | idtac];
      apply (Level_fields s); try exact HL; left;
      destruct s; vr_cases; reflexivity.
  - apply Level_run_frame; assumption.
  - apply (Level_fields s); [|exact HL]. left. destruct s. vr_cases; reflexivity.
  - apply (Level_fields s); [|exact HL]. left. destruct s. vr_cases; reflexivity.
  - apply (Level_fields s); [|exact HL]. left. destruct s. vr_cases; reflexivity.
  - apply (Level_fields s); [|exact HL]. left.
    destruct s, o; vr_cases; reflexivity.
  - apply Level_teardownSession.
Qed.

(** The level the component shows is a percentage at every moment,
    whatever the component is told and whatever bytes the analyser
    writes. *)
Theorem level_is_percentage (tr : list (Z * Event)) :
  Forall byte_frame tr →
  (0 <= audioLevel (run init tr))%Q ∧ (audioLevel (run init tr) <= 100)%Q.
Proof.
  intros Htr. change (Level (run init tr)).
  assert (H0 : Level init) by (split; discriminate).
  revert H0. generalize init.
  induction tr as [|e tr IH]; intros s HL; [exact HL|].
  apply Forall_cons in Htr as [He Htr]. cbn [run fold_left].
  apply (IH Htr). apply Level_step; assumption.
Qed.

(** Full-scale bytes give 100, not 199. *)
Lemma level_is_percentage_witness :
  Qle 0
      (audioLevel
         (run init [(1000, EvProps true false); (1005, EvMic MicGranted);
                    (1100, EvFrame loud)]))
  ∧ Qle (audioLevel
           (run init [(1000, EvProps true false); (1005, EvMic MicGranted);
                      (1100, EvFrame loud)]))
        100.
Proof.
  apply (level_is_percentage
           [(1000, EvProps true false); (1005, EvMic MicGranted);
            (1100, EvFrame loud)]).
  repeat constructor; cbn; lia.
Defined.

End RecorderProofs.

(* ===================================================================== *)
(** * The routes, beyond the claims                                       *)
(* ===================================================================== *)

Module RouteProofs.
Import Js Api.

(** Every reply of the three routes, with its cause. A stream is sent only
    after every call the request made succeeded (a blank transcription ends
    the calls of [/process-audio]). A JSON reply is the analysis with
    status 200, for a body the validator accepted; or status 500 with
    [success: false] and the message of what was thrown in the handler (for
    a thrown value that is no [Error], the fallback of the route); or the
    400 of [/process-audio] for a request without audio; or, on [/analyze],
    what comes before the handler: the 400 of the validator with its
    result, for a body that is not of the schema, and the 500 of the
    application's error handler, for a body that is no JSON. No route
    answers anything else. *)
Theorem route_replies_classified :
  (∀ ai,
     match greeting ai with
     | StreamResponse _ =>
         ∃ content tts,
           g_completion ai = Resolved content ∧ g_speech ai = Resolved tts
     | JsonResponse j status =>
         status = 500
         ∧ ∃ e, j = ErrorJson (message_or "Failed to get greeting" e)
                      (Some false)
                ∧ (g_completion ai = Rejected e ∨ g_speech ai = Rejected e)
     end)
  ∧ (∀ ai,
       match analyze ai with
       | StreamResponse _ => False
       | JsonResponse (ValidationJson result) status =>
           status = 400 ∧ a_validation ai = Refused result
       | JsonResponse (InternalErrorJson msg) status =>
           status = 500 ∧ a_validation ai = Malformed msg
       | JsonResponse (AnalysisJson analysis success) status =>
           success = true ∧ status = 200
           ∧ a_validation ai = Accepted
           ∧ ∃ content,
               a_completion ai = Resolved content
               ∧ JSON_parse (analysisText content) = Some analysis
       | JsonResponse (ErrorJson m success) status =>
           success = Some false ∧ status = 500
           ∧ a_validation ai = Accepted
           ∧ ((∃ e, a_completion ai = Rejected e
                    ∧ m = message_or "Analysis failed" e)
              ∨ (∃ content,
                   a_completion ai = Resolved content
                   ∧ JSON_parse (analysisText content) = None
                   ∧ m = Engine "SyntaxError"))
       end)
  ∧ (∀ ai,
       match process_audio ai with
       | StreamResponse _ =>
           ∃ formData transcript,
             p_formData ai = Resolved formData
             ∧ entry_falsy (audio formData) = false
             ∧ p_transcription ai = Resolved transcript
             ∧ (trim transcript = []
                ∨ ∃ deltas tts,
                    p_completion ai = Resolved (deltas, None)
                    ∧ p_speech ai = Resolved tts)
       | JsonResponse j status =>
           (status = 400
            ∧ j = ErrorJson (Text (js "No audio file provided")) None
            ∧ ∃ formData,
                p_formData ai = Resolved formData
                ∧ entry_falsy (audio formData) = true)
           ∨ (status = 500
              ∧ ∃ e, j = ErrorJson (message_or "Processing failed" e)
                           (Some false))
       end).
Proof.
  split; [|split]; intros ai.
  - unfold greeting, caught.
    destruct (g_completion ai) as [content|e]; [|eauto 10].
    destruct (g_speech ai) as [tts|e]; eauto 10.
  - unfold analyze, onError, caught.
    destruct (a_validation ai) as [|result|msg]; [|done..].
    destruct (a_completion ai) as [content|e]; [|eauto 10].
    destruct (JSON_parse (analysisText content)) as [v|] eqn:Hp.
    + do 3 (split; [done|]). eauto.
    + do 3 (split; [done|]). right. exists content. done.
  - unfold process_audio, caught.
    destruct (p_formData ai) as [formData|e]; [|right; eauto].
    destruct (entry_falsy (audio formData)) eqn:Hf; [left; eauto 10|].
    destruct (previousMessages _); [|right; eauto].
    destruct (p_transcription ai) as [transcript|e]; [|right; eauto].
    destruct (trim transcript) eqn:Htrim.
    { exists formData, transcript. rewrite Htrim. auto. }
    destruct (map_messages _); [|right; eauto].
    destruct (p_completion ai) as [[deltas [e|]]|e]; try (right; eauto; fail).
    destruct (p_speech ai) as [tts|e]; [|right; eauto].
    exists formData, transcript. rewrite Htrim. eauto 10.
Qed.

End RouteProofs.
